(** * pkg/sync: the sync engine of JuiceFS, embedded in Rocq

    The development follows [pkg/sync/sync.go].  Keys are Go strings and
    compare byte-wise; sizes, limits and times are [int64] values carried
    as [Z]; channels that a producer closes are finite lists, a [nil]
    descriptor on a channel is [None]. *)

From Stdlib Require Import ZArith List String Ascii Bool Lia DecimalString.
From Stdlib Require Import Sorting.Sorted Sorting.Permutation Sorting.Mergesort.
From Stdlib Require Import Structures.Orders.
From Stdlib Require Import Structures.OrderedTypeEx.
Import ListNotations.

Open Scope Z_scope.

(** ** Keys: Go string comparison *)

Module Keys.

(** [a < b], [a <= b], [a > b] and [a == b] on Go strings. *)
Definition lt (a b : string) : bool := String.ltb a b.
Definition le (a b : string) : bool := String.leb a b.
Definition gt (a b : string) : bool := String.ltb b a.
Definition eq (a b : string) : bool := String.eqb a b.

(** strings.HasPrefix(s, prefix) *)
Definition HasPrefix (s prefix : string) : bool := String.prefix prefix s.

Lemma lt_spec a b : lt a b = true <-> String_as_OT.lt a b.
Proof.
  unfold lt, String.ltb. rewrite <- String_as_OT.cmp_lt.
  unfold String_as_OT.cmp. destruct (String.compare a b); intuition congruence.
Qed.

Lemma lt_irrefl a : lt a a = false.
Proof.
  unfold lt, String.ltb.
  assert (H : String.compare a a = Eq) by (now apply String_as_OT.cmp_eq).
  now rewrite H.
Qed.

Lemma lt_trans a b c : lt a b = true -> lt b c = true -> lt a c = true.
Proof.
  rewrite !lt_spec. apply String_as_OT.lt_trans.
Qed.

Lemma lt_asym a b : lt a b = true -> lt b a = false.
Proof.
  intros H. destruct (lt b a) eqn:E; [|reflexivity].
  pose proof (lt_trans _ _ _ H E) as F. now rewrite lt_irrefl in F.
Qed.

Lemma le_lt_or_eq a b : le a b = true <-> lt a b = true \/ a = b.
Proof.
  unfold le, lt, String.leb, String.ltb.
  destruct (String.compare a b) eqn:E.
  - apply String.compare_eq_iff in E. intuition.
  - intuition.
  - split; [discriminate|]. intros [H|H]; [discriminate|].
    subst. assert (F : String.compare b b = Eq) by (now apply String_as_OT.cmp_eq).
    congruence.
Qed.

Lemma le_false_gt a b : le a b = false <-> gt a b = true.
Proof.
  unfold le, gt, String.leb, String.ltb.
  rewrite (String.compare_antisym b a).
  destruct (String.compare a b); simpl; intuition congruence.
Qed.

Lemma gt_lt a b : gt a b = lt b a.
Proof. reflexivity. Qed.


Lemma trichotomy a b : lt a b = true \/ a = b \/ lt b a = true.
Proof.
  destruct (le a b) eqn:E.
  - apply le_lt_or_eq in E. tauto.
  - apply le_false_gt in E. rewrite gt_lt in E. tauto.
Qed.

(** A stream of keys is strictly ascending. *)
Definition ascending (ks : list string) : Prop :=
  StronglySorted (fun a b => lt a b = true) ks.

End Keys.

(** ** Data model *)

(** [int64] arithmetic wraps around. *)
Definition wrap64 (z : Z) : Z := (z + 2^63) mod 2^64 - 2^63.

Definition min_int64 : Z := - 2^63.
Definition max_int64 : Z := 2^63 - 1.

Lemma wrap64_small z : min_int64 <= z <= max_int64 -> wrap64 z = z.
Proof.
  unfold wrap64, min_int64, max_int64. intros H.
  rewrite Z.mod_small; lia.
Qed.

(** The constants of sync.go. *)
Definition maxResults : Z := 1000.
Definition defaultPartSize : Z := Z.shiftl 5 20.
Definition bufferSize : Z := Z.shiftl 32 10.
Definition maxBlock : Z := defaultPartSize * 2.
Definition markDeleteSrc : Z := -1.
Definition markDeleteDst : Z := -2.
Definition markCopyPerms : Z := -3.
Definition markChecksum : Z := -4.

(** An object descriptor as a listing returns it ([object.Object], with the
    POSIX attributes of [object.File]).  [Mtime] is a [time.Time] in
    nanoseconds since the epoch. *)
Record Obj : Type := mkObj {
  Key : string;
  Size : Z;
  Mtime : Z;
  IsDir : bool;
  IsSymlink : bool;
  Mode : Z;
  Owner : string;
  Group : string
}.

(** time.Time.Unix(): whole seconds since the epoch. *)
Definition Unix (t : Z) : Z := t / 1000000000.

(** What travels on the task channel: a descriptor, or a descriptor wrapped
    by [withSize] ([objWithSize] / [fileWithSize]), whose [Size()] is the
    marker and which keeps the original descriptor inside. *)
Inductive Object : Type :=
| Plain (o : Obj)
| Sized (o : Obj) (nsize : Z).

Definition withSize (o : Obj) (nsize : Z) : Object := Sized o nsize.

Definition withoutSize (t : Object) : Obj :=
  match t with
  | Plain o => o
  | Sized o _ => o
  end.

Definition ObjectSize (t : Object) : Z :=
  match t with
  | Plain o => Size o
  | Sized _ n => n
  end.

Definition ObjectKey (t : Object) : string := Key (withoutSize t).

(** An include / exclude rule. *)
Record rule : Type := mkRule { pattern : string; include : bool }.

(** The fields of [Config] that the engine reads. [Limit] is the only one
    it writes. *)
Record Config : Type := mkConfig {
  Start : string;
  End : string;
  Update : bool;
  ForceUpdate : bool;
  Perms : bool;
  Dry : bool;
  DeleteSrc : bool;
  DeleteDst : bool;
  Dirs : bool;
  Existing : bool;
  IgnoreExisting : bool;
  Links : bool;
  Limit : Z;
  CheckAll : bool;
  CheckNew : bool;
  CheckChange : bool;
  ListThreads : Z;
  ListDepth : Z;
  Manager : string;
  rules : list rule
}.

Definition set_Limit (c : Config) (l : Z) : Config :=
  mkConfig (Start c) (End c) (Update c) (ForceUpdate c) (Perms c) (Dry c)
           (DeleteSrc c) (DeleteDst c) (Dirs c) (Existing c) (IgnoreExisting c)
           (Links c) l (CheckAll c) (CheckNew c) (CheckChange c)
           (ListThreads c) (ListDepth c) (Manager c) (rules c).

(** config.Limit-- *)
Definition dec_Limit (c : Config) : Config := set_Limit c (wrap64 (Limit c - 1)).

(** ** The diff merger: [handleExtraObject] and [produce] *)

Module Merger.

(** The effects of the merger, in program order. *)
Inductive event : Type :=
| EvTotal                  (* incrTotal(1) *)
| EvTask (t : Object)      (* tasks <- t *)
| EvSkip (o : Obj)         (* skipIt(obj) *)
| EvSrcDelay (k : string)  (* srcDelayDel = append(srcDelayDel, k) *)
| EvDstDelay (k : string)  (* dstDelayDel = append(dstDelayDel, k) *)
| EvExtra (o : Obj).       (* extra.Increment(); extraBytes.IncrInt64(size) *)

Inductive result : Type :=
| RetNil
| RetErr (msg : string).

Definition listing_failed : string :=
  "listing failed, stop syncing, waiting for pending ones".

Definition needCopyPerms (o1 o2 : Obj) : bool :=
  negb (Mode o2 =? Mode o1) || negb (String.eqb (Owner o2) (Owner o1))
  || negb (String.eqb (Group o2) (Group o1)).

Definition handleExtraObject (config : Config) (dstobj : Obj)
  : bool * Config * list event :=
  if negb (DeleteDst config) || (negb (Dirs config) && IsDir dstobj)
     || (Limit config =? 0)
  then (false, config, [EvTotal; EvExtra dstobj])
  else
    let config' := dec_Limit config in
    let ev := if IsDir dstobj then EvDstDelay (Key dstobj)
              else EvTask (withSize dstobj markDeleteDst) in
    (Limit config' =? 0, config', [EvTotal; ev]).

(** The decision of [produce] for [obj] against the buffered [dstobj]:
    the events, and whether [dstobj] is consumed ([dstobj = nil]). *)
Definition decide (config : Config) (obj : Obj) (dstobj : option Obj)
  : list event * option Obj :=
  match dstobj with
  | None =>
      if Existing config then ([EvSkip obj], dstobj)
      else ([EvTask (Plain obj)], dstobj)
  | Some d =>
      if Keys.lt (Key obj) (Key d) then
        if Existing config then ([EvSkip obj], dstobj)
        else ([EvTask (Plain obj)], dstobj)
      else if IgnoreExisting config then ([EvSkip obj], None)
      else if ForceUpdate config
              || (Update config && (Unix (Mtime obj) >? Unix (Mtime d)))
              || (negb (Update config) && negb (Size obj =? Size d))
      then ([EvTask (Plain obj)], None)
      else if Update config && (Unix (Mtime obj) <? Unix (Mtime d))
      then ([EvSkip obj], None)
      else if CheckAll config
      then ([EvTask (withSize obj markChecksum)], None)
      else if DeleteSrc config then
        if IsDir obj then ([EvSrcDelay (Key obj)], None)
        else ([EvTask (withSize obj markDeleteSrc)], None)
      else if Perms config && needCopyPerms obj d
      then ([EvTask (withSize obj markCopyPerms)], None)
      else ([EvSkip obj], None)
  end.

(** The inner loop [for dstobj = range dstkeys]: either [produce] returns,
    or the loop ends with a buffered [dstobj] and the rest of the stream. *)
Inductive scan : Type :=
| ScanRet (r : result)
| ScanGo (dstobj : option Obj) (rest : list (option Obj)).

Fixpoint advance (config : Config) (obj : Obj) (dstkeys : list (option Obj))
  : scan * Config * list event :=
  match dstkeys with
  | [] => (ScanGo None [], config, [])
  | None :: _ => (ScanRet (RetErr listing_failed), config, [])
  | Some d :: rest =>
      if Keys.le (Key obj) (Key d) then (ScanGo (Some d) rest, config, [])
      else
        let '(stop, config', ev) := handleExtraObject config d in
        if stop then (ScanRet RetNil, config', ev)
        else
          let '(s, config'', ev') := advance config' obj rest in
          (s, config'', ev ++ ev')
  end.

(** The loop after the source is exhausted. *)
Fixpoint drain (config : Config) (dstkeys : list (option Obj))
  : result * Config * list event :=
  match dstkeys with
  | [] => (RetNil, config, [])
  | None :: _ => (RetErr listing_failed, config, [])
  | Some d :: rest =>
      let '(stop, config', ev) := handleExtraObject config d in
      if stop then (RetNil, config', ev)
      else
        let '(r, config'', ev') := drain config' rest in
        (r, config'', ev ++ ev')
  end.

Definition finish (config : Config) (dstobj : option Obj)
  (dstkeys : list (option Obj)) : result * Config * list event :=
  if DeleteDst config then
    match dstobj with
    | Some d =>
        let '(stop, config', ev) := handleExtraObject config d in
        if stop then (RetNil, config', ev)
        else
          let '(r, config'', ev') := drain config' dstkeys in
          (r, config'', ev ++ ev')
    | None => drain config dstkeys
    end
  else (RetNil, config, []).

(** The main loop of [produce], over the filtered streams. *)
Fixpoint merge (config : Config) (dstobj : option Obj)
  (dstkeys srckeys : list (option Obj)) : result * Config * list event :=
  match srckeys with
  | [] => finish config dstobj dstkeys
  | None :: _ => (RetErr listing_failed, config, [])
  | Some obj :: srckeys' =>
      if negb (Dirs config) && IsDir obj then merge config dstobj dstkeys srckeys'
      else if (Limit config >=? 0) && (Limit config =? 0) then (RetNil, config, [])
      else
        let config1 := if Limit config >=? 0 then dec_Limit config else config in
        (* if dstobj != nil && obj.Key() > dstobj.Key() *)
        let '(s1, config2, ev1) :=
          match dstobj with
          | Some d =>
              if Keys.gt (Key obj) (Key d) then
                let '(stop, c, ev) := handleExtraObject config1 d in
                if stop then (ScanRet RetNil, c, ev)
                else (ScanGo None dstkeys, c, ev)
              else (ScanGo dstobj dstkeys, config1, [])
          | None => (ScanGo None dstkeys, config1, [])
          end in
        match s1 with
        | ScanRet r => (r, config2, EvTotal :: ev1)
        | ScanGo dstobj1 dstkeys1 =>
            (* if dstobj == nil { for dstobj = range dstkeys ... } *)
            let '(s2, config3, ev2) :=
              match dstobj1 with
              | None => advance config2 obj dstkeys1
              | Some _ => (ScanGo dstobj1 dstkeys1, config2, [])
              end in
            match s2 with
            | ScanRet r => (r, config3, EvTotal :: ev1 ++ ev2)
            | ScanGo dstobj2 dstkeys2 =>
                let '(ev3, dstobj3) := decide config3 obj dstobj2 in
                let '(r, config4, ev4) := merge config3 dstobj3 dstkeys2 srckeys' in
                (r, config4, EvTotal :: ev1 ++ ev2 ++ ev3 ++ ev4)
            end
        end
  end.

(** [filter]: forwards the descriptors that [filterKey] keeps; a [nil]
    descriptor is forwarded and ends the stream. The rule engine behind
    [filterKey] is the argument [keep]. *)
Fixpoint filter (keep : Obj -> bool) (keys : list (option Obj)) : list (option Obj) :=
  match keys with
  | [] => []
  | None :: _ => [None]
  | Some o :: rest => if keep o then Some o :: filter keep rest else filter keep rest
  end.

Definition produce (keep : Obj -> bool) (config : Config)
  (srckeys dstkeys : list (option Obj)) : result * Config * list event :=
  merge config None (filter keep dstkeys) (filter keep srckeys).

End Merger.

(** ** The merger on unbounded runs: a reference merge *)

Module MergerFacts.
Import Merger.

(** [c'] is [c] with another [Limit]. *)
Definition same_flags (c c' : Config) : Prop := c' = set_Limit c (Limit c').

Lemma same_flags_refl c : same_flags c c.
Proof. destruct c; reflexivity. Qed.

Lemma same_flags_trans a b c : same_flags a b -> same_flags b c -> same_flags a c.
Proof.
  unfold same_flags. intros H1 H2. rewrite H2 at 1. rewrite H1 at 1.
  reflexivity.
Qed.

Lemma same_flags_dec c : same_flags c (dec_Limit c).
Proof. reflexivity. Qed.










(** The destination descriptors below [k], and the rest. *)
Fixpoint span_lt (k : string) (L : list Obj) : list Obj * list Obj :=
  match L with
  | [] => ([], [])
  | d :: r =>
      if Keys.le k (Key d) then ([], L)
      else let (l, g) := span_lt k r in (d :: l, g)
  end.









Lemma span_lt_length k L :
  (List.length (snd (span_lt k L)) <= List.length L)%nat.
Proof.
  induction L as [|d L IH]; simpl; [lia|].
  destruct (Keys.le k (Key d)); simpl; [lia|].
  destruct (span_lt k L); simpl in *. lia.
Qed.


End MergerFacts.

(** ** The decision table and the per-key reading of a run *)

Module MergerSpec.
Import Merger MergerFacts.

(** The decisions the table of the merger can take for a source key. *)
Inductive decision : Type :=
| Copy
| Skip
| MarkChecksum
| MarkDeleteSrc
| DeferDeleteSrc
| MarkCopyPerms.

(** The decision table, row by row; [dst] is the destination descriptor
    with the key of [obj], if there is one. *)
Definition decision_table (c : Config) (obj : Obj) (dst : option Obj) : decision :=
  match dst with
  | None => if Existing c then Skip else Copy
  | Some d =>
      if IgnoreExisting c then Skip
      else if ForceUpdate c
              || (Update c && (Unix (Mtime obj) >? Unix (Mtime d)))
              || (negb (Update c) && negb (Size obj =? Size d))
      then Copy
      else if Update c && (Unix (Mtime obj) <? Unix (Mtime d)) then Skip
      else if CheckAll c then MarkChecksum
      else if DeleteSrc c then (if IsDir obj then DeferDeleteSrc else MarkDeleteSrc)
      else if Perms c && needCopyPerms obj d then MarkCopyPerms
      else Skip
  end.

Definition decision_event (obj : Obj) (dc : decision) : event :=
  match dc with
  | Copy => EvTask (Plain obj)
  | Skip => EvSkip obj
  | MarkChecksum => EvTask (withSize obj markChecksum)
  | MarkDeleteSrc => EvTask (withSize obj markDeleteSrc)
  | DeferDeleteSrc => EvSrcDelay (Key obj)
  | MarkCopyPerms => EvTask (withSize obj markCopyPerms)
  end.


Definition is_dst_event (e : event) : bool :=
  match e with
  | EvTask (Sized _ n) => n =? markDeleteDst
  | EvDstDelay _ => true
  | EvExtra _ => true
  | _ => false
  end.







Lemma decision_event_dst obj dc : is_dst_event (decision_event obj dc) = false.
Proof. destruct dc; reflexivity. Qed.





(** *** Facts on [span_lt] over an ascending stream *)







(** *** Looking a key up in an ascending stream *)






Lemma below_trans k k' (l : list Obj) :
  Keys.lt k k' = true ->
  Forall (fun d => Keys.lt (Key d) k = true) l ->
  Forall (fun d => Keys.lt (Key d) k' = true) l.
Proof.
  intros H. apply Forall_impl. intros d Hd. eapply Keys.lt_trans; eauto.
Qed.






(** *** The source side of a run *)


(** *** The destination side of a run *)









(** *** [filter] on streams without a failure sentinel *)

Lemma filter_Some keep S :
  Merger.filter keep (map Some S) = map Some (List.filter keep S).
Proof.
  induction S as [|o S IH]; simpl; [reflexivity|].
  destruct (keep o); simpl; now rewrite IH.
Qed.




End MergerSpec.

(** ** The merger: decisions per source key and extra destination keys *)

Module MergerClaims.
Import Merger MergerFacts MergerSpec.

Definition keep_all (o : Obj) : bool := true.

Definition file (k : string) (size mtime : Z) : Obj :=
  mkObj k size mtime false false 420 "root" "root".

Definition dir (k : string) : Obj :=
  mkObj k 0 0 true false 493 "root" "root".

(** The default configuration: no policy flag set, directories not
    synchronised, no limit. *)
Definition default_config : Config :=
  mkConfig "" "" false false false false false false false false false false
           (-1) false false false 1 1 "" [].

Definition with_limit (c : Config) (l : Z) : Config := set_Limit c l.













End MergerClaims.

(** ** Errors *)

Module Errors.

(** A Go [error] value that is not nil. [Errorf] is a fresh error made by
    [errors.New] or by [fmt.Errorf] with [%s] verbs: it wraps nothing.
    [Wrapped] is an error of a store that unwraps to [inner]. *)
Inductive error : Type :=
| ErrSkipped                            (* utils.ErrSkipped *)
| ErrExtlink                            (* utils.ErrExtlink *)
| ErrNotExist                           (* os.ErrNotExist *)
| ErrEOF                                (* io.EOF *)
| ErrUnexpectedEOF                      (* io.ErrUnexpectedEOF *)
| Errno (eno : Z)                       (* syscall.Errno *)
| Errorf (msg : string)
| Wrapped (msg : string) (inner : error)
| Panic (msg : string).                 (* a run-time panic, carried as a result *)

(** The errno values the engine names (Linux). *)
Definition EINTR : Z := 4.
Definition EIO : Z := 5.
Definition EAGAIN : Z := 11.
Definition EBUSY : Z := 16.
Definition ENOTSUP : Z := 95.
Definition ETIMEDOUT : Z := 110.

(** errors.Is(err, utils.ErrSkipped) and errors.Is(err, utils.ErrExtlink):
    the chain of [err] holds the sentinel. *)
Fixpoint is_skipped (e : error) : bool :=
  match e with
  | ErrSkipped => true
  | Wrapped _ inner => is_skipped inner
  | _ => false
  end.

Fixpoint is_extlink (e : error) : bool :=
  match e with
  | ErrExtlink => true
  | Wrapped _ inner => is_extlink inner
  | _ => false
  end.

(** errors.As(err, &eno) with [eno] a [syscall.Errno]: the first errno of
    the chain. *)
Fixpoint as_errno (e : error) : option Z :=
  match e with
  | Errno n => Some n
  | Wrapped _ inner => as_errno inner
  | _ => None
  end.

(** errors.Is(err, utils.ENOTSUP) *)
Definition is_ENOTSUP (e : error) : bool :=
  match as_errno e with
  | Some n => n =? ENOTSUP
  | None => false
  end.

Definition ENOENT : Z := 2.

(** os.IsNotExist(err), also errors.Is(err, os.ErrNotExist) *)
Fixpoint is_not_exist (e : error) : bool :=
  match e with
  | ErrNotExist => true
  | Errno n => n =? ENOENT
  | Wrapped _ inner => is_not_exist inner
  | _ => false
  end.

(** err.Error(). The text of an errno is the platform's [strerror]; the
    embedding prints the number. *)
Definition ErrorText (e : error) : string :=
  match e with
  | ErrSkipped => "skipped"
  | ErrExtlink => "external link"
  | ErrNotExist => "file does not exist"
  | ErrEOF => "EOF"
  | ErrUnexpectedEOF => "unexpected EOF"
  | Panic msg => msg
  | Errno n => "errno " ++ NilZero.string_of_int (Z.to_int n)
  | Errorf msg => msg
  | Wrapped msg _ => msg
  end.

Definition shouldRetry (err : option error) : bool :=
  match err with
  | None => false
  | Some e =>
      if is_skipped e || is_extlink e then false
      else
        match as_errno e with
        | Some eno =>
            if (eno =? EAGAIN) || (eno =? EINTR) || (eno =? EBUSY)
               || (eno =? ETIMEDOUT) || (eno =? EIO)
            then true else false
        | None => true
        end
  end.

End Errors.

(** ** Programs over the object stores *)

Module Prog.
Import Errors.

(** What an [io.Reader] yields: the byte slices that successive [Read]
    calls return, then the error [final] ([io.EOF] at the end of the
    data). *)
Record Reader : Type := mkReader {
  chunks : list (list Byte.byte);
  final : error
}.

(** object.MultipartUpload, object.Part and object.Limits *)
Record MultipartUpload : Type := mkUpload {
  MinPartSize : Z;
  MaxCount : Z;
  UploadID : string
}.

Record Part : Type := mkPart {
  Num : Z;
  PartSize : Z;
  ETag : string
}.

Record Limits : Type := mkLimits {
  IsSupportMultipartUpload : bool;
  IsSupportUploadPartCopy : bool;
  LimitMinPartSize : Z;
  MaxPartSize : Z;
  MaxPartCount : Z
}.

Inductive side : Type := Src | Dst.

(** A page of [ObjectStorage.List]: objs, hasMore, nextToken, err. *)
Record Page : Type := mkPage {
  objs : list Obj;
  hasMore : bool;
  nextToken : string;
  pageErr : option error
}.

(** The calls the engine makes on its environment, indexed by what the
    environment answers. [Put] answers with the sizes of the buffers the
    store passed to [Read] and its error; [Aborted] is the [select] on the
    abort channel of a group of parts, answered [true] when the abort case
    is taken. [ParallelDownload] is [newParallelDownloader], [CreateTemp],
    [WriteTemp] and [SeekTemp] are the temporary file of [doCopySingle],
    [Incr] adds to one of the progress counters. *)
Inductive op : Type -> Type :=
| Head (s : side) (key : string) : op (error + Obj)
| Get (s : side) (key : string) (off len : Z) : op (error + Reader)
| Put (s : side) (key : string) (r : Reader) : op (list nat * option error)
| Delete (s : side) (key : string) : op (option error)
| List (s : side) (prefix marker token delimiter : string) (max : Z)
       (followLink : bool) : op Page
| StoreListAll (s : side) (prefix marker : string) (followLink : bool)
  : op (error + list (option Obj))
| ListAllWithDelimiter (s : side) (prefix start end_ : string) (followLink : bool)
  : op (error + list (option Obj))
| GetLimits (s : side) : op Limits
| CreateMultipartUpload (s : side) (key : string) : op (error + MultipartUpload)
| UploadPart (s : side) (key uploadID : string) (num : Z) (data : list Byte.byte)
  : op (error + Part)
| UploadPartCopy (s : side) (key uploadID : string) (num : Z) (srcKey : string)
                 (off size : Z) : op (error + Part)
| CompleteUpload (s : side) (key uploadID : string) (parts : list (option Part))
  : op (option error)
| AbortUpload (s : side) (key uploadID : string) : op unit
| IsFileSystem (s : side) : op bool
| StoreString (s : side) : op string
| ParallelDownload (key : string) (size : Z) : op Reader
| CreateTemp : op (option error)
| WriteTemp (data : list Byte.byte) : op (option error)
| SeekTemp : op (option error)
| Sleep (nanoseconds : Z) : op unit
| Incr (counter : string) (n : Z) : op unit
| Aborted : op bool.

(** A program: a finite tree of calls. *)
Inductive prog (A : Type) : Type :=
| Ret (a : A)
| Vis {X : Type} (o : op X) (k : X -> prog A).

Arguments Ret {A} a.
Arguments Vis {A X} o k.

Fixpoint bind {A B : Type} (p : prog A) (f : A -> prog B) : prog B :=
  match p with
  | Ret a => f a
  | Vis o k => Vis o (fun x => bind (k x) f)
  end.

Definition call {X : Type} (o : op X) : prog X := Vis o Ret.

Declare Scope prog_scope.
Delimit Scope prog_scope with prog.
Notation "x <- p ;; q" := (bind p (fun x => q))
  (at level 100, p at next level, right associativity) : prog_scope.
Notation "' pat <- p ;; q" := (bind p (fun x => match x with pat => q end))
  (at level 100, pat pattern, p at next level, right associativity) : prog_scope.

(** A call with its answer, and the runs of a program: the calls it makes
    in order, for the answers the environment gives, and its result. *)
Inductive event : Type :=
| Ev {X : Type} (o : op X) (x : X).

Fixpoint runs {A : Type} (p : prog A) (tr : list event) (a : A) : Prop :=
  match p with
  | Ret a' => tr = [] /\ a = a'
  | Vis o k => exists x tr', tr = Ev o x :: tr' /\ runs (k x) tr' a
  end.

Lemma runs_ret {A} (a b : A) tr : runs (Ret a) tr b <-> tr = [] /\ b = a.
Proof. reflexivity. Qed.

Lemma runs_call {X} (o : op X) tr x : runs (call o) tr x <-> tr = [Ev o x].
Proof.
  unfold call. simpl. split.
  - intros (y & tr' & -> & -> & ->). reflexivity.
  - intros ->. exists x, []. auto.
Qed.

Lemma runs_bind {A B} (p : prog A) (f : A -> prog B) tr b :
  runs (bind p f) tr b <->
  exists tr1 a tr2, runs p tr1 a /\ runs (f a) tr2 b /\ tr = tr1 ++ tr2.
Proof.
  revert tr. induction p as [a|X o k IH]; intros tr; simpl.
  - split.
    + intros H. exists [], a, tr. auto.
    + intros (tr1 & a' & tr2 & [-> ->] & H & ->). exact H.
  - split.
    + intros (x & tr' & -> & H). apply IH in H.
      destruct H as (tr1 & a & tr2 & H1 & H2 & ->).
      exists (Ev o x :: tr1), a, tr2. split; [|auto]. exists x, tr1. auto.
    + intros (tr1 & a & tr2 & (x & tr' & -> & H1) & H2 & ->).
      exists x, (tr' ++ tr2). split; [reflexivity|]. apply IH.
      exists tr', a, tr2. auto.
Qed.

End Prog.

(** ** The retry policy: [shouldRetry] and [try] *)

Module Retry.
Import Errors Prog.
Local Open Scope prog_scope.

Definition Second : Z := 1000000000.

(** time.Second * time.Duration(i*i), in nanoseconds *)
Definition backoff (i : Z) : Z := wrap64 (Second * wrap64 (i * i)).

(** [try(n, f)]. The closure [f] may assign variables it captures: [V] is
    their type, [f] takes their values and returns the new ones with its
    error. *)
Fixpoint try_loop {V : Type} (k : nat) (i : Z) (f : V -> prog (V * option error))
  (v : V) (err : option error) : prog (V * option error) :=
  match k with
  | O => Ret (v, err)
  | S k' =>
      r <- f v ;;
      if negb (shouldRetry (snd r)) then Ret r
      else
        _ <- call (Sleep (backoff i)) ;;
        try_loop k' (i + 1) f (fst r) (snd r)
  end.

Definition try {V : Type} (n : Z) (f : V -> prog (V * option error)) (v : V)
  : prog (V * option error) :=
  try_loop (Z.to_nat n) 0 f v None.

(** Consecutive calls of [f]: each is a run of [f] on the variables the
    call before it left, with its trace and its result. *)
Inductive attempts {V : Type} (f : V -> prog (V * option error))
  : V -> list (list event * (V * option error)) -> Prop :=
| attempts_nil v : attempts f v []
| attempts_cons v tr r rest :
    runs (f v) tr r -> attempts f (fst r) rest ->
    attempts f v ((tr, r) :: rest).

Definition retryable {V : Type} (a : list event * (V * option error)) : bool :=
  shouldRetry (snd (snd a)).

(** The trace of a [try]: every call of [f] whose result is retryable is
    followed by the sleep of its index. *)
Fixpoint trace_from {V : Type} (i : Z) (atts : list (list event * (V * option error)))
  : list event :=
  match atts with
  | [] => []
  | a :: rest =>
      fst a ++ (if retryable a then [Ev (Sleep (backoff i)) tt] else [])
        ++ trace_from (i + 1) rest
  end.

Lemma last_nonempty {A : Type} (a : A) l d d' : last (a :: l) d = last (a :: l) d'.
Proof.
  revert a. induction l as [|b l IH]; intros a; [reflexivity|].
  change (last (b :: l) d = last (b :: l) d'). apply IH.
Qed.

Lemma try_loop_attempts {V : Type} (f : V -> prog (V * option error)) :
  forall k i v err0 tr res,
    runs (try_loop k i f v err0) tr res ->
    exists atts,
      attempts f v atts
      /\ (List.length atts <= k)%nat
      /\ Forall (fun a => retryable a = true) (removelast atts)
      /\ (atts = [] -> k = O)
      /\ (retryable (last atts ([], (v, None))) = false \/ List.length atts = k)
      /\ tr = trace_from i atts
      /\ res = last (map snd atts) (v, err0).
Proof.
  induction k as [|k IH]; intros i v err0 tr res H; simpl in H.
  - destruct H as [-> ->]. exists []. simpl.
    repeat split; auto using attempts_nil.
  - apply runs_bind in H. destruct H as (tr1 & r & tr2 & Hf & H & ->).
    destruct (shouldRetry (snd r)) eqn:E; simpl in H.
    + destruct H as (u & tr3 & -> & H). destruct u.
      apply IH in H.
      destruct H as (atts & Ha & Hlen & Hall & Hnil & Hlast & -> & ->).
      exists ((tr1, r) :: atts). simpl. unfold retryable at 3. simpl. rewrite E.
      split; [now constructor|]. split; [lia|].
      split.
      { destruct atts; [constructor|]. constructor; [exact E|exact Hall]. }
      split; [discriminate|].
      split.
      { destruct atts as [|a atts].
        - right. simpl. now rewrite Hnil.
        - destruct Hlast as [Hlast|Hlast]; [left|right; simpl in *; lia].
          rewrite <- Hlast. f_equal. apply last_nonempty. }
      split; [reflexivity|].
      destruct atts as [|a atts]; simpl.
      * specialize (Hnil eq_refl). subst k. now destruct r.
      * apply (last_nonempty (snd a) (map snd atts)).
    + destruct H as [-> ->]. exists [(tr1, r)]. simpl. unfold retryable. simpl.
      rewrite E.
      split; [constructor; [exact Hf|constructor]|].
      split; [lia|]. split; [constructor|]. split; [discriminate|].
      split; [now left|]. split; [|reflexivity].
      simpl. now rewrite app_nil_r.
Qed.

End Retry.

(** ** Part sizes: [choosePartSize] *)

Module PartSize.
Import Prog.

(** [choosePartSize]. The [int64] operations wrap; [/] is Go's truncated
    division ([upload.MaxCount = 0] with a positive [size] is a run-time
    panic in Go, the embedding is read for [MaxCount >= 1]). *)
Definition choosePartSize (upload : MultipartUpload) (size : Z) : Z :=
  let partSize := MinPartSize upload in
  let partSize := if partSize =? 0 then defaultPartSize else partSize in
  if size >? wrap64 (partSize * MaxCount upload) then
    let partSize := Z.quot size (MaxCount upload) in
    wrap64 (Z.shiftl (wrap64 (Z.shiftr (wrap64 (partSize - 1)) 20 + 1)) 20)
  else partSize.

(** n := int((size-1)/partSize) + 1, the number of parts. *)
Definition partCount (size partSize : Z) : Z :=
  wrap64 (Z.quot (wrap64 (size - 1)) partSize + 1).

(** The part size as the specification computes it:
    max(MinPartSize, ceil(size / MaxCount) rounded up to a MiB). *)
Definition MiB : Z := 1048576.

Definition ceil_div (a b : Z) : Z := (a + b - 1) / b.

Definition spec_part_size (upload : MultipartUpload) (size : Z) : Z :=
  let minPartSize := if MinPartSize upload =? 0 then defaultPartSize
                     else MinPartSize upload in
  Z.max minPartSize (ceil_div (ceil_div size (MaxCount upload)) MiB * MiB).

(** An upload of S3: parts of at least 5 MiB, at most 10000 of them. *)
Definition s3_upload : MultipartUpload := mkUpload 5242880 10000 "upload-1".

(** C6. At [size = 10000 * 6 MiB + 1] the part size of the specification is
    7 MiB, and that many bytes fit in 10000 parts; [choosePartSize] divides
    rounding down before it aligns and answers 6 MiB, so that 10000 parts
    fall one byte short and the copy is cut into 10001 parts. *)
Theorem choosePartSize_exceeds_MaxCount :
  let size := 62914560001 in
  1 <= size /\ 1 <= MaxCount s3_upload
  /\ spec_part_size s3_upload size = 7340032
  /\ size <= spec_part_size s3_upload size * MaxCount s3_upload
  /\ choosePartSize s3_upload size = 6291456
  /\ choosePartSize s3_upload size * MaxCount s3_upload < size
  /\ partCount size (choosePartSize s3_upload size) = 10001.
Proof. vm_compute. repeat split; congruence. Qed.


End PartSize.

(** ** CRC32C and its combine *)

Module Crc32c.

(** crc32.Castagnoli, the reversed polynomial. *)
Definition Castagnoli : Z := 0x82f63b78.

Definition mask32 : Z := 0xffffffff.

(** The value of a byte. *)
Definition byte_val (b : Byte.byte) : Z := Z.of_N (Byte.to_N b).

(** Modelled from the spec: hash/crc32 of the Go standard library is not
    part of the sources; this is its table-driven [simpleUpdate] over the
    table of [simplePopulateTable], which every implementation of
    [crc32.Update] agrees with. One step shifts one bit out. *)
Definition step (poly crc : Z) : Z :=
  if Z.testbit crc 0 then Z.lxor (Z.shiftr crc 1) poly else Z.shiftr crc 1.

Definition steps (n : nat) (poly crc : Z) : Z := Nat.iter n (step poly) crc.

(** crc32.MakeTable(poly)[i] *)
Definition table (poly i : Z) : Z := steps 8 poly i.

(** crc = tab[byte(crc)^v] ^ (crc >> 8) *)
Definition update_byte (poly crc : Z) (v : Byte.byte) : Z :=
  Z.lxor (table poly (Z.lxor (Z.land crc 255) (byte_val v))) (Z.shiftr crc 8).

Definition raw (poly crc : Z) (p : list Byte.byte) : Z :=
  fold_left (update_byte poly) p crc.

(** crc32.Update(crc, tab, p): [^crc], the bytes, [^crc] again. *)
Definition Update (poly crc : Z) (p : list Byte.byte) : Z :=
  Z.lxor (raw poly (Z.lxor crc mask32) p) mask32.

(** crc32.Checksum(p, tab) *)
Definition Checksum (poly : Z) (p : list Byte.byte) : Z := Update poly 0 p.

(** The operator of [n] zero bytes on a CRC register. *)
Definition zero_bytes (poly : Z) (n : nat) (crc : Z) : Z :=
  Nat.iter n (steps 8 poly) crc.

(** Modelled from the spec: crc32combine.CRC32Combine of
    github.com/vimeo/go-util is not part of the sources. The glossary
    gives it as the operation that produces the CRC of [A || B] from
    CRC(A), CRC(B) and the length of [B]: CRC(A) advanced over [len2] zero
    bytes, xor CRC(B); a length that is not positive returns [crc1]. *)
Definition CRC32Combine (poly crc1 crc2 len2 : Z) : Z :=
  if len2 <=? 0 then crc1
  else Z.lxor (zero_bytes poly (Z.to_nat len2) crc1) crc2.

(** *** The register is linear over xor *)

Ltac xor_bits :=
  apply Z.bits_inj'; intros; rewrite ?Z.lxor_spec;
  repeat match goal with
         | |- context [Z.testbit ?a ?n] => destruct (Z.testbit a n)
         end; reflexivity.

Lemma lxor_cancel_r a b p : Z.lxor (Z.lxor a p) (Z.lxor b p) = Z.lxor a b.
Proof. xor_bits. Qed.

Lemma lxor_swap a b c : Z.lxor (Z.lxor a b) c = Z.lxor (Z.lxor a c) b.
Proof. xor_bits. Qed.

Lemma lxor_invol a m : Z.lxor (Z.lxor a m) m = a.
Proof. xor_bits. Qed.

Lemma step_lxor poly a b :
  step poly (Z.lxor a b) = Z.lxor (step poly a) (step poly b).
Proof.
  unfold step. rewrite Z.lxor_spec, Z.shiftr_lxor.
  destruct (Z.testbit a 0), (Z.testbit b 0); simpl.
  - now rewrite lxor_cancel_r.
  - apply lxor_swap.
  - now rewrite Z.lxor_assoc.
  - reflexivity.
Qed.

Lemma steps_lxor n poly a b :
  steps n poly (Z.lxor a b) = Z.lxor (steps n poly a) (steps n poly b).
Proof.
  unfold steps. induction n as [|n IH]; simpl; [reflexivity|].
  now rewrite IH, step_lxor.
Qed.

Arguments steps : simpl never.

Lemma zero_bytes_lxor n poly a b :
  zero_bytes poly n (Z.lxor a b) = Z.lxor (zero_bytes poly n a) (zero_bytes poly n b).
Proof.
  unfold zero_bytes. induction n as [|n IH]; simpl; [reflexivity|].
  now rewrite IH, steps_lxor.
Qed.

Lemma step_shiftl poly y k :
  0 <= k -> step poly (Z.shiftl y (Z.succ k)) = Z.shiftl y k.
Proof.
  intros Hk. unfold step.
  rewrite Z.shiftl_spec_low by lia.
  rewrite Z.shiftr_shiftl_l by lia. f_equal. lia.
Qed.

Lemma steps_shiftl_gen poly y n : forall k,
  0 <= k -> steps n poly (Z.shiftl y (k + Z.of_nat n)) = Z.shiftl y k.
Proof.
  unfold steps. induction n as [|n IH]; intros k Hk.
  - simpl. f_equal. lia.
  - rewrite Nat.iter_succ.
    replace (k + Z.of_nat (S n)) with (Z.succ k + Z.of_nat n) by lia.
    rewrite IH by lia. now apply step_shiftl.
Qed.

Lemma steps_shiftl poly y : steps 8 poly (Z.shiftl y 8) = y.
Proof.
  change 8 with (0 + Z.of_nat 8).
  rewrite (steps_shiftl_gen poly y 8 0) by lia. apply Z.shiftl_0_r.
Qed.

Lemma split_low_byte x :
  x = Z.lxor (Z.land x 255) (Z.shiftl (Z.shiftr x 8) 8).
Proof.
  apply Z.bits_inj'. intros n Hn.
  rewrite Z.lxor_spec, Z.land_spec.
  change 255 with (Z.ones 8).
  destruct (Z.ltb_spec n 8) as [L|G].
  - rewrite Z.ones_spec_low by lia.
    rewrite Z.shiftl_spec_low by lia.
    now rewrite andb_true_r, xorb_false_r.
  - rewrite Z.ones_spec_high by lia.
    rewrite Z.shiftl_spec by lia. rewrite Z.shiftr_spec by lia.
    rewrite andb_false_r. simpl. f_equal. lia.
Qed.

(** The table-driven update of a byte is eight steps on [crc ^ v]. *)
Lemma update_byte_steps poly crc v :
  update_byte poly crc v = steps 8 poly (Z.lxor crc (byte_val v)).
Proof.
  unfold update_byte, table.
  transitivity (steps 8 poly (Z.lxor (Z.lxor (Z.land crc 255)
                                          (Z.shiftl (Z.shiftr crc 8) 8))
                                   (byte_val v))).
  - rewrite lxor_swap.
    rewrite (steps_lxor 8 poly (Z.lxor (Z.land crc 255) (byte_val v))
                        (Z.shiftl (Z.shiftr crc 8) 8)).
    now rewrite steps_shiftl.
  - now rewrite <- split_low_byte.
Qed.

Lemma update_byte_lxor poly c d v :
  update_byte poly (Z.lxor c d) v
  = Z.lxor (update_byte poly c v) (steps 8 poly d).
Proof.
  rewrite !update_byte_steps, lxor_swap. apply steps_lxor.
Qed.

Lemma raw_lxor poly p : forall c d,
  raw poly (Z.lxor c d) p
  = Z.lxor (raw poly c p) (zero_bytes poly (List.length p) d).
Proof.
  unfold raw. induction p as [|v p IH]; intros c d; simpl; [reflexivity|].
  rewrite update_byte_lxor, IH. f_equal.
  unfold zero_bytes. simpl.
  clear. induction (List.length p) as [|n IHn]; simpl; [reflexivity|].
  now rewrite IHn.
Qed.

Lemma raw_app poly c a b : raw poly c (a ++ b) = raw poly (raw poly c a) b.
Proof. unfold raw. apply fold_left_app. Qed.

(** *** The running CRC and the combine *)

(** Updating in two calls is updating with the concatenation. *)
Lemma Update_app poly crc a b :
  Update poly (Update poly crc a) b = Update poly crc (a ++ b).
Proof.
  unfold Update. now rewrite lxor_invol, raw_app.
Qed.

Lemma Update_nil poly crc : Update poly crc [] = crc.
Proof. unfold Update. simpl. apply lxor_invol. Qed.

(** CRC32Combine of the CRCs of [a] and [b] with the length of [b] is the
    CRC of [a ++ b]. *)
Lemma CRC32Combine_app poly a b :
  CRC32Combine poly (Checksum poly a) (Checksum poly b) (Z.of_nat (List.length b))
  = Checksum poly (a ++ b).
Proof.
  unfold CRC32Combine, Checksum.
  destruct (Z.leb_spec (Z.of_nat (List.length b)) 0) as [L|G].
  - assert (b = []) by (destruct b; [reflexivity|simpl in L; lia]). subst b.
    now rewrite app_nil_r.
  - rewrite Nat2Z.id, <- Update_app.
    set (A := Update poly 0 a). unfold Update.
    rewrite Z.lxor_0_l, (Z.lxor_comm A mask32), raw_lxor, lxor_swap.
    apply Z.lxor_comm.
Qed.

End Crc32c.

(** ** The copy engine *)

Module Copy.
Import Errors Prog Retry PartSize Crc32c.
Local Open Scope prog_scope.

(** The [%d] verb. *)
Definition dec (z : Z) : string := NilZero.string_of_int (Z.to_int z).

(** strings.Split(s, "://")[0] *)
Definition scheme_of (s : string) : string :=
  match String.index 0 "://" s with
  | Some n => String.substring 0 n s
  | None => s
  end.

(** What is left of [s] after its [n]-th "/", if it has that many. *)
Fixpoint after_slashes (n : nat) (s : string) : option string :=
  match n with
  | O => Some s
  | S n' =>
      match String.index 0 "/" s with
      | Some i => after_slashes n' (String.substring (S i) (String.length s - S i) s)
      | None => None
      end
  end.

Definition fastStreamRead : list string :=
  ["file"; "hdfs"; "jfs"; "gluster"]%string.
Definition streamWrite : list string :=
  ["file"; "hdfs"; "sftp"; "gs"; "wasb"; "ceph"; "swift"; "webdav"; "jfs";
   "gluster"]%string.
Definition readInMem : list string :=
  ["mem"; "etcd"; "redis"; "tikv"; "mysql"; "postgres"; "sqlite3"]%string.

Definition inMap (s : side) (m : list string) : prog bool :=
  name <- call (StoreString s) ;;
  Ret (existsb (String.eqb (scheme_of name)) m).

(** *** [chksumReader] *)

Record chksumReader : Type := mkChksumReader {
  reader : Reader;
  chksum : Z;
  cal : bool
}.

(** Reader.Read(p) with [len(p) = n]: the bytes, the error, the reader
    after the call. *)
Definition Reader_Read (rd : Reader) (n : nat)
  : list Byte.byte * option error * Reader :=
  match chunks rd with
  | [] => ([], Some (final rd), rd)
  | c :: rest =>
      match skipn n c with
      | [] => (firstn n c, None, mkReader rest (final rd))
      | unread => (firstn n c, None, mkReader (unread :: rest) (final rd))
      end
  end.

(** (r *chksumReader).Read(p) *)
Definition chksumReader_Read (r : chksumReader) (n : nat)
  : list Byte.byte * option error * chksumReader :=
  let '(p, err, rd) := Reader_Read (reader r) n in
  (p, err,
   mkChksumReader rd
     (if cal r then Update Castagnoli (chksum r) p else chksum r) (cal r)).

(** io.ReadFull(r, buf) with [len(buf) = need]: [Read] until the buffer is
    full or an error comes. Every [Read] without error ends a chunk or
    fills the buffer, so the chunks of the reader bound the calls. *)
Fixpoint ReadFull_loop (fuel : nat) (r : chksumReader) (need : nat)
  (got : list Byte.byte) : list Byte.byte * option error * chksumReader :=
  match need with
  | O => (got, None, r)
  | S _ =>
      match fuel with
      | O => (got, Some (Panic "io.ReadFull: no progress"), r)
      | S fuel' =>
          let '(p, err, r') := chksumReader_Read r need in
          match err with
          | Some e =>
              (got ++ p,
               Some (match got ++ p, e with
                     | _ :: _, ErrEOF => ErrUnexpectedEOF
                     | _, _ => e
                     end), r')
          | None => ReadFull_loop fuel' r' (need - List.length p) (got ++ p)
          end
      end
  end.

Definition ReadFull (r : chksumReader) (n : nat)
  : list Byte.byte * option error * chksumReader :=
  ReadFull_loop (S (List.length (chunks (reader r)))) r n [].

(** The [Read] calls of a store inside [Put], one per buffer size. *)
Fixpoint Reads (r : chksumReader) (sizes : list nat)
  : list Byte.byte * chksumReader :=
  match sizes with
  | [] => ([], r)
  | n :: rest =>
      let '(p, _, r') := chksumReader_Read r n in
      let '(q, r'') := Reads r' rest in
      (p ++ q, r'')
  end.

(** *** Parts *)

(** [doUploadPart]; the closure of its [try] assigns [part] and [chksum].
    [dynAlloc] panics on a negative size. *)
Definition doUploadPart (srckey : string) (off size : Z) (key uploadID : string)
  (num : Z) (calChksum : bool) : prog (option Part * Z * option error) :=
  if size <? 0 then Ret (None, 0, Some (Panic "dynAlloc"))
  else
    r <- try 3
      (fun v : option Part * Z =>
         got <- call (Get Src srckey off size) ;;
         match got with
         | inl e => Ret (v, Some e)
         | inr rd =>
             let '(data, err, r) :=
               ReadFull (mkChksumReader rd 0 calChksum) (Z.to_nat size) in
             match err with
             | Some e => Ret (v, Some e)
             | None =>
                 (* PartNumber starts from 1 *)
                 up <- call (UploadPart Dst key uploadID (num + 1) data) ;;
                 match up with
                 | inl e => Ret ((None, chksum r), Some e)
                 | inr part => Ret ((Some part, chksum r), None)
                 end
             end
         end) (None, 0) ;;
    match snd r with
    | Some e =>
        Ret (None, 0, Some (Errorf ("part " ++ dec num ++ ": " ++ ErrorText e)))
    | None => Ret (fst (fst r), snd (fst r), None)
    end.

(** What the loop of [doCopyRange] carries: parts, tmpChksum, first. *)
Record range_state : Type := mkRange {
  range_parts : list (option Part);
  tmpChksum : Z;
  first : bool
}.

(** The loop [for i := 0; i < n; i++] of [doCopyRange], from [i] with [k]
    iterations left. *)
Fixpoint copy_range_parts (k : nat) (i n : Z) (key tmpkey : string)
  (off size partSize : Z) (up : MultipartUpload) (calChksum : bool)
  (st : range_state) : prog (range_state * option error) :=
  match k with
  | O => Ret (st, None)
  | S k' =>
      let sz := if i =? n - 1 then size - i * partSize else partSize in
      aborted <- call Aborted ;;
      if aborted then
        _ <- call (AbortUpload Dst tmpkey (UploadID up)) ;;
        Ret (st, Some (Errorf "aborted"))
      else
        r <- doUploadPart key (off + i * partSize) sz tmpkey (UploadID up) i calChksum ;;
        let '(part, chksum, err) := r in
        match err with
        | Some e =>
            _ <- call (AbortUpload Dst tmpkey (UploadID up)) ;;
            Ret (st, Some (Errorf ("range(" ++ dec off ++ "," ++ dec size ++ "): "
                                   ++ ErrorText e)))
        | None =>
            let st' :=
              if calChksum then
                if first st
                then mkRange (range_parts st ++ [part]) chksum false
                else mkRange (range_parts st ++ [part])
                             (CRC32Combine Castagnoli (tmpChksum st) chksum sz)
                             false
              else mkRange (range_parts st ++ [part]) (tmpChksum st) (first st) in
            copy_range_parts k' (i + 1) n key tmpkey off size partSize up calChksum st'
        end
  end.

Definition doCopyRange (key : string) (off size : Z) (upload : MultipartUpload)
  (num : Z) (calChksum : bool) : prog (option Part * Z * option error) :=
  aborted <- call Aborted ;;
  if aborted then Ret (None, 0, Some (Errorf "aborted"))
  else
    limits <- call (GetLimits Dst) ;;
    if (size <=? Z.shiftl 32 20) || negb (IsSupportUploadPartCopy limits) then
      doUploadPart key off size key (UploadID upload) num calChksum
    else
      let tmpkey := (key ++ ".part" ++ dec num)%string in
      c <- try 3
        (fun _ : option MultipartUpload =>
           r <- call (CreateMultipartUpload Dst tmpkey) ;;
           match r with
           | inl e => Ret (None, Some e)
           | inr u => Ret (Some u, None)
           end) None ;;
      match c with
      | (_, Some e) =>
          Ret (None, 0, Some (Errorf ("range(" ++ dec off ++ "," ++ dec size ++ "): "
                                      ++ ErrorText e)))
      | (None, None) =>
          (* not reached: [try] returns a nil error after a call that
             assigned [up] *)
          Ret (None, 0, Some (Panic "nil pointer dereference"))
      | (Some up, None) =>
          let partSize := choosePartSize up size in
          let n := partCount size partSize in
          r <- copy_range_parts (Z.to_nat n) 0 n key tmpkey off size partSize up
                 calChksum (mkRange [] 0 true) ;;
          match r with
          | (_, Some e) => Ret (None, 0, Some e)
          | (st, None) =>
              d <- try 3
                (fun _ : unit =>
                   e <- call (CompleteUpload Dst tmpkey (UploadID up) (range_parts st)) ;;
                   Ret (tt, e)) tt ;;
              match snd d with
              | Some e =>
                  _ <- call (AbortUpload Dst tmpkey (UploadID up)) ;;
                  Ret (None, 0, Some (Errorf ("multipart: " ++ ErrorText e)))
              | None =>
                  p <- try 3
                    (fun _ : option Part =>
                       r <- call (UploadPartCopy Dst key (UploadID upload) (num + 1)
                                                 tmpkey 0 size) ;;
                       match r with
                       | inl e => Ret (None, Some e)
                       | inr part => Ret (Some part, None)
                       end) None ;;
                  _ <- call (Delete Dst tmpkey) ;;
                  Ret (fst p, tmpChksum st, snd p)
              end
          end
      end.

(** *** Whole objects *)

Record chksumWithSz : Type := mkChksumWithSz {
  part_chksum : Z;
  part_size : Z
}.

(** The goroutines of [doCopyMultiple], one per part; the embedding runs
    them one after the other in the order of their numbers. What [abort]
    does to a part is the answer to its [Aborted]. *)
Fixpoint copy_parts (k : nat) (num n : Z) (key : string) (size partSize : Z)
  (upload : MultipartUpload) (calChksum : bool)
  : prog (list (option Part * chksumWithSz * option error)) :=
  match k with
  | O => Ret []
  | S k' =>
      let sz := if num =? n - 1 then size - num * partSize else partSize in
      r <- doCopyRange key (num * partSize) sz upload num calChksum ;;
      rest <- copy_parts k' (num + 1) n key size partSize upload calChksum ;;
      Ret ((fst (fst r), mkChksumWithSz (snd (fst r)) sz, snd r) :: rest)
  end.

(** The loop over [errs]: the first error received, here in the order of
    the part numbers. *)
Fixpoint first_error (errs : list (option error)) : option error :=
  match errs with
  | [] => None
  | Some e :: _ => Some e
  | None :: rest => first_error rest
  end.

(** chksums[0].chksum folded with the later parts; [None] is the
    index-out-of-range panic on no part. *)
Definition combine_chksums (chksums : list chksumWithSz) : option Z :=
  match chksums with
  | [] => None
  | c :: rest =>
      Some (fold_left
              (fun chksum ci => CRC32Combine Castagnoli chksum (part_chksum ci) (part_size ci))
              rest (part_chksum c))
  end.

Definition doCopyMultiple (key : string) (size : Z) (upload : MultipartUpload)
  (calChksum : bool) : prog (Z * option error) :=
  limits <- call (GetLimits Dst) ;;
  if size >? wrap64 (MaxPartSize limits * MaxCount upload) then
    Ret (0, Some (Errorf ("object size " ++ dec size ++ " is too large to copy")))
  else
    let partSize := choosePartSize upload size in
    let n := partCount size partSize in
    results <- copy_parts (Z.to_nat n) 0 n key size partSize upload calChksum ;;
    let parts := map (fun r => fst (fst r)) results in
    let chksums := map (fun r => snd (fst r)) results in
    err <- match first_error (map snd results) with
           | None =>
               d <- try 3
                 (fun _ : unit =>
                    e <- call (CompleteUpload Dst key (UploadID upload) parts) ;;
                    Ret (tt, e)) tt ;;
               Ret (snd d)
           | Some e => Ret (Some e)
           end ;;
    match err with
    | Some e =>
        _ <- call (AbortUpload Dst key (UploadID upload)) ;;
        Ret (0, Some (Errorf ("multipart: " ++ ErrorText e)))
    | None =>
        if calChksum then
          match combine_chksums chksums with
          | Some chksum => Ret (chksum, None)
          | None => Ret (0, Some (Panic "index out of range"))
          end
        else Ret (0, None)
    end.

(** dst.Put(key, r) with [r] a [chksumReader] over [rd]: the store reads,
    the reader keeps the running CRC. *)
Definition put (key : string) (rd : Reader) (calChksum : bool)
  : prog (Z * option error) :=
  a <- call (Put Dst key rd) ;;
  Ret (chksum (snd (Reads (mkChksumReader rd 0 calChksum) (fst a))), snd a).

(** if _, e := src.Head(key); os.IsNotExist(e) { err = utils.ErrSkipped } *)
Definition demote_not_found (key : string) (err : error) : prog error :=
  h <- call (Head Src key) ;;
  match h with
  | inl e => if is_not_exist e then Ret ErrSkipped else Ret err
  | inr _ => Ret err
  end.

(** len(ps) == 4 && ps[3] == "" for ps := strings.SplitN(s, "/", 4) *)
Definition empty_key_unsupported (s : string) : bool :=
  match after_slashes 3 s with
  | Some rest => String.eqb rest ""
  | None => false
  end.

Definition doCopySingle0 (key : string) (size : Z) (calChksum : bool)
  : prog (Z * option error) :=
  if size =? 0 then
    ignore <-
      (if String.eqb key "" then
         fs <- call (IsFileSystem Dst) ;;
         if negb fs then
           name <- call (StoreString Dst) ;;
           Ret (empty_key_unsupported name)
         else Ret false
       else Ret false) ;;
    if ignore then Ret (0, None)
    else
      srcfs <- call (IsFileSystem Src) ;;
      perm <-
        (if srcfs then
           (* for check permissions *)
           g <- call (Get Src key 0 (-1)) ;;
           match g with
           | inl e => Ret (Some e)
           | inr _ => Ret None
           end
         else Ret None) ;;
      match perm with
      | Some e => Ret (0, Some e)
      | None => put key (mkReader [] ErrEOF) calChksum
      end
  else
    g <- call (Get Src key 0 size) ;;
    match g with
    | inl e =>
        e' <- demote_not_found key e ;;
        Ret (0, Some e')
    | inr rd => put key rd calChksum
    end.

(** [doCopySingle]. Modelled from the spec: [newParallelDownloader] is not
    part of the sources; it fetches the object in chunks and re-serializes
    them in order, so it is a reader the environment provides
    ([ParallelDownload]). *)
Definition doCopySingle (key : string) (size : Z) (calChksum : bool)
  : prog (Z * option error) :=
  parallel <-
    (if size >? maxBlock then
       inmem <- inMap Dst readInMem ;;
       if inmem then Ret false
       else
         fast <- inMap Src fastStreamRead ;;
         Ret (negb fast)
     else Ret false) ;;
  if parallel then
    downer <- call (ParallelDownload key size) ;;
    stream <- inMap Dst streamWrite ;;
    staged <-
      (if stream then Ret (inr (Some downer, None))
       else
         t <- call CreateTemp ;;
         match t with
         | Some _ => Ret (inl tt)
         | None =>
             (* io.CopyBuffer(f, downer, buf), then f.Seek(0, 0) *)
             w <- call (WriteTemp (List.concat (chunks downer))) ;;
             match w, final downer with
             | Some e, _ => Ret (inr (None, Some e))
             | None, ErrEOF =>
                 s <- call SeekTemp ;;
                 Ret (inr (Some (mkReader [List.concat (chunks downer)] ErrEOF), s))
             | None, e => Ret (inr (None, Some e))
             end
         end) ;;
    match staged with
    | inl _ => doCopySingle0 key size calChksum
    | inr (input, err) =>
        r <- match err, input with
             | None, Some rd => put key rd calChksum
             | None, None => Ret (0, Some (Panic "nil pointer dereference"))
             | Some e, _ => Ret (0, Some e)
             end ;;
        match snd r with
        | Some e =>
            e' <- demote_not_found key e ;;
            Ret (fst r, Some e')
        | None => Ret r
        end
    end
  else doCopySingle0 key size calChksum.

Definition try_doCopySingle (key : string) (size : Z) (calChksum : bool)
  : prog (Z * option error) :=
  try 3 (fun _ : Z => doCopySingle key size calChksum) 0.

(** err == utils.ENOTSUP *)
Definition eq_ENOTSUP (e : error) : bool :=
  match e with
  | Errno eno => eno =? ENOTSUP
  | _ => false
  end.

Definition CopyData (key : string) (size : Z) (calChksum : bool)
  : prog (Z * option error) :=
  if size <? maxBlock then try_doCopySingle key size calChksum
  else
    c <- call (CreateMultipartUpload Dst key) ;;
    match c with
    | inr upload => doCopyMultiple key size upload calChksum
    | inl e =>
        if eq_ENOTSUP e then try_doCopySingle key size calChksum
        else
          (* other error retry *)
          r <- try 2
            (fun _ : option MultipartUpload =>
               c <- call (CreateMultipartUpload Dst key) ;;
               match c with
               | inl e => Ret (None, Some e)
               | inr u => Ret (Some u, None)
               end) None ;;
          match r with
          | (_, Some e) => Ret (0, Some e)
          | (Some upload, None) => doCopyMultiple key size upload calChksum
          | (None, None) => Ret (0, Some (Panic "nil pointer dereference"))
          end
    end.

End Copy.

(** ** The checksum of a copy *)

Module CopyChecksum.
Import Errors Prog Retry PartSize Crc32c Copy.
Local Open Scope prog_scope.









(** *** Readers *)

Lemma Reader_Read_length rd n :
  (List.length (fst (fst (Reader_Read rd n))) <= n)%nat.
Proof.
  unfold Reader_Read. destruct (chunks rd) as [|c rest]; simpl; [lia|].
  destruct (skipn n c); simpl; rewrite length_firstn; lia.
Qed.

Lemma chksumReader_Read_spec r n :
  let '(p, err, r') := chksumReader_Read r n in
  (List.length p <= n)%nat
  /\ cal r' = cal r
  /\ chksum r' = (if cal r then Update Castagnoli (chksum r) p else chksum r)
  /\ (err = None -> (List.length (chunks (reader r')) < List.length (chunks (reader r)))%nat
                    \/ List.length p = n).
Proof.
  unfold chksumReader_Read.
  pose proof (Reader_Read_length (reader r) n) as L.
  unfold Reader_Read in *.
  destruct (chunks (reader r)) as [|c rest] eqn:E; simpl in *.
  - repeat split; auto. discriminate.
  - destruct (skipn n c) eqn:Sk; simpl in *.
    + repeat split; auto.
    + repeat split; auto. intros _. right.
      rewrite length_firstn. apply Nat.min_l.
      destruct (Nat.le_gt_cases n (List.length c)) as [H|H]; [exact H|].
      rewrite skipn_all2 in Sk by lia. discriminate.
Qed.

Lemma ReadFull_loop_ok : forall fuel r need got data r',
  (List.length (chunks (reader r)) < fuel)%nat ->
  ReadFull_loop fuel r need got = (data, None, r') ->
  exists bs, data = got ++ bs /\ List.length bs = need
             /\ cal r' = cal r
             /\ chksum r' = (if cal r then Update Castagnoli (chksum r) bs else chksum r).
Proof.
  induction fuel as [|fuel IH]; intros r need got data r' Hf H; [lia|].
  destruct need as [|need].
  - simpl in H. injection H as <- <-. exists []. rewrite app_nil_r.
    repeat split; auto. destruct (cal r); [now rewrite Update_nil|reflexivity].
  - cbn [ReadFull_loop] in H.
    pose proof (chksumReader_Read_spec r (S need)) as Sp.
    destruct (chksumReader_Read r (S need)) as [[p err] r1].
    destruct Sp as (Lp & Hcal & Hcrc & Hprog).
    destruct err as [e|]; [discriminate|].
    destruct (Hprog eq_refl) as [Hless|Hfull].
    + apply IH in H; [|lia].
      destruct H as (bs & -> & Hlen & Hcal' & Hcrc').
      exists (p ++ bs). rewrite app_assoc. split; [reflexivity|].
      split; [rewrite length_app; lia|]. split; [congruence|].
      rewrite Hcrc', Hcal, Hcrc. destruct (cal r); [|reflexivity].
      apply Update_app.
    + rewrite Hfull, Nat.sub_diag in H.
      destruct fuel; simpl in H; injection H as <- <-;
        (exists p; repeat split; auto).
Qed.

Lemma ReadFull_ok rd calChksum n data r :
  ReadFull (mkChksumReader rd 0 calChksum) n = (data, None, r) ->
  List.length data = n
  /\ chksum r = (if calChksum then Checksum Castagnoli data else 0).
Proof.
  unfold ReadFull. intros H. apply ReadFull_loop_ok in H; [|simpl; lia].
  destruct H as (bs & -> & Hlen & _ & Hcrc). simpl in *. auto.
Qed.


(** *** [try] delivers what its successful call delivers *)




(** *** A part *)

(** The closure of [doUploadPart]. *)
Definition upload_attempt (srckey : string) (off size : Z) (key uploadID : string)
  (num : Z) (calChksum : bool) (v : option Part * Z)
  : prog ((option Part * Z) * option error) :=
  got <- call (Get Src srckey off size) ;;
  match got with
  | inl e => Ret (v, Some e)
  | inr rd =>
      let '(data, err, r) :=
        ReadFull (mkChksumReader rd 0 calChksum) (Z.to_nat size) in
      match err with
      | Some e => Ret (v, Some e)
      | None =>
          up <- call (UploadPart Dst key uploadID (num + 1) data) ;;
          match up with
          | inl e => Ret ((None, chksum r), Some e)
          | inr part => Ret ((Some part, chksum r), None)
          end
      end
  end.



(** *** A part copied through an intermediate upload *)



Lemma partCount_spec size partSize :
  1 <= size <= 2^62 -> 0 < partSize ->
  1 <= partCount size partSize <= size
  /\ (partCount size partSize - 1) * partSize < size
  /\ size <= partCount size partSize * partSize.
Proof.
  intros Hs Hp. unfold partCount.
  rewrite (wrap64_small (size - 1)) by (unfold min_int64, max_int64; lia).
  rewrite Z.quot_div_nonneg by lia.
  pose proof (Z.mul_div_le (size - 1) partSize Hp) as H1.
  pose proof (Z.mul_succ_div_gt (size - 1) partSize Hp) as H2.
  assert (H0 : 0 <= (size - 1) / partSize) by (apply Z.div_pos; lia).
  assert (H3 : (size - 1) / partSize <= size - 1).
  { apply Z.le_trans with ((size - 1) / 1); [|rewrite Z.div_1_r; lia].
    apply Z.div_le_compat_l; lia. }
  rewrite wrap64_small by (unfold min_int64, max_int64; lia).
  nia.
Qed.


(** The closures of the other [try] calls. *)
Definition create_attempt (key : string) (_ : option MultipartUpload)
  : prog (option MultipartUpload * option error) :=
  r <- call (CreateMultipartUpload Dst key) ;;
  match r with
  | inl e => Ret (None, Some e)
  | inr u => Ret (Some u, None)
  end.




Arguments try : simpl never.
Arguments doUploadPart : simpl never.
Arguments choosePartSize : simpl never.
Arguments partCount : simpl never.
Arguments dec : simpl never.

(** Peel a [bind] or a [call] off a run. *)
Ltac run_bind H tr1 x tr2 Hx :=
  apply runs_bind in H; destruct H as (tr1 & x & tr2 & Hx & H & ->).

Ltac run_call H x tr' :=
  let t := fresh "t" in
  let Hc := fresh "Hc" in
  apply runs_bind in H; destruct H as (t & x & tr' & Hc & H & ->);
  apply runs_call in Hc; subst t.


(** *** The parts of an object *)






(** *** A single PUT *)











(** *** [CopyData] *)

Lemma maxBlock_val : maxBlock = 10485760.
Proof. reflexivity. Qed.





End CopyChecksum.

(** ** The retry loop *)

Module RetryClaims.
Import Errors Prog Retry.
Local Open Scope prog_scope.

(** The errno values that are worth another attempt. *)
Definition transient : list Z := [EAGAIN; EINTR; EBUSY; ETIMEDOUT; EIO].

Lemma shouldRetry_iff (err : option error) :
  shouldRetry err = true <->
  exists e, err = Some e
            /\ is_skipped e = false /\ is_extlink e = false
            /\ (as_errno e = None
                \/ exists eno, as_errno e = Some eno /\ In eno transient).
Proof.
  destruct err as [e|]; simpl.
  - destruct (is_skipped e) eqn:Sk; simpl.
    { split; [discriminate|]. intros (e' & H & F & _). injection H as <-. congruence. }
    destruct (is_extlink e) eqn:Ex; simpl.
    { split; [discriminate|]. intros (e' & H & _ & F & _). injection H as <-. congruence. }
    destruct (as_errno e) as [eno|] eqn:En.
    + destruct ((eno =? EAGAIN) || (eno =? EINTR) || (eno =? EBUSY)
                || (eno =? ETIMEDOUT) || (eno =? EIO)) eqn:T.
      * split; [|reflexivity]. intros _. exists e. repeat split; auto.
        right. exists eno. split; [exact En|].
        rewrite !orb_true_iff, !Z.eqb_eq in T. unfold transient. simpl. intuition.
      * split; [discriminate|]. intros (e' & H & _ & _ & [F|(n & Hn & Hin)]).
        { injection H as <-. congruence. }
        injection H as <-. rewrite En in Hn. injection Hn as <-.
        rewrite !orb_false_iff, !Z.eqb_neq in T. unfold transient in Hin.
        simpl in Hin. intuition.
    + split; [|reflexivity]. intros _. exists e. auto.
  - split; [discriminate|]. intros (e & H & _). discriminate.
Qed.

Lemma backoff_seconds i : 0 <= i <= 96000 -> backoff i = i * i * Second.
Proof.
  intros H. unfold backoff, Second.
  rewrite (wrap64_small (i * i)) by (unfold min_int64, max_int64; nia).
  rewrite wrap64_small by (unfold min_int64, max_int64; nia). lia.
Qed.

(** The bound at the call sites: the transfer of a part ([doUploadPart],
    as every other I/O of the engine) is tried at most 3 times. *)
Lemma doUploadPart_attempts srckey off size key uploadID num calChksum tr res :
  0 <= size ->
  runs (Copy.doUploadPart srckey off size key uploadID num calChksum) tr res ->
  exists atts,
    attempts (CopyChecksum.upload_attempt srckey off size key uploadID num calChksum)
             (None, 0) atts
    /\ (1 <= List.length atts <= 3)%nat
    /\ tr = trace_from 0 atts.
Proof.
  intros Hs H. unfold Copy.doUploadPart in H.
  destruct (Z.ltb_spec size 0) as [L|_]; [lia|].
  apply runs_bind in H. destruct H as (tr1 & r & tr2 & Ht & H & ->).
  change (runs (try_loop 3 0
                  (CopyChecksum.upload_attempt srckey off size key uploadID num calChksum)
                  (None, 0) None) tr1 r) in Ht.
  apply try_loop_attempts in Ht.
  destruct Ht as (atts & Ha & Hlen & _ & Hnil & _ & Htr & _).
  assert (E2 : tr2 = []) by (destruct (snd r); destruct H as [-> _]; reflexivity).
  exists atts. split; [exact Ha|]. split.
  - destruct atts; [specialize (Hnil eq_refl); discriminate|simpl in *; lia].
  - now rewrite E2, app_nil_r.
Qed.

(** The bound at the call sites: when the first [CreateMultipartUpload] of
    [CopyData] fails with an error other than ENOTSUP, it is tried again
    at most 2 times. *)
Lemma CopyData_init_attempts key size calChksum tr res :
  maxBlock <= size ->
  runs (Copy.CopyData key size calChksum) tr res ->
  exists c tr1,
    tr = Ev (CreateMultipartUpload Dst key) c :: tr1
    /\ forall e, c = inl e -> Copy.eq_ENOTSUP e = false ->
       exists atts tr2,
         attempts (CopyChecksum.create_attempt key) None atts
         /\ (1 <= List.length atts <= 2)%nat
         /\ tr1 = trace_from 0 atts ++ tr2.
Proof.
  intros Hs H. unfold Copy.CopyData in H.
  destruct (Z.ltb_spec size maxBlock) as [L|_]; [lia|].
  apply runs_bind in H. destruct H as (t & c & tr1 & Hc & H & ->).
  apply runs_call in Hc. subst t.
  exists c, tr1. split; [reflexivity|].
  intros e -> En. rewrite En in H.
  apply runs_bind in H. destruct H as (t1 & r & tr2 & Ht & H & ->).
  change (runs (try_loop 2 0 (CopyChecksum.create_attempt key) None None) t1 r) in Ht.
  apply try_loop_attempts in Ht.
  destruct Ht as (atts & Ha & Hlen & _ & Hnil & _ & Htr & _).
  exists atts, tr2. split; [exact Ha|]. split; [|now rewrite Htr].
  destruct atts; [specialize (Hnil eq_refl); discriminate|simpl in *; lia].
Qed.

(** C3. Every run of [try(n, f)] is a sequence of at most [n] calls of [f],
    each on the variables the call before left; every call but the last
    returned a retryable error, and the last one either returned a result
    that is not retryable or was the [n]-th; the call of index [i] (from 0)
    that returned a retryable error is followed by a sleep of [i * i]
    seconds; the result of [try] is that of the last call. An error is
    retryable iff it is not nil, is neither skipped nor external_link, and
    is not an OS errno or is one of EAGAIN, EINTR, EBUSY, ETIMEDOUT, EIO.
    At the call sites the bound is 3 for the I/O of a part and 2 for the
    retry of the multipart init of [CopyData]. *)
Theorem try_attempts {V : Type} (n : Z) (f : V -> prog (V * option error)) (v : V)
  (tr : list event) (res : V * option error) :
  runs (try n f v) tr res ->
  (exists atts,
      attempts f v atts
      /\ Z.of_nat (List.length atts) <= Z.max 0 n
      /\ Forall (fun a => retryable a = true) (removelast atts)
      /\ (0 < n -> atts <> [])
      /\ (retryable (last atts ([], (v, None))) = false
          \/ Z.of_nat (List.length atts) = Z.max 0 n)
      /\ tr = trace_from 0 atts
      /\ res = last (map snd atts) (v, None))
  /\ (forall i, 0 <= i <= 96000 -> backoff i = i * i * Second)
  /\ (forall err,
         shouldRetry err = true <->
         exists e, err = Some e
                   /\ is_skipped e = false /\ is_extlink e = false
                   /\ (as_errno e = None
                       \/ exists eno, as_errno e = Some eno /\ In eno transient))
  /\ (forall srckey off size key uploadID num calChksum tr' res',
         0 <= size ->
         runs (Copy.doUploadPart srckey off size key uploadID num calChksum) tr' res' ->
         exists atts,
           attempts (CopyChecksum.upload_attempt srckey off size key uploadID num
                       calChksum) (None, 0) atts
           /\ (1 <= List.length atts <= 3)%nat
           /\ tr' = trace_from 0 atts)
  /\ (forall key size calChksum tr' res',
         maxBlock <= size ->
         runs (Copy.CopyData key size calChksum) tr' res' ->
         exists c tr1,
           tr' = Ev (CreateMultipartUpload Dst key) c :: tr1
           /\ forall e, c = inl e -> Copy.eq_ENOTSUP e = false ->
              exists atts tr2,
                attempts (CopyChecksum.create_attempt key) None atts
                /\ (1 <= List.length atts <= 2)%nat
                /\ tr1 = trace_from 0 atts ++ tr2).
Proof.
  intros H.
  split; [|split; [apply backoff_seconds|split; [apply shouldRetry_iff|split]]].
  - unfold try in H. apply try_loop_attempts in H.
    destruct H as (atts & Ha & Hlen & Hall & Hnil & Hlast & Htr & Hres).
    exists atts. repeat split; auto.
    + lia.
    + intros Hn E. specialize (Hnil E). lia.
    + destruct Hlast as [Hl|Hl]; [now left|right; lia].
  - intros. eapply doUploadPart_attempts; eauto.
  - intros. eapply CopyData_init_attempts; eauto.
Qed.

(** A run of [try(3, f)]: [f] fails with EIO, then with a timeout, then
    succeeds. *)
Definition flaky_delete (_ : unit) : prog (unit * option error) :=
  e <- call (Delete Dst "k") ;; Ret (tt, e).

Definition flaky_run : list event :=
  [Ev (Delete Dst "k") (Some (Errno EIO));
   Ev (Sleep (backoff 0)) tt;
   Ev (Delete Dst "k") (Some (Errorf "timeout"));
   Ev (Sleep (backoff 1)) tt;
   Ev (Delete Dst "k") None].

Lemma try_attempts_witness :
  runs (try 3 flaky_delete tt) flaky_run (tt, None)
  /\ exists atts,
      attempts flaky_delete tt atts
      /\ Z.of_nat (List.length atts) <= Z.max 0 3
      /\ Forall (fun a => retryable a = true) (removelast atts)
      /\ (0 < 3 -> atts <> [])
      /\ (retryable (last atts ([], (tt, None))) = false
          \/ Z.of_nat (List.length atts) = Z.max 0 3)
      /\ flaky_run = trace_from 0 atts
      /\ (tt, None) = last (map snd atts) (tt, None).
Proof.
  assert (R : runs (try 3 flaky_delete tt) flaky_run (tt, None)).
  { unfold flaky_run.
    repeat (simpl; eexists; eexists; split; [reflexivity|]).
    simpl. split; reflexivity. }
  split; [exact R|].
  exact (proj1 (try_attempts 3 flaky_delete tt flaky_run (tt, None) R)).
Defined.

End RetryClaims.

(** ** How a part is transferred *)

Module CopyStrategy.
Import Errors Prog Retry PartSize Crc32c Copy.
Local Open Scope prog_scope.

Arguments try : simpl never.
Arguments doUploadPart : simpl never.
Arguments choosePartSize : simpl never.
Arguments partCount : simpl never.
Arguments dec : simpl never.

Ltac run_bind H tr1 x tr2 Hx :=
  apply runs_bind in H; destruct H as (tr1 & x & tr2 & Hx & H & ->).

Ltac run_call H x tr' :=
  let t := fresh "t" in
  let Hc := fresh "Hc" in
  apply runs_bind in H; destruct H as (t & x & tr' & Hc & H & ->);
  apply runs_call in Hc; subst t.

(** A call without its answer; of the data of an [UploadPart] and the parts
    of a [CompleteUpload], their number. *)
Inductive call_sig : Type :=
| SAborted
| SGetLimits
| SGet (s : side) (key : string) (off len : Z)
| SCreateMultipartUpload (key : string)
| SUploadPart (key uploadID : string) (num : Z) (len : nat)
| SCompleteUpload (key uploadID : string) (parts : nat)
| SUploadPartCopy (key uploadID : string) (num : Z) (srcKey : string) (off size : Z)
| SAbortUpload (key uploadID : string)
| SDelete (key : string)
| SOther.

Definition sig_of (e : event) : call_sig :=
  match e with
  | Ev o _ =>
      match o with
      | Aborted => SAborted
      | GetLimits Dst => SGetLimits
      | Get s key off len => SGet s key off len
      | CreateMultipartUpload Dst key => SCreateMultipartUpload key
      | UploadPart Dst key uploadID num data =>
          SUploadPart key uploadID num (List.length data)
      | CompleteUpload Dst key uploadID parts =>
          SCompleteUpload key uploadID (List.length parts)
      | UploadPartCopy Dst key uploadID num srcKey off size =>
          SUploadPartCopy key uploadID num srcKey off size
      | AbortUpload Dst key uploadID => SAbortUpload key uploadID
      | Delete Dst key => SDelete key
      | _ => SOther
      end
  end.

(** The environment lets a call through: no store call fails, a reader
    yields the bytes asked for, no abort is signalled. *)
Definition ok_event (e : event) : Prop :=
  match e with
  | Ev o x =>
      match o in op X return X -> Prop with
      | Get _ _ _ len =>
          fun x => match x with
                   | inr rd =>
                       forall c, snd (fst (ReadFull (mkChksumReader rd 0 c)
                                                    (Z.to_nat len))) = None
                   | inl _ => False
                   end
      | CreateMultipartUpload _ _ =>
          fun x => match x with inr _ => True | inl _ => False end
      | UploadPart _ _ _ _ _ =>
          fun x => match x with inr _ => True | inl _ => False end
      | UploadPartCopy _ _ _ _ _ _ _ =>
          fun x => match x with inr _ => True | inl _ => False end
      | CompleteUpload _ _ _ _ => fun x => x = None
      | Aborted => fun x => x = false
      | _ => fun _ => True
      end x
  end.

Definition all_ok (tr : list event) : Prop := Forall ok_event tr.

Lemma all_ok_app tr1 tr2 : all_ok (tr1 ++ tr2) <-> all_ok tr1 /\ all_ok tr2.
Proof. apply Forall_app. Qed.

Lemma all_ok_cons e tr : all_ok (e :: tr) <-> ok_event e /\ all_ok tr.
Proof. apply Forall_cons_iff. Qed.

(** With an environment that lets every call through, [try] calls [f]
    once. *)
Lemma try_first_ok {V : Type} (f : V -> prog (V * option error)) n v tr r :
  0 < n ->
  (forall v tr r, runs (f v) tr r -> all_ok tr -> snd r = None) ->
  runs (try n f v) tr r -> all_ok tr ->
  runs (f v) tr r.
Proof.
  intros Hn Hf H Hok. unfold try in H.
  destruct (Z.to_nat n) as [|k] eqn:E; [lia|]. cbn [try_loop] in H.
  run_bind H tr1 r1 tr2 Hr.
  apply all_ok_app in Hok. destruct Hok as [Ok1 _].
  rewrite (Hf _ _ _ Hr Ok1) in H. cbn [shouldRetry negb] in H.
  apply runs_ret in H. destruct H as [-> ->]. now rewrite app_nil_r.
Qed.

(** The calls of a part that is read into a buffer and uploaded. *)
Definition upload_plan (srckey : string) (off size : Z) (key uploadID : string)
  (num : Z) : list call_sig :=
  [SGet Src srckey off size; SUploadPart key uploadID (num + 1) (Z.to_nat size)].

Lemma doUploadPart_plan srckey off size key uploadID num calChksum tr res :
  runs (doUploadPart srckey off size key uploadID num calChksum) tr res ->
  all_ok tr -> snd res = None ->
  map sig_of tr = upload_plan srckey off size key uploadID num.
Proof.
  unfold doUploadPart. intros H Hok Hres.
  destruct (size <? 0).
  { apply runs_ret in H. destruct H as [_ ->]. discriminate. }
  run_bind H tr1 r tr2 Ht.
  assert (Hend : tr2 = []).
  { destruct (snd r); apply runs_ret in H; now destruct H. }
  subst tr2. rewrite app_nil_r in *. clear H Hres.
  apply try_first_ok in Ht; [|lia| |exact Hok].
  - run_call Ht got t1. apply all_ok_cons in Hok. destruct Hok as [Og Ok1].
    destruct got as [e|rd]; [contradiction Og|]. simpl in Og.
    specialize (Og calChksum).
    pose proof (CopyChecksum.ReadFull_ok rd calChksum (Z.to_nat size)) as RF.
    destruct (ReadFull (mkChksumReader rd 0 calChksum) (Z.to_nat size))
      as [[data err] rr]. simpl in Og. subst err.
    destruct (RF data rr eq_refl) as [Hlen _].
    run_call Ht up t2. destruct up; apply runs_ret in Ht; destruct Ht as [-> _];
      simpl; unfold upload_plan; now rewrite Hlen.
  - clear. intros v tr r H Hok. run_call H got t1.
    apply all_ok_cons in Hok. destruct Hok as [Og Ok1].
    destruct got as [e|rd]; [contradiction Og|]. simpl in Og.
    specialize (Og calChksum).
    destruct (ReadFull (mkChksumReader rd 0 calChksum) (Z.to_nat size))
      as [[data err] rr]. simpl in Og. subst err.
    run_call H up t2. apply all_ok_cons in Ok1. destruct Ok1 as [Ou _].
    destruct up as [e|part]; [contradiction Ou|].
    apply runs_ret in H. destruct H as [_ ->]. reflexivity.
Qed.

(** The part numbers [i, i+1, ...], [k] of them. *)
Fixpoint indices (k : nat) (i : Z) : list Z :=
  match k with
  | O => []
  | S k' => i :: indices k' (i + 1)
  end.

(** The size of the part [i] among [n] parts of [partSize] bytes. *)
Definition part_sz (i n size partSize : Z) : Z :=
  if i =? n - 1 then size - i * partSize else partSize.

(** The calls that fill the intermediate upload [up] at [tmpkey]. *)
Definition fill_plan (key tmpkey : string) (off size partSize n : Z)
  (up : MultipartUpload) (nums : list Z) : list call_sig :=
  flat_map (fun i => SAborted
                     :: upload_plan key (off + i * partSize)
                          (part_sz i n size partSize) tmpkey (UploadID up) i) nums.

Lemma copy_range_parts_plan : forall k i n key tmpkey off size partSize up calChksum
                                     st tr st',
  runs (copy_range_parts k i n key tmpkey off size partSize up calChksum st) tr
       (st', None) ->
  all_ok tr ->
  map sig_of tr = fill_plan key tmpkey off size partSize n up (indices k i)
  /\ List.length (range_parts st') = (List.length (range_parts st) + k)%nat.
Proof.
  induction k as [|k IH];
    intros i n key tmpkey off size partSize up calChksum st tr st' H Hok.
  - apply runs_ret in H. destruct H as [-> H]. injection H as ->.
    split; [reflexivity|lia].
  - cbn [copy_range_parts] in H. run_call H aborted t1.
    apply all_ok_cons in Hok. destruct Hok as [Oa Hok]. simpl in Oa. subst aborted.
    run_bind H tr1 r tr2 Hr. destruct r as [[part ck] [e|]].
    { run_call H u t2. apply runs_ret in H. destruct H as [_ H]. discriminate. }
    apply all_ok_app in Hok. destruct Hok as [Ok1 Ok2].
    apply doUploadPart_plan in Hr; [|exact Ok1|reflexivity].
    apply IH in H; [|exact Ok2]. destruct H as [Hplan Hlen].
    split.
    + cbn [app map]. rewrite map_app, Hr, Hplan. reflexivity.
    + rewrite Hlen. destruct calChksum; [destruct (first st)|];
        simpl; rewrite length_app; simpl; lia.
Qed.

(** The calls of a part that goes through an intermediate upload [up]. *)
Definition staged_plan (key : string) (off size : Z) (upload : MultipartUpload)
  (num : Z) (up : MultipartUpload) : list call_sig :=
  let tmpkey := (key ++ ".part" ++ dec num)%string in
  let partSize := choosePartSize up size in
  let n := partCount size partSize in
  [SCreateMultipartUpload tmpkey]
    ++ fill_plan key tmpkey off size partSize n up (indices (Z.to_nat n) 0)
    ++ [SCompleteUpload tmpkey (UploadID up) (Z.to_nat n);
        SUploadPartCopy key (UploadID upload) (num + 1) tmpkey 0 size;
        SDelete tmpkey].

(** C7. A part whose transfer succeeds, in an environment that lets every
    call through: after the abort check and the limits of the destination,
    if the part is at most 32 MiB or the destination has no
    upload-part-copy, the calls are one GET of the range and one UploadPart
    of the bytes read, under the parent upload; otherwise an upload is
    created at key.partN, each of its parts is a GET of a sub-range and an
    UploadPart under that upload, the upload is completed, one
    UploadPartCopy of the staging key is issued under the parent upload,
    and the staging key is deleted. *)
Theorem doCopyRange_strategy (key : string) (off size : Z) (upload : MultipartUpload)
  (num : Z) (calChksum : bool) (tr : list event)
  (res : option Part * Z * option error) :
  runs (doCopyRange key off size upload num calChksum) tr res ->
  all_ok tr -> snd res = None ->
  exists limits tr',
    tr = Ev Aborted false :: Ev (GetLimits Dst) limits :: tr'
    /\ if (size <=? Z.shiftl 32 20) || negb (IsSupportUploadPartCopy limits)
       then map sig_of tr' = upload_plan key off size key (UploadID upload) num
       else exists up,
           In (Ev (CreateMultipartUpload Dst (key ++ ".part" ++ dec num)) (inr up)) tr'
           /\ map sig_of tr' = staged_plan key off size upload num up.
Proof.
  unfold doCopyRange. intros H Hok Hres.
  run_call H aborted tr0.
  apply all_ok_cons in Hok. destruct Hok as [Oa Hok]. simpl in Oa. subst aborted.
  run_call H limits tr1. apply all_ok_cons in Hok. destruct Hok as [_ Hok].
  exists limits, tr1. split; [reflexivity|].
  destruct ((size <=? Z.shiftl 32 20) || negb (IsSupportUploadPartCopy limits)).
  - eapply doUploadPart_plan; eauto.
  - run_bind H tr2 cr tr3 Hcreate.
    apply all_ok_app in Hok. destruct Hok as [Ok2 Hok].
    apply try_first_ok in Hcreate; [|lia| |exact Ok2].
    2:{ clear. intros v tr r H Hok. run_call H x t1.
        apply all_ok_cons in Hok. destruct Hok as [Ox _].
        destruct x as [e|u]; [contradiction Ox|].
        apply runs_ret in H. destruct H as [_ ->]. reflexivity. }
    run_call Hcreate x t1. apply all_ok_cons in Ok2. destruct Ok2 as [Ox _].
    destruct x as [e|up]; [contradiction Ox|].
    apply runs_ret in Hcreate. destruct Hcreate as [-> ->].
    exists up. split; [now left|].
    run_bind H tr4 r tr5 Hparts. destruct r as [st [e|]].
    { apply runs_ret in H. destruct H as [_ ->]. discriminate. }
    apply all_ok_app in Hok. destruct Hok as [Ok4 Hok].
    apply copy_range_parts_plan in Hparts; [|exact Ok4].
    destruct Hparts as [Hfill Hlen]. simpl in Hlen.
    run_bind H tr6 d tr7 Hcomplete.
    apply all_ok_app in Hok. destruct Hok as [Ok6 Hok].
    apply try_first_ok in Hcomplete; [|lia| |exact Ok6].
    2:{ clear. intros v tr r H Hok. run_call H x t1.
        apply all_ok_cons in Hok. destruct Hok as [Ox _]. simpl in Ox. subst x.
        apply runs_ret in H. destruct H as [_ ->]. reflexivity. }
    run_call Hcomplete e t2. apply all_ok_cons in Ok6. destruct Ok6 as [Oe _].
    simpl in Oe. subst e. apply runs_ret in Hcomplete. destruct Hcomplete as [-> ->].
    cbn [snd] in H.
    run_bind H tr8 p tr9 Hcopy.
    apply all_ok_app in Hok. destruct Hok as [Ok8 Hok].
    apply try_first_ok in Hcopy; [|lia| |exact Ok8].
    2:{ clear. intros v tr r H Hok. run_call H x t1.
        apply all_ok_cons in Hok. destruct Hok as [Ox _].
        destruct x as [e|u]; [contradiction Ox|].
        apply runs_ret in H. destruct H as [_ ->]. reflexivity. }
    run_call Hcopy x t3.
    assert (Ht3 : t3 = []).
    { destruct x; apply runs_ret in Hcopy; now destruct Hcopy. }
    subst t3. clear Hcopy.
    run_call H y t4. apply runs_ret in H. destruct H as [-> _].
    unfold staged_plan.
    cbn [app map sig_of]. rewrite !map_app, Hfill. cbn [app map sig_of].
    rewrite Hlen. reflexivity.
Qed.

(** A part of five bytes, read in one chunk and uploaded as part 3. *)
Definition small_part_run : list event :=
  [Ev Aborted false;
   Ev (GetLimits Dst) (mkLimits true true 5242880 5368709120 10000);
   Ev (Get Src "k" 10 5)
      (inr (mkReader [[Byte.x68; Byte.x65; Byte.x6c; Byte.x6c; Byte.x6f]] ErrEOF));
   Ev (UploadPart Dst "k" "upload-1" 3 [Byte.x68; Byte.x65; Byte.x6c; Byte.x6c; Byte.x6f])
      (inr (mkPart 3 5 "etag"))].

Lemma doCopyRange_strategy_witness :
  exists limits tr',
    small_part_run = Ev Aborted false :: Ev (GetLimits Dst) limits :: tr'
    /\ if (5 <=? Z.shiftl 32 20) || negb (IsSupportUploadPartCopy limits)
       then map sig_of tr' = upload_plan "k" 10 5 "k" (UploadID s3_upload) 2
       else exists up,
           In (Ev (CreateMultipartUpload Dst ("k" ++ ".part" ++ dec 2)) (inr up)) tr'
           /\ map sig_of tr' = staged_plan "k" 10 5 s3_upload 2 up.
Proof.
  apply (doCopyRange_strategy "k" 10 5 s3_upload 2 true small_part_run
           (Some (mkPart 3 5 "etag"),
            Checksum Castagnoli [Byte.x68; Byte.x65; Byte.x6c; Byte.x6c; Byte.x6f],
            None)).
  - unfold small_part_run.
    repeat (simpl; eexists; eexists; split; [reflexivity|]).
    simpl. split; reflexivity.
  - repeat constructor.
  - reflexivity.
Defined.

End CopyStrategy.

(** ** The byte-wise verifier: [compObjPartBinary] and [compObjBinary] *)

Module Verify.
Import Errors Prog Copy.
Local Open Scope prog_scope.

(** The errors of [compObjPartBinary], each made by [fmt.Errorf]. *)
Inductive cmp_error : Type :=
| CmpAborted                  (* "aborted" *)
| SrcGet (e : error)          (* "src get: %s" *)
| DestGet (e : error)         (* "dest get: %s" *)
| SrcRead (e : error)         (* "src read: %s" *)
| DestRead (e : error)        (* "dest read: %s" *)
| BytesNotEqual.              (* "bytes not equal" *)

(** err.Error() *)
Definition cmp_text (c : cmp_error) : string :=
  match c with
  | CmpAborted => "aborted"
  | SrcGet e => "src get: " ++ ErrorText e
  | DestGet e => "dest get: " ++ ErrorText e
  | SrcRead e => "src read: " ++ ErrorText e
  | DestRead e => "dest read: " ++ ErrorText e
  | BytesNotEqual => "bytes not equal"
  end.

(** io.ReadFull on a plain reader. *)
Definition io_ReadFull (rd : Reader) (n : nat)
  : list Byte.byte * option error * Reader :=
  let '(data, err, r) := ReadFull (mkChksumReader rd 0 false) n in
  (data, err, reader r).

(** bytes.Equal *)
Definition bytes_Equal (a b : list Byte.byte) : bool :=
  if list_eq_dec Byte.byte_eq_dec a b then true else false.

(** The number of turns of [for left := int(length); left > 0;
    left -= bufferSize]. *)
Definition chunk_count (length : Z) : nat :=
  Z.to_nat ((length + bufferSize - 1) / bufferSize).

(** The loop of [compObjPartBinary], with [k] turns allowed. *)
Fixpoint compare_chunks (k : nat) (left : Z) (in1 in2 : Reader) : option cmp_error :=
  match k with
  | O => None
  | S k' =>
      if left >? 0 then
        let bs := if left <? bufferSize then left else bufferSize in
        let '(buf, err, in1') := io_ReadFull in1 (Z.to_nat bs) in
        match err with
        | Some e => Some (SrcRead e)
        | None =>
            let '(buf2, err2, in2') := io_ReadFull in2 (Z.to_nat bs) in
            match err2 with
            | Some e => Some (DestRead e)
            | None =>
                if negb (bytes_Equal buf buf2) then Some BytesNotEqual
                else compare_chunks k' (left - bufferSize) in1' in2'
            end
        end
      else None
  end.

Definition compObjPartBinary (key : string) (offset length : Z)
  : prog (option cmp_error) :=
  aborted <- call Aborted ;;
  if aborted then Ret (Some CmpAborted)
  else
    g <- call (Get Src key offset length) ;;
    match g with
    | inl e => Ret (Some (SrcGet e))
    | inr in1 =>
        g2 <- call (Get Dst key offset length) ;;
        match g2 with
        | inl e => Ret (Some (DestGet e))
        | inr in2 => Ret (compare_chunks (chunk_count length) length in1 in2)
        end
    end.

(** The goroutines of [compObjBinary], run in the order of their numbers. *)
Fixpoint compare_parts_from (k : nat) (num n : Z) (key : string) (size : Z)
  : prog (list (option cmp_error)) :=
  match k with
  | O => Ret []
  | S k' =>
      let sz := if num =? n - 1 then size - num * defaultPartSize
                else defaultPartSize in
      e <- compObjPartBinary key (num * defaultPartSize) sz ;;
      rest <- compare_parts_from k' (num + 1) n key size ;;
      Ret (e :: rest)
  end.

(** The loop over [errs]: the first error received. *)
Fixpoint first_cmp_error (errs : list (option cmp_error)) : option cmp_error :=
  match errs with
  | [] => None
  | Some e :: _ => Some e
  | None :: rest => first_cmp_error rest
  end.

(** The comparison of [compObjBinary]: what [err] holds before the
    verdict. [size] is [obj.Size()]. *)
Definition compare_parts (key : string) (size : Z) : prog (option cmp_error) :=
  if size <? maxBlock then compObjPartBinary key 0 size
  else
    let n := PartSize.partCount size defaultPartSize in
    errs <- compare_parts_from (Z.to_nat n) 0 n key size ;;
    Ret (first_cmp_error errs).

Definition compObjBinary (key : string) (size : Z) : prog (bool * option cmp_error) :=
  err <- compare_parts key size ;;
  match err with
  | Some e =>
      if String.eqb (cmp_text e) "bytes not equal" then Ret (false, None)
      else Ret (false, Some e)
  | None => Ret (true, None)
  end.

(** The text of an error is that of the sentinel only for the sentinel. *)
Lemma cmp_text_sentinel c :
  String.eqb (cmp_text c) "bytes not equal" = true <-> c = BytesNotEqual.
Proof.
  split.
  - destruct c; simpl; try discriminate. reflexivity.
  - intros ->. reflexivity.
Qed.

(** The turns allowed are those the loop takes: more change nothing. *)
Lemma compare_chunks_fuel : forall k left in1 in2 extra,
  left <= Z.of_nat k * bufferSize ->
  compare_chunks (k + extra) left in1 in2 = compare_chunks k left in1 in2.
Proof.
  induction k as [|k IH]; intros left in1 in2 extra Hk.
  - destruct extra; [reflexivity|]. simpl.
    destruct (Z.gtb_spec left 0); [lia|reflexivity].
  - cbn [Nat.add compare_chunks]. destruct (left >? 0); [|reflexivity].
    destruct (io_ReadFull in1 _) as [[buf err] in1'].
    destruct err; [reflexivity|].
    destruct (io_ReadFull in2 _) as [[buf2 err2] in2'].
    destruct err2; [reflexivity|].
    destruct (negb (bytes_Equal buf buf2)); [reflexivity|].
    apply IH. unfold bufferSize in *. lia.
Qed.

Lemma chunk_count_enough length :
  length <= Z.of_nat (chunk_count length) * bufferSize.
Proof.
  unfold chunk_count, bufferSize. change (Z.shiftl 32 10) with 32768.
  destruct (Z.leb_spec length 0) as [L|G].
  - lia.
  - rewrite Z2Nat.id by (apply Z.div_pos; lia).
    pose proof (Z.mul_succ_div_gt (length + 32768 - 1) 32768 ltac:(lia)). lia.
Qed.




End Verify.

(** ** The deferred deletion of directories *)

Module DelayDel.
Import Errors Prog Retry.
Local Open Scope prog_scope.

Module StringOrder <: Orders.TotalLeBool.
Definition t := string.
Definition leb := Keys.le.
Theorem leb_total : forall a1 a2, is_true (leb a1 a2) \/ is_true (leb a2 a1).
Proof. intros a1 a2. apply String.leb_total. Qed.
End StringOrder.

Module StringSort := Mergesort.Sort StringOrder.

(** Modelled from the spec: sort.Strings of the Go standard library sorts
    a slice of strings in increasing order; here a merge sort. *)
Definition sort_Strings (keys : list string) : list string := StringSort.sort keys.

Definition deleteObj (s : side) (key : string) (dry : bool) : prog unit :=
  if dry then call (Incr "deleted" 1)
  else
    r <- try 3 (fun _ : unit => e <- call (Delete s key) ;; Ret (tt, e)) tt ;;
    match snd r with
    | None => call (Incr "deleted" 1)
    | Some _ => call (Incr "failed" 1)
    end.

(** for i := len(keys) - 1; i >= 0; i-- over [keys], given last first. *)
Fixpoint delete_each (s : side) (backwards : list string) (dry : bool) : prog unit :=
  match backwards with
  | [] => Ret tt
  | key :: rest =>
      _ <- call (Incr "handled" 1) ;;
      _ <- deleteObj s key dry ;;
      delete_each s rest dry
  end.

Definition delayDelFunc (s : side) (keys : list string) (dry : bool) : prog unit :=
  let keys := match keys with
              | [] => keys
              | _ => sort_Strings keys
              end in
  delete_each s (rev keys) dry.

(** The end of [Sync] when it is not a worker of a manager. [workers] is
    all that runs up to [wg.Wait()], the producer and the workers, with
    the keys they leave in [srcDelayDel] and [dstDelayDel]. The two sides
    are deleted by two goroutines; the embedding runs the source side
    first. *)
Definition Sync_end (config : Config) (workers : prog (list string * list string))
  : prog unit :=
  d <- workers ;;
  if String.eqb (Manager config) "" then
    _ <- delayDelFunc Src (fst d) (Dry config) ;;
    delayDelFunc Dst (snd d) (Dry config)
  else Ret tt.

(** The order in which the deferred keys are deleted. *)
Definition deletion_order (keys : list string) : list string :=
  rev (sort_Strings keys).

(** The keys of the [Delete] calls of a run on the store [s]. *)
Definition delete_key (s : side) (e : event) : list string :=
  match e with
  | Ev o _ =>
      match o with
      | Delete Src key => match s with Src => [key] | Dst => [] end
      | Delete Dst key => match s with Dst => [key] | Src => [] end
      | _ => []
      end
  end.

Definition delete_keys (s : side) (tr : list event) : list string :=
  flat_map (delete_key s) tr.

(** [order] with its [i]-th key repeated as the [i]-th of [ns] says. *)
Fixpoint blocks (order : list string) (ns : list nat) : list string :=
  match order, ns with
  | key :: order', n :: ns' => repeat key n ++ blocks order' ns'
  | _, _ => []
  end.

(** *** The order *)

Lemma le_trans a b c : Keys.le a b = true -> Keys.le b c = true -> Keys.le a c = true.
Proof.
  rewrite !Keys.le_lt_or_eq. intros [H1|H1] [H2|H2]; subst; auto.
  left. eapply Keys.lt_trans; eauto.
Qed.

Lemma le_neq_lt a b : Keys.le a b = true -> a <> b -> Keys.lt a b = true.
Proof. rewrite Keys.le_lt_or_eq. intros [H|H] N; [exact H|contradiction]. Qed.

Lemma sort_Strings_sorted keys :
  StronglySorted (fun a b => Keys.le a b = true) (sort_Strings keys).
Proof.
  apply StringSort.StronglySorted_sort.
  intros a b c. apply le_trans.
Qed.

Lemma sort_Strings_perm keys : Permutation keys (sort_Strings keys).
Proof. apply StringSort.Permuted_sort. Qed.

Lemma StronglySorted_snoc {A} (R : A -> A -> Prop) l x :
  StronglySorted R l -> Forall (fun a => R a x) l -> StronglySorted R (l ++ [x]).
Proof.
  induction 1 as [|a l Hl IH Ha]; intros Hx; simpl.
  - repeat constructor.
  - inversion Hx; subst. constructor; [auto|].
    apply Forall_app. split; [exact Ha|]. repeat constructor. assumption.
Qed.

Lemma StronglySorted_rev {A} (R : A -> A -> Prop) l :
  StronglySorted R l -> StronglySorted (fun a b => R b a) (rev l).
Proof.
  induction 1 as [|a l Hl IH Ha]; simpl; [constructor|].
  apply StronglySorted_snoc; [exact IH|].
  apply Forall_rev. exact Ha.
Qed.

(** Descending, possibly with equal neighbours. *)
Lemma deletion_order_descending keys :
  StronglySorted (fun a b => Keys.le b a = true) (deletion_order keys).
Proof. apply StronglySorted_rev, sort_Strings_sorted. Qed.

Lemma deletion_order_perm keys : Permutation keys (deletion_order keys).
Proof.
  unfold deletion_order. eapply Permutation_trans; [apply sort_Strings_perm|].
  apply Permutation_rev.
Qed.

Lemma descending_strict l :
  NoDup l ->
  StronglySorted (fun a b => Keys.le b a = true) l ->
  StronglySorted (fun a b => Keys.gt a b = true) l.
Proof.
  intros Hn Hs. induction Hs as [|a l Hl IH Ha]; [constructor|].
  inversion Hn; subst. constructor; [auto|].
  rewrite Forall_forall in *. intros x Hx. unfold Keys.gt.
  apply le_neq_lt; [auto|]. intros ->. contradiction.
Qed.

Lemma deletion_order_strict keys :
  NoDup keys ->
  StronglySorted (fun a b => Keys.gt a b = true) (deletion_order keys).
Proof.
  intros Hn. apply descending_strict; [|apply deletion_order_descending].
  eapply Permutation_NoDup; [apply deletion_order_perm|exact Hn].
Qed.

(** A key is below the keys it is a proper prefix of. *)
Lemma prefix_lt : forall p c,
  Keys.HasPrefix c p = true -> p <> c -> Keys.lt p c = true.
Proof.
  unfold Keys.HasPrefix, Keys.lt, String.ltb.
  induction p as [|a p IH]; intros c Hp Hn; destruct c as [|b c]; simpl in *.
  - contradiction.
  - reflexivity.
  - discriminate.
  - destruct (ascii_dec a b) as [->|]; [|discriminate].
    assert (E : Ascii.compare b b = Eq) by (now apply Ascii_as_OT.cmp_eq).
    rewrite E. apply IH; [exact Hp|]. intros ->. contradiction.
Qed.

(** [x] comes before [y] in [l]. *)
Definition before (x y : string) (l : list string) : Prop :=
  exists l1 l2, l = l1 ++ x :: l2 /\ In y l2.

Lemma strict_before l x y :
  StronglySorted (fun a b => Keys.gt a b = true) l ->
  In x l -> In y l -> Keys.lt y x = true -> before x y l.
Proof.
  intros Hs Hx Hy Hlt. apply in_split in Hx. destruct Hx as (l1 & l2 & ->).
  exists l1, l2. split; [reflexivity|].
  apply in_app_or in Hy. destruct Hy as [Hy|[Hy|Hy]]; [|subst|exact Hy].
  - exfalso. apply in_split in Hy. destruct Hy as (l3 & l4 & ->).
    rewrite <- app_assoc in Hs. simpl in Hs.
    clear -Hs Hlt. induction l3 as [|z l3 IH]; simpl in Hs.
    + inversion Hs; subst. rewrite Forall_forall in H2.
      assert (Hg : Keys.gt y x = true) by (apply H2, in_or_app; right; now left).
      rewrite Keys.gt_lt, (Keys.lt_asym _ _ Hlt) in Hg. discriminate.
    + inversion Hs; subst. auto.
  - rewrite Keys.lt_irrefl in Hlt. discriminate.
Qed.

(** Children are deleted before their parents. *)
Lemma children_first keys parent child :
  NoDup keys -> In parent keys -> In child keys ->
  Keys.HasPrefix child parent = true -> parent <> child ->
  before child parent (deletion_order keys).
Proof.
  intros Hn Hp Hc Hpre Hne.
  apply strict_before.
  - now apply deletion_order_strict.
  - eapply Permutation_in; [apply deletion_order_perm|exact Hc].
  - eapply Permutation_in; [apply deletion_order_perm|exact Hp].
  - now apply prefix_lt.
Qed.

(** *** The calls *)

Ltac run_bind H tr1 x tr2 Hx :=
  apply runs_bind in H; destruct H as (tr1 & x & tr2 & Hx & H & ->).

Ltac run_call H x tr' :=
  let t := fresh "t" in
  let Hc := fresh "Hc" in
  apply runs_bind in H; destruct H as (t & x & tr' & Hc & H & ->);
  apply runs_call in Hc; subst t.

Lemma delete_keys_app s tr1 tr2 :
  delete_keys s (tr1 ++ tr2) = delete_keys s tr1 ++ delete_keys s tr2.
Proof. apply flat_map_app. Qed.

Lemma delete_key_Delete s key e : delete_key s (Ev (Delete s key) e) = [key].
Proof. destruct s; reflexivity. Qed.

(** The closure of [deleteObj]. *)
Definition delete_attempt (s : side) (key : string) (_ : unit)
  : prog (unit * option error) :=
  e <- call (Delete s key) ;; Ret (tt, e).

Lemma try_delete_keys s key : forall k i v e0 tr r,
  runs (try_loop k i (delete_attempt s key) v e0) tr r ->
  exists n, (n <= k)%nat /\ (k <> O -> (1 <= n)%nat)
            /\ delete_keys s tr = repeat key n.
Proof.
  induction k as [|k IH]; intros i v e0 tr r H.
  - apply runs_ret in H. destruct H as [-> _]. exists O. repeat split; auto.
    intros F. contradiction.
  - cbn [try_loop] in H. run_bind H tr1 r1 tr2 Hr.
    unfold delete_attempt in Hr. run_call Hr e t1.
    apply runs_ret in Hr. destruct Hr as [-> ->].
    rewrite delete_keys_app. cbn [app delete_keys flat_map].
    rewrite delete_key_Delete. cbn [app].
    destruct (shouldRetry (snd (tt, e))); cbn [negb] in H.
    + run_call H u t2. apply IH in H. destruct H as (n & Hn & _ & Hk).
      exists (S n). cbn [app delete_keys flat_map delete_key].
      fold (delete_keys s t2). rewrite Hk. repeat split; auto; lia.
    + apply runs_ret in H. destruct H as [-> _]. exists 1%nat.
      repeat split; auto; lia.
Qed.

Lemma deleteObj_keys s key dry tr :
  runs (deleteObj s key dry) tr tt ->
  if dry then delete_keys s tr = []
  else exists n, (1 <= n <= 3)%nat /\ delete_keys s tr = repeat key n.
Proof.
  unfold deleteObj. intros H. destruct dry.
  - apply runs_call in H. subst tr. reflexivity.
  - run_bind H tr1 r tr2 Ht.
    change (runs (try_loop (Z.to_nat 3) 0 (delete_attempt s key) tt None) tr1 r) in Ht.
    apply try_delete_keys in Ht. destruct Ht as (n & Hn & Hp & Hk).
    exists n. split; [change (Z.to_nat 3) with 3%nat in *; split; [apply Hp; lia|lia]|].
    rewrite delete_keys_app, Hk.
    destruct (snd r); apply runs_call in H; subst tr2; simpl; now rewrite app_nil_r.
Qed.

Lemma delete_each_keys s dry : forall order tr,
  runs (delete_each s order dry) tr tt ->
  if dry then delete_keys s tr = []
  else exists ns, List.length ns = List.length order
                  /\ Forall (fun n => (1 <= n <= 3)%nat) ns
                  /\ delete_keys s tr = blocks order ns.
Proof.
  induction order as [|key order IH]; intros tr H.
  - apply runs_ret in H. destruct H as [-> _].
    destruct dry; [reflexivity|]. exists []. repeat split; auto.
  - cbn [delete_each] in H. run_call H u t1. run_bind H tr1 x tr2 Hd.
    destruct x. apply deleteObj_keys in Hd. apply IH in H.
    cbn [app delete_keys flat_map delete_key]. fold (delete_keys s (tr1 ++ tr2)).
    rewrite delete_keys_app. destruct dry.
    + now rewrite Hd, H.
    + destruct Hd as (n & Hn & Hk). destruct H as (ns & Hl & Hall & Hb).
      exists (n :: ns). simpl. rewrite Hk, Hb.
      repeat split; auto; lia.
Qed.

Lemma delayDelFunc_order s keys dry :
  delayDelFunc s keys dry = delete_each s (deletion_order keys) dry.
Proof. destruct keys; reflexivity. Qed.

(** The deferred keys of one store are deleted in their order: nothing is
    called on a dry run; otherwise the [Delete] calls are those of the keys
    in the deletion order, each key one to three times in a row. *)
Definition deleted_in_order (s : side) (dry : bool) (keys : list string)
  (tr : list event) : Prop :=
  runs (delayDelFunc s keys dry) tr tt
  /\ if dry then delete_keys s tr = []
     else exists ns, List.length ns = List.length keys
                     /\ Forall (fun n => (1 <= n <= 3)%nat) ns
                     /\ delete_keys s tr = blocks (deletion_order keys) ns.

(** C9. In a run of [Sync] that is not a worker of a manager, everything
    the producer and the workers do comes before the deferred deletions;
    then the deferred keys of the source and those of the destination are
    deleted, each side in its deletion order. That order is the keys in
    descending order; for a set of keys (no key twice) it is strictly
    descending and every key comes before the keys it extends, children
    before parents. *)
Theorem deferred_deletions_descending (config : Config)
  (workers : prog (list string * list string)) (tr : list event) :
  Manager config = ""%string ->
  runs (Sync_end config workers) tr tt ->
  (exists tr_w srcDel dstDel tr_src tr_dst,
      tr = tr_w ++ tr_src ++ tr_dst
      /\ runs workers tr_w (srcDel, dstDel)
      /\ deleted_in_order Src (Dry config) srcDel tr_src
      /\ deleted_in_order Dst (Dry config) dstDel tr_dst)
  /\ (forall keys,
         Permutation keys (deletion_order keys)
         /\ StronglySorted (fun a b => Keys.le b a = true) (deletion_order keys)
         /\ (NoDup keys ->
             StronglySorted (fun a b => Keys.gt a b = true) (deletion_order keys)
             /\ forall parent child,
                 In parent keys -> In child keys ->
                 Keys.HasPrefix child parent = true -> parent <> child ->
                 before child parent (deletion_order keys))).
Proof.
  intros Hm H. split.
  - unfold Sync_end in H. run_bind H tr_w d tr2 Hw. rewrite Hm in H.
    cbn [String.eqb] in H. run_bind H tr_src x tr_dst Hs. destruct x, d as [srcDel dstDel].
    exists tr_w, srcDel, dstDel, tr_src, tr_dst. cbn [fst snd] in *.
    split; [reflexivity|]. split; [exact Hw|].
    split; (split; [assumption|]).
    + rewrite delayDelFunc_order in Hs. apply delete_each_keys in Hs.
      destruct (Dry config); [exact Hs|].
      destruct Hs as (ns & Hl & Hall & Hb). exists ns. repeat split; auto.
      rewrite Hl. unfold deletion_order. rewrite length_rev.
      symmetry. apply Permutation_length, sort_Strings_perm.
    + rewrite delayDelFunc_order in H. apply delete_each_keys in H.
      destruct (Dry config); [exact H|].
      destruct H as (ns & Hl & Hall & Hb). exists ns. repeat split; auto.
      rewrite Hl. unfold deletion_order. rewrite length_rev.
      symmetry. apply Permutation_length, sort_Strings_perm.
  - intros keys. split; [apply deletion_order_perm|].
    split; [apply deletion_order_descending|].
    intros Hn. split; [now apply deletion_order_strict|].
    intros parent child. now apply children_first.
Qed.

(** A run: the workers leave two source directories and one destination
    directory; every deletion succeeds at once. *)
Definition standalone : Config :=
  mkConfig "" "" false false false false true true true false false false
           (-1) false false false 1 1 "" [].

Definition deferred_run : list event :=
  [Ev (Incr "handled" 1) tt; Ev (Delete Src "a/b/") None; Ev (Incr "deleted" 1) tt;
   Ev (Incr "handled" 1) tt; Ev (Delete Src "a/") None; Ev (Incr "deleted" 1) tt;
   Ev (Incr "handled" 1) tt; Ev (Delete Dst "x/") None; Ev (Incr "deleted" 1) tt].

Lemma deferred_deletions_descending_witness :
  (exists tr_w srcDel dstDel tr_src tr_dst,
      deferred_run = tr_w ++ tr_src ++ tr_dst
      /\ runs (Ret (["a/"; "a/b/"]%string, ["x/"]%string)) tr_w (srcDel, dstDel)
      /\ deleted_in_order Src (Dry standalone) srcDel tr_src
      /\ deleted_in_order Dst (Dry standalone) dstDel tr_dst)
  /\ (forall keys,
         Permutation keys (deletion_order keys)
         /\ StronglySorted (fun a b => Keys.le b a = true) (deletion_order keys)
         /\ (NoDup keys ->
             StronglySorted (fun a b => Keys.gt a b = true) (deletion_order keys)
             /\ forall parent child,
                 In parent keys -> In child keys ->
                 Keys.HasPrefix child parent = true -> parent <> child ->
                 before child parent (deletion_order keys))).
Proof.
  apply (deferred_deletions_descending standalone
           (Ret (["a/"; "a/b/"]%string, ["x/"]%string)) deferred_run).
  - reflexivity.
  - unfold deferred_run.
    repeat (simpl; eexists; eexists; split; [reflexivity|]).
    simpl. split; reflexivity.
Defined.

End DelayDel.

(** ** The listing stream: [ListAll] *)

Module Listing.
Import Errors Prog.
Local Open Scope prog_scope.

(** How the scan of a page ends: the page is exhausted, with the values of
    [first] and [lastkey], or the stream ends ([break END]). *)
Inductive scan_end : Type :=
| PageDone (first : bool) (lastkey : string)
| StreamEnd.

(** The loop [for _, obj := range objs]: what it sends on [out]. *)
Fixpoint scan_page (end_ : string) (first : bool) (lastkey : string)
  (objs : list Obj) : list (option Obj) * scan_end :=
  match objs with
  | [] => ([], PageDone first lastkey)
  | obj :: rest =>
      if negb first && Keys.le (Key obj) lastkey then ([None], StreamEnd)
      else if negb (String.eqb end_ "") && Keys.gt (Key obj) end_ then ([], StreamEnd)
      else
        let '(out, e) := scan_page end_ false (Key obj) rest in
        (Some obj :: out, e)
  end.

Definition Millisecond : Z := 1000000.

(** for err != nil && count < 3: sleep, list again. *)
Fixpoint list_retry (k : nat) (s : side) (prefix marker token : string)
  (followLink : bool) (page : Page) : prog Page :=
  match pageErr page, k with
  | Some _, S k' =>
      _ <- call (Sleep (Millisecond * 100)) ;;
      p <- call (List s prefix marker token "" maxResults followLink) ;;
      list_retry k' s prefix marker token followLink p
  | _, _ => Ret page
  end.

(** if len(objs) > 0 && objs[0].Key() == marker { objs = objs[1:] } *)
Definition elide_marker (marker : string) (objs : list Obj) : list Obj :=
  match objs with
  | o :: rest => if String.eqb (Key o) marker then rest else objs
  | [] => objs
  end.

(** The goroutine of [ListAll] that pages through [List]: what it sends on
    [out], and whether it has closed [out]. [fuel] bounds the pages
    fetched; when it is used up the stream is not closed. *)
Fixpoint list_pages (fuel : nat) (s : side) (prefix end_ : string) (followLink : bool)
  (first : bool) (lastkey nextToken : string) (objs : list Obj) (hasMore : bool)
  : prog (list (option Obj) * bool) :=
  match scan_page end_ first lastkey objs with
  | (out, StreamEnd) => Ret (out, true)
  | (out, PageDone first' lastkey') =>
      if negb hasMore then Ret (out, true)
      else
        match fuel with
        | O => Ret (out, false)
        | S fuel' =>
            let marker := lastkey' in
            p <- call (List s prefix marker nextToken "" maxResults followLink) ;;
            p <- list_retry 3 s prefix marker nextToken followLink p ;;
            match pageErr p with
            | Some _ =>
                (* Telling that the listing has failed *)
                Ret (out ++ [None], true)
            | None =>
                r <- list_pages fuel' s prefix end_ followLink first' lastkey'
                       (Prog.nextToken p) (elide_marker marker (Prog.objs p))
                       (Prog.hasMore p) ;;
                Ret (out ++ fst r, snd r)
            end
        end
  end.

(** The goroutine over the channel of the store's own [ListAll]. *)
Fixpoint forward_until (end_ : string) (ch : list (option Obj)) : list (option Obj) :=
  match ch with
  | [] => []
  | obj :: rest =>
      match obj with
      | Some o =>
          if negb (String.eqb end_ "") && Keys.gt (Key o) end_ then []
          else obj :: forward_until end_ rest
      | None => obj :: forward_until end_ rest
      end
  end.

(** [ListAll]: an error, or what is sent on [out] and whether [out] is
    closed. *)
Definition ListAll (fuel : nat) (s : side) (prefix start end_ : string)
  (followLink : bool) : prog (error + list (option Obj) * bool) :=
  found <-
    (if negb (String.eqb start "") && Keys.HasPrefix start prefix then
       h <- call (Head s start) ;;
       match h with
       | inr obj => Ret [Some obj]
       | inl _ => Ret []
       end
     else Ret []) ;;
  native <- call (StoreListAll s prefix start followLink) ;;
  match native with
  | inr ch => Ret (inr (found ++ forward_until end_ ch, true))
  | inl err =>
      if negb (is_ENOTSUP err) then Ret (inl err)
      else
        p <- call (List s prefix start "" "" maxResults followLink) ;;
        match pageErr p with
        | Some e =>
            if is_ENOTSUP e then
              d <- call (ListAllWithDelimiter s prefix start end_ followLink) ;;
              match d with
              | inr ch => Ret (inr (ch, true))
              | inl e' => Ret (inl e')
              end
            else Ret (inl e)
        | None =>
            r <- list_pages fuel s prefix end_ followLink true "" (Prog.nextToken p)
                   (Prog.objs p) (Prog.hasMore p) ;;
            Ret (inr (found ++ fst r, snd r))
        end
  end.

(** *** The paging stream is strictly ascending *)

(** The keys of the descriptors of a stream. *)
Definition keys_of (out : list (option Obj)) : list string :=
  flat_map (fun o => match o with Some x => [Key x] | None => [] end) out.

(** A nil descriptor is the last one of the stream. *)
Definition sentinel_last (out : list (option Obj)) : Prop :=
  forall l1 l2, out = l1 ++ None :: l2 -> l2 = [].

(** What [first] and [lastkey] say of the keys sent so far. *)
Definition tracks (first : bool) (lastkey : string) (sent : list string) : Prop :=
  if first then sent = []
  else Forall (fun k => Keys.le k lastkey = true) sent.

Lemma keys_of_app a b : keys_of (a ++ b) = keys_of a ++ keys_of b.
Proof. apply flat_map_app. Qed.

Lemma le_lt_trans a b c : Keys.le a b = true -> Keys.lt b c = true -> Keys.lt a c = true.
Proof.
  rewrite Keys.le_lt_or_eq. intros [H| ->] H2; [|exact H2].
  eapply Keys.lt_trans; eauto.
Qed.

Lemma le_refl a : Keys.le a a = true.
Proof. apply Keys.le_lt_or_eq. now right. Qed.

Lemma sentinel_last_cons o out :
  sentinel_last out -> sentinel_last (Some o :: out).
Proof.
  intros H l1 l2 E. destruct l1 as [|x l1]; [discriminate|].
  injection E as _ E. eapply H; eauto.
Qed.

Lemma scan_page_sound end_ : forall objs first lastkey out e sent,
  scan_page end_ first lastkey objs = (out, e) ->
  tracks first lastkey sent -> Keys.ascending sent ->
  Keys.ascending (sent ++ keys_of out)
  /\ sentinel_last out
  /\ match e with
     | PageDone first' lastkey' =>
         tracks first' lastkey' (sent ++ keys_of out) /\ ~ In None out
     | StreamEnd => True
     end.
Proof.
  intros objs.
  induction objs as [|obj rest IH]; intros first lastkey out e sent H Ht Hs.
  - injection H as <- <-. simpl. rewrite app_nil_r.
    split; [exact Hs|]. split; [intros l1 l2 E; destruct l1; discriminate|].
    split; [exact Ht|]. intros F. contradiction.
  - cbn [scan_page] in H.
    destruct (negb first && Keys.le (Key obj) lastkey) eqn:B1.
    { injection H as <- <-. simpl. rewrite app_nil_r.
      split; [exact Hs|]. split; [|exact I].
      intros l1 l2 E. destruct l1 as [|x l1]; [now injection E|].
      injection E as _ E. destruct l1; discriminate. }
    destruct (negb (String.eqb end_ "") && Keys.gt (Key obj) end_).
    { injection H as <- <-. simpl. rewrite app_nil_r.
      split; [exact Hs|]. split; [|exact I].
      intros l1 l2 E. destruct l1; discriminate. }
    destruct (scan_page end_ false (Key obj) rest) as [out' e'] eqn:E.
    injection H as <- <-.
    assert (Hnew : Forall (fun k => Keys.lt k (Key obj) = true) sent).
    { unfold tracks in Ht. destruct first; [subst; constructor|].
      simpl in B1. eapply Forall_impl; [|exact Ht]. intros k Hk.
      eapply le_lt_trans; [exact Hk|].
      apply Keys.le_false_gt in B1. exact B1. }
    specialize (IH false (Key obj) out' e' (sent ++ [Key obj]) E).
    destruct IH as (A & S & T).
    + unfold tracks. apply Forall_app. split.
      * eapply Forall_impl; [|exact Hnew]. intros k Hk.
        apply Keys.le_lt_or_eq. now left.
      * repeat constructor. apply le_refl.
    + now apply DelayDel.StronglySorted_snoc.
    + change (keys_of (Some obj :: out')) with (Key obj :: keys_of out').
      rewrite <- app_assoc in A, T. simpl in A, T.
      split; [exact A|]. split; [now apply sentinel_last_cons|].
      destruct e'; [|exact I]. destruct T as [T1 T2]. split; [exact T1|].
      intros [F|F]; [discriminate|contradiction].
Qed.

Lemma sentinel_last_app out1 out2 :
  ~ In None out1 -> sentinel_last out2 -> sentinel_last (out1 ++ out2).
Proof.
  intros H1 H2 l1 l2 E.
  revert l1 E. induction out1 as [|x out1 IH]; intros l1 E; simpl in *.
  - eapply H2; eauto.
  - destruct l1 as [|y l1]; simpl in E.
    + injection E as -> _. exfalso. apply H1. now left.
    + injection E as _ E. eapply IH; eauto.
Qed.

Lemma list_pages_sound : forall fuel s prefix end_ followLink first lastkey token
                                objs hasMore tr out closed sent,
  runs (list_pages fuel s prefix end_ followLink first lastkey token objs hasMore)
       tr (out, closed) ->
  tracks first lastkey sent -> Keys.ascending sent ->
  Keys.ascending (sent ++ keys_of out)
  /\ sentinel_last out
  /\ (In None out -> closed = true).
Proof.
  induction fuel as [|fuel IH];
    intros s prefix end_ followLink first lastkey token objs hasMore tr out closed
           sent H Ht Hs;
    cbn [list_pages] in H;
    destruct (scan_page end_ first lastkey objs) as [out0 e] eqn:E;
    pose proof (scan_page_sound end_ objs first lastkey out0 e sent E Ht Hs)
      as (A0 & S0 & T0).
  - destruct e as [first' lastkey'|].
    + destruct T0 as [T0 N0]. destruct (negb hasMore);
        apply runs_ret in H; destruct H as [_ H]; injection H as -> ->;
        (split; [exact A0|]; split; [exact S0|]; intros F; contradiction).
    + apply runs_ret in H. destruct H as [_ H]. injection H as -> ->. auto.
  - destruct e as [first' lastkey'|].
    + destruct T0 as [T0 N0]. destruct (negb hasMore).
      { apply runs_ret in H. destruct H as [_ H]. injection H as -> ->. auto. }
      apply runs_bind in H. destruct H as (t1 & p0 & t2 & _ & H & ->).
      apply runs_bind in H. destruct H as (t3 & p & t4 & _ & H & ->).
      destruct (pageErr p).
      * apply runs_ret in H. destruct H as [_ H]. injection H as -> ->.
        rewrite keys_of_app. simpl. rewrite app_nil_r.
        split; [exact A0|]. split; [|auto].
        apply sentinel_last_app; [exact N0|].
        intros l1 l2 E2. destruct l1 as [|x l1]; [now injection E2|].
        injection E2 as _ E2. destruct l1; discriminate.
      * apply runs_bind in H. destruct H as (t5 & r & t6 & Hr & H & ->).
        apply runs_ret in H. destruct H as [_ H]. injection H as -> ->.
        destruct r as [out1 closed1]. simpl.
        eapply IH in Hr; [|exact T0|exact A0].
        destruct Hr as (A1 & S1 & C1).
        rewrite keys_of_app, app_assoc. split; [exact A1|].
        split; [now apply sentinel_last_app|].
        intros F. apply in_app_or in F. destruct F as [F|F]; [contradiction|auto].
    + apply runs_ret in H. destruct H as [_ H]. injection H as -> ->. auto.
Qed.

Lemma scan_page_app end_ : forall pre rest first lastkey,
  scan_page end_ first lastkey (pre ++ rest) =
    match scan_page end_ first lastkey pre with
    | (out1, PageDone first' lastkey') =>
        (out1 ++ fst (scan_page end_ first' lastkey' rest),
         snd (scan_page end_ first' lastkey' rest))
    | (out1, StreamEnd) => (out1, StreamEnd)
    end.
Proof.
  induction pre as [|obj pre IH]; intros rest first lastkey.
  - simpl. now destruct (scan_page end_ first lastkey rest).
  - cbn [app scan_page].
    destruct (negb first && Keys.le (Key obj) lastkey); [reflexivity|].
    destruct (negb (String.eqb end_ "") && Keys.gt (Key obj) end_); [reflexivity|].
    rewrite IH. destruct (scan_page end_ false (Key obj) pre) as [out1 [f' l'|]];
      reflexivity.
Qed.

(** *** A key out of order is fatal *)

(** The keys that precede [ks] on the stream and [ks]: [lastkey] is the
    last key sent, once a descriptor has been sent. *)
Definition after (first : bool) (lastkey : string) (ks : list string) : list string :=
  if first then ks else lastkey :: ks.

(** No key of [l] is beyond [end_]: [end != "" && key > end] is false. *)
Definition within (end_ : string) (l : list Obj) : Prop :=
  Forall (fun o => negb (String.eqb end_ "") && Keys.gt (Key o) end_ = false) l.

Lemma lt_le_false a b : Keys.lt a b = true -> Keys.le b a = false.
Proof. intros H. apply Keys.le_false_gt. exact H. Qed.

Lemma last_cons {A} (l : list A) : forall a d, last (a :: l) d = last l a.
Proof.
  induction l as [|b l IH]; intros a d; [reflexivity|].
  change (last (a :: b :: l) d) with (last (b :: l) d).
  now rewrite (IH b d), (IH b a).
Qed.

Lemma ascending_after_cons first lastkey k ks :
  Keys.ascending (after first lastkey (k :: ks)) ->
  Keys.ascending (after false k ks)
  /\ (first = false -> Keys.lt lastkey k = true).
Proof.
  destruct first; simpl; intros H.
  - split; [exact H|discriminate].
  - inversion H as [|? ? H1 H2]; subst. split; [exact H1|].
    intros _. now inversion H2.
Qed.

(** A page in order and within the bound is sent as it is. *)
Lemma scan_page_in_order end_ : forall pre first lastkey,
  Keys.ascending (after first lastkey (map Key pre)) ->
  within end_ pre ->
  scan_page end_ first lastkey pre =
    (map Some pre,
     PageDone (first && match pre with [] => true | _ => false end)
              (last (map Key pre) lastkey)).
Proof.
  intros pre. induction pre as [|obj rest IH]; intros first lastkey Ha Hw.
  - simpl. now rewrite andb_true_r.
  - cbn [scan_page]. inversion Hw as [|? ? Hw1 Hw2]; subst.
    simpl map in Ha. apply ascending_after_cons in Ha. destruct Ha as [Ha Hlt].
    assert (B1 : negb first && Keys.le (Key obj) lastkey = false).
    { destruct first; [reflexivity|]. simpl. apply lt_le_false. now apply Hlt. }
    rewrite B1, Hw1, (IH false (Key obj) Ha Hw2).
    simpl map. now rewrite andb_false_r, last_cons.
Qed.

(** The first key at or below the key before it ends the scan with the nil
    descriptor. *)
Lemma scan_page_out_of_order end_ pre o post first lastkey :
  Keys.ascending (after first lastkey (map Key pre)) ->
  within end_ pre ->
  first = false \/ pre <> [] ->
  Keys.le (Key o) (last (map Key pre) lastkey) = true ->
  scan_page end_ first lastkey (pre ++ o :: post) = (map Some pre ++ [None], StreamEnd).
Proof.
  intros Ha Hw Hf Hle.
  rewrite scan_page_app, (scan_page_in_order end_ pre first lastkey Ha Hw).
  cbn [scan_page fst snd].
  assert (F : first && match pre with [] => true | _ => false end = false).
  { destruct Hf as [-> | Hf]; [reflexivity|].
    destruct pre; [congruence|apply andb_false_r]. }
  rewrite F, Hle. reflexivity.
Qed.

(** C4 as the specification words it, for the goroutine that has last sent
    [lastkey] and asks for the next page: when the page [p] that [List]
    returns holds a key at or below [lastkey], the goroutine sends the nil
    descriptor and closes the stream. *)
Definition out_of_order_is_fatal (lastkey : string) (p : Page) : Prop :=
  (exists o, In o (Prog.objs p) /\ Keys.le (Key o) lastkey = true) ->
  forall fuel s prefix end_ followLink token tr out closed,
    runs (list_pages (S fuel) s prefix end_ followLink false lastkey token [] true)
         (Ev (List s prefix lastkey token "" maxResults followLink) p :: tr)
         (out, closed) ->
    In None out /\ closed = true.

Definition key_a : Obj := MergerClaims.file "a" 1 0.
Definition key_b : Obj := MergerClaims.file "b" 1 0.

(** A store without [ListAll] whose [List] returns the marker key again at
    the head of the second page. *)
Definition page1 : Page := mkPage [key_a] true "t1" None.
Definition page2 : Page := mkPage [key_a; key_b] false "" None.

Definition marker_again : list event :=
  [Ev (StoreListAll Src "" "" false) (inl (Errno ENOTSUP));
   Ev (List Src "" "" "" "" maxResults false) page1;
   Ev (List Src "" "a" "t1" "" maxResults false) page2].

(** The second page returns the key [a], equal to the last key sent:
    [ListAll] drops it, sends [b] and closes the stream without any nil
    descriptor. *)
Lemma marker_key_is_not_fatal :
  runs (ListAll 1 Src "" "" "" false) marker_again
       (inr ([Some key_a; Some key_b], true))
  /\ ~ out_of_order_is_fatal "a" page2.
Proof.
  split.
  - repeat (simpl; eexists; eexists; split; [reflexivity|]).
    simpl. split; reflexivity.
  - intros H.
    assert (E : exists o, In o (Prog.objs page2) /\ Keys.le (Key o) "a" = true).
    { exists key_a. split; [now left|reflexivity]. }
    specialize (H E O Src ""%string ""%string false "t1"%string [] [Some key_b] true).
    destruct H as [F _].
    + repeat (simpl; eexists; eexists; split; [reflexivity|]).
      simpl. split; reflexivity.
    + destruct F as [F|F]; [discriminate|contradiction].
Qed.

(** The start key that the separate [Head] finds is sent before the
    goroutine starts and is not checked: a store whose [List] returns the
    marker in its first page makes [ListAll] send the start key twice. *)
Remark start_key_is_not_checked :
  runs (ListAll 0 Src "" "a" "" false)
       [Ev (Head Src "a") (inr key_a);
        Ev (StoreListAll Src "" "a" false) (inl (Errno ENOTSUP));
        Ev (List Src "" "a" "" "" maxResults false)
           (mkPage [key_a; key_b] false "" None)]
       (inr ([Some key_a; Some key_a; Some key_b], true))
  /\ ~ Keys.ascending (keys_of [Some key_a; Some key_a; Some key_b]).
Proof.
  split.
  - repeat (simpl; eexists; eexists; split; [reflexivity|]).
    simpl. split; reflexivity.
  - intros H. inversion H as [|? ? _ F]; subst.
    inversion F as [|? ? E _]; subst. discriminate E.
Qed.

(** C4, amended. The stream of the paging goroutine of [ListAll], in any of
    its states ([first], [lastkey], the page [objs] at hand): the keys it
    sends are strictly ascending, and above [lastkey] once a descriptor has
    been sent; a nil descriptor is the last one sent and the stream is then
    closed; and when the page at hand, in order and within the [end] bound
    up to [pre], continues with a key [o] at or below the key before it,
    the goroutine sends [pre], then the nil descriptor, and closes the
    stream without asking for another page.  A continuation page comes to
    this scan with a first key equal to the marker removed. *)
Theorem list_pages_strictly_ascending fuel s prefix end_ followLink first lastkey
    token objs hasMore :
  (forall tr out closed,
      runs (list_pages fuel s prefix end_ followLink first lastkey token objs hasMore)
           tr (out, closed) ->
      Keys.ascending (after first lastkey (keys_of out))
      /\ sentinel_last out
      /\ (In None out -> closed = true))
  /\ (forall pre o post,
      objs = pre ++ o :: post ->
      Keys.ascending (after first lastkey (map Key pre)) ->
      within end_ pre ->
      first = false \/ pre <> [] ->
      Keys.le (Key o) (last (map Key pre) lastkey) = true ->
      list_pages fuel s prefix end_ followLink first lastkey token objs hasMore
      = Ret (map Some pre ++ [None], true)).
Proof.
  split.
  - intros tr out closed H.
    destruct (list_pages_sound fuel s prefix end_ followLink first lastkey token
                objs hasMore tr out closed (after first lastkey []) H)
      as (A & Sl & C).
    + destruct first; simpl; [reflexivity|]. repeat constructor. apply le_refl.
    + destruct first; simpl; repeat constructor.
    + split; [|split; assumption]. now destruct first.
  - intros pre o post -> Ha Hw Hf Hle.
    destruct fuel; cbn [list_pages];
      now rewrite (scan_page_out_of_order end_ pre o post first lastkey Ha Hw Hf Hle).
Qed.

Definition key_c : Obj := MergerClaims.file "c" 1 0.
Definition key_d : Obj := MergerClaims.file "d" 1 0.

Lemma list_pages_strictly_ascending_witness :
  (Keys.ascending (after false "b" (map Key [key_c]))
   /\ within "" [key_c]
   /\ Keys.le (Key key_a) (last (map Key [key_c]) "b"%string) = true)
  /\ list_pages 1 Src "" "" false false "b" "" [key_c; key_a; key_d] true
     = Ret ([Some key_c; None], true).
Proof.
  split.
  - repeat split; repeat constructor.
  - apply (proj2 (list_pages_strictly_ascending 1%nat Src ""%string ""%string false
                    false "b"%string ""%string [key_c; key_a; key_d] true)
                 [key_c] key_a [key_d]).
    + reflexivity.
    + repeat constructor.
    + repeat constructor.
    + now left.
    + reflexivity.
Defined.

End Listing.

(** ** The merger keeps the flags, and decides against nil on an empty
    destination *)

Module MergerFlags.
Import Merger MergerFacts MergerSpec.

Ltac split_let name :=
  match goal with
  | |- context [match ?X with pair _ _ => _ end] =>
      destruct X as [[? ?] ?] eqn:name
  end.

Lemma handleExtraObject_flags c d stop c' ev :
  handleExtraObject c d = (stop, c', ev) -> same_flags c c'.
Proof.
  unfold handleExtraObject.
  destruct (negb (DeleteDst c) || (negb (Dirs c) && IsDir d) || (Limit c =? 0));
    intros H; injection H as _ <- _; [apply same_flags_refl|apply same_flags_dec].
Qed.

Lemma advance_flags obj : forall D c s c' ev,
  advance c obj D = (s, c', ev) -> same_flags c c'.
Proof.
  induction D as [|[d|] D IH]; intros c s c' ev; simpl.
  - intros H; injection H as _ <- _. apply same_flags_refl.
  - destruct (Keys.le (Key obj) (Key d)).
    + intros H; injection H as _ <- _. apply same_flags_refl.
    + destruct (handleExtraObject c d) as [[stop c1] ev1] eqn:E1.
      apply handleExtraObject_flags in E1. destruct stop.
      * intros H; injection H as _ <- _. exact E1.
      * destruct (advance c1 obj D) as [[s2 c2] ev2] eqn:E2.
        apply IH in E2. intros H; injection H as _ <- _.
        eapply same_flags_trans; eauto.
  - intros H; injection H as _ <- _. apply same_flags_refl.
Qed.

Lemma drain_flags : forall D c r c' ev,
  drain c D = (r, c', ev) -> same_flags c c'.
Proof.
  induction D as [|[d|] D IH]; intros c r c' ev; simpl.
  - intros H; injection H as _ <- _. apply same_flags_refl.
  - destruct (handleExtraObject c d) as [[stop c1] ev1] eqn:E1.
    apply handleExtraObject_flags in E1. destruct stop.
    + intros H; injection H as _ <- _. exact E1.
    + destruct (drain c1 D) as [[r2 c2] ev2] eqn:E2.
      apply IH in E2. intros H; injection H as _ <- _.
      eapply same_flags_trans; eauto.
  - intros H; injection H as _ <- _. apply same_flags_refl.
Qed.

Lemma finish_flags c b D r c' ev :
  finish c b D = (r, c', ev) -> same_flags c c'.
Proof.
  unfold finish. destruct (DeleteDst c).
  - destruct b as [d|]; [|apply drain_flags].
    destruct (handleExtraObject c d) as [[stop c1] ev1] eqn:E1.
    apply handleExtraObject_flags in E1. destruct stop.
    + intros H; injection H as _ <- _. exact E1.
    + destruct (drain c1 D) as [[r2 c2] ev2] eqn:E2.
      apply drain_flags in E2. intros H; injection H as _ <- _.
      eapply same_flags_trans; eauto.
  - intros H; injection H as _ <- _. apply same_flags_refl.
Qed.

Lemma merge_flags : forall S c b D r c' ev,
  merge c b D S = (r, c', ev) -> same_flags c c'.
Proof.
  induction S as [|[obj|] S IH]; intros c b D r c' ev; cbn [merge].
  - apply finish_flags.
  - destruct (negb (Dirs c) && IsDir obj); [apply IH|].
    destruct ((Limit c >=? 0) && (Limit c =? 0)).
    { intros H; injection H as _ <- _. apply same_flags_refl. }
    set (c1 := if Limit c >=? 0 then dec_Limit c else c).
    assert (F1 : same_flags c c1).
    { unfold c1. destruct (Limit c >=? 0); [apply same_flags_dec|apply same_flags_refl]. }
    split_let E1.
    assert (F2 : same_flags c1 c0).
    { destruct b as [d|].
      - destruct (Keys.gt (Key obj) (Key d)).
        + destruct (handleExtraObject c1 d) as [[stop cx] evx] eqn:Ex.
          apply handleExtraObject_flags in Ex.
          destruct stop; injection E1 as _ <- _; exact Ex.
        + injection E1 as _ <- _. apply same_flags_refl.
      - injection E1 as _ <- _. apply same_flags_refl. }
    destruct s as [r1|dstobj1 dstkeys1].
    { intros H; injection H as _ <- _. eapply same_flags_trans; eauto. }
    split_let E2.
    assert (F3 : same_flags c0 c2).
    { destruct dstobj1.
      - injection E2 as _ <- _. apply same_flags_refl.
      - now apply advance_flags in E2. }
    destruct s as [r2|dstobj2 dstkeys2].
    { intros H; injection H as _ <- _.
      eapply same_flags_trans; [exact F1|]. eapply same_flags_trans; eauto. }
    destruct (decide c2 obj dstobj2) as [ev3 dstobj3].
    destruct (merge c2 dstobj3 dstkeys2 S) as [[r4 c4] ev4] eqn:E4.
    apply IH in E4. intros H; injection H as _ <- _.
    eapply same_flags_trans; [exact F1|]. eapply same_flags_trans; [exact F2|].
    eapply same_flags_trans; eauto.
  - intros H; injection H as _ <- _. apply same_flags_refl.
Qed.

Lemma produce_flags keep c S D r c' ev :
  produce keep c S D = (r, c', ev) -> same_flags c c'.
Proof. apply merge_flags. Qed.

(** An event of a merger that decides every key against nil: the count of
    a source key, or the decision of the table for it with no destination
    descriptor. *)
Definition nil_decision (c : Config) (S : list (option Obj)) (e : event) : Prop :=
  e = EvTotal
  \/ exists o, In (Some o) S /\ e = decision_event o (decision_table c o None).

Lemma nil_decision_flags c c' S e :
  same_flags c c' -> nil_decision c' S e -> nil_decision c S e.
Proof. intros ->. exact (fun H => H). Qed.

Lemma nil_decision_cons c x S e : nil_decision c S e -> nil_decision c (x :: S) e.
Proof.
  intros [H|(o & Hin & H)]; [now left|]. right. exists o. split; [now right|exact H].
Qed.

(** On an empty destination stream every event of [merge] is a decision
    against nil; with a limit that is not positive the configuration is
    left as it is. *)
Lemma merge_empty_dst : forall S c r c' ev,
  merge c None [] S = (r, c', ev) ->
  Forall (nil_decision c S) ev /\ (Limit c <= 0 -> c' = c).
Proof.
  induction S as [|[obj|] S IH]; intros c r c' ev; cbn [merge].
  - unfold finish. destruct (DeleteDst c); simpl;
      intros H; injection H as _ <- <-; split; auto.
  - destruct (negb (Dirs c) && IsDir obj).
    { intros H. apply IH in H. destruct H as [H1 H2]. split; [|exact H2].
      eapply Forall_impl; [|exact H1]. intros e. apply nil_decision_cons. }
    destruct ((Limit c >=? 0) && (Limit c =? 0)) eqn:L0.
    { intros H; injection H as _ <- <-. split; auto. }
    set (c1 := if Limit c >=? 0 then dec_Limit c else c).
    assert (F1 : same_flags c c1).
    { unfold c1. destruct (Limit c >=? 0); [apply same_flags_dec|apply same_flags_refl]. }
    assert (Z1 : Limit c <= 0 -> c1 = c).
    { intros Hle. unfold c1. destruct (Limit c >=? 0) eqn:G; [|reflexivity].
      simpl in L0. apply Z.eqb_neq in L0. rewrite Z.geb_leb in G.
      apply Z.leb_le in G. lia. }
    assert (D3 : nil_decision c (Some obj :: S)
                   (if Existing c1 then EvSkip obj else EvTask (Plain obj))).
    { right. exists obj. split; [now left|].
      rewrite F1. simpl. destruct (Existing c); reflexivity. }
    cbn [advance decide].
    destruct (Existing c1) eqn:Ex;
      destruct (merge c1 None [] S) as [[r4 c4] ev4] eqn:E4;
      apply IH in E4; destruct E4 as [H1 H2];
      intros H; injection H as _ <- <-;
      (split; [|intros Hle; rewrite <- (Z1 Hle); apply H2; rewrite (Z1 Hle); exact Hle]);
      (constructor; [now left|]); simpl;
      (constructor; [exact D3|]);
      (eapply Forall_impl; [|exact H1]); intros e He;
      apply nil_decision_cons; eapply nil_decision_flags; eauto.
  - intros H; injection H as _ <- <-. split; auto.
Qed.

Lemma filter_In keep o : forall S, In (Some o) (filter keep S) -> In (Some o) S.
Proof.
  induction S as [|[x|] S IH]; simpl; intros H.
  - exact H.
  - destruct (keep x); [destruct H as [H|H]; [now left|]|]; right; now apply IH.
  - destruct H as [H|H]; [discriminate|contradiction].
Qed.

(** [produce] on an empty destination stream. *)
Lemma produce_empty_dst keep c S r c' ev :
  produce keep c S [] = (r, c', ev) ->
  Forall (nil_decision c S) ev
  /\ List.filter is_dst_event ev = []
  /\ same_flags c c'
  /\ (Limit c <= 0 -> c' = c).
Proof.
  intros H. pose proof (produce_flags _ _ _ _ _ _ _ H) as F.
  unfold produce in H. simpl in H. apply merge_empty_dst in H.
  destruct H as [H1 H2].
  assert (N : Forall (nil_decision c S) ev).
  { eapply Forall_impl; [|exact H1]. intros e [He|(o & Hin & He)]; [now left|].
    right. exists o. split; [now apply (filter_In keep)|exact He]. }
  split; [exact N|]. split; [|split; assumption].
  clear -N. induction N as [|e ev He _ IH]; [reflexivity|]. simpl.
  destruct He as [-> |(o & _ & ->)]; [exact IH|].
  now rewrite decision_event_dst.
Qed.

End MergerFlags.

(** ** The producers: [produceSingleObject], [startSingleProducer],
    [listCommonPrefix] and [startProducer] *)

Module Producer.
Import Errors Prog Listing.
Local Open Scope prog_scope.

(** strings.HasSuffix(s, suffix) *)
Definition HasSuffix (s suffix : string) : bool :=
  (String.length suffix <=? String.length s)%nat
  && String.eqb (substring (String.length s - String.length suffix)
                           (String.length suffix) s) suffix.

(** What a producer hands to [produce]: the configuration at the call and
    the two streams. *)
Record feed : Type := mkFeed {
  fed_config : Config;
  fed_src : list (option Obj);
  fed_dst : list (option Obj)
}.

(** How a producer ends: it returns [err], or it waits on a listing that
    has not ended when the pages allowed are used up. *)
Inductive outcome : Type :=
| Return (err : option error)
| Pending.

Definition ignoreDir : error := Errorf "ignore dir".

(** The schemes that [listCommonPrefix] lists without a bound. *)
Definition unbounded_schemes : list string :=
  ["file://"; "nfs://"; "gluster://"; "jfs://"; "hdfs://"; "webdav://"]%string.

(** The loop of [listCommonPrefix] over the pages of a delimited listing;
    [None] when the pages allowed are used up. *)
Fixpoint list_delimited (n : nat) (s : side) (prefix marker token : string)
  (max : Z) (followLink : bool) (total : list Obj) : prog (error + option (list Obj)) :=
  p <- call (List s prefix marker token "/" max followLink) ;;
  match pageErr p with
  | Some err => Ret (inl err)
  | None =>
      let total' := total ++ Prog.objs p in
      let marker' := match Prog.objs p with
                     | [] => marker
                     | o :: rest => Key (last rest o)
                     end in
      if negb (Prog.hasMore p) then Ret (inr (Some total'))
      else
        match n with
        | O => Ret (inr None)
        | S n' => list_delimited n' s prefix marker' (Prog.nextToken p) max followLink total'
        end
  end.

(** o.IsDir() && o.Key() > prefix *)
Definition is_common_prefix (prefix : string) (o : Obj) : bool :=
  IsDir o && Keys.gt (Key o) prefix.

(** [listCommonPrefix]: the keys of the level and what is sent on [cp];
    [cp] tells whether the channel is not nil. [store.String()] is asked
    once. *)
Definition listCommonPrefix (n : nat) (s : side) (prefix : string) (cp : bool)
  (followLink : bool) : prog (error + option (list Obj * list Obj)) :=
  name <- call (StoreString s) ;;
  let thisListMaxResults :=
    if existsb (fun scheme => Keys.HasPrefix name scheme) unbounded_schemes
    then max_int64 else maxResults in
  l <- list_delimited n s prefix "" "" thisListMaxResults followLink [] ;;
  match l with
  | inl err => Ret (inl err)
  | inr None => Ret (inr None)
  | inr (Some total) =>
      Ret (inr (Some (List.filter (fun o => negb (is_common_prefix prefix o)) total,
                      if cp then List.filter (is_common_prefix prefix) total else [])))
  end.

Section Producers.

(** [filterKey] and [matchLeveledPath] of the rule engine, and the pages a
    listing may fetch. *)
Variable keep : Obj -> bool.
Variable matchLeveledPath : list rule -> string -> bool.
Variable fuel : nat.

(** The call [produce(tasks, srckeys, dstkeys, config)] on closed streams:
    its error, the configuration it leaves, and what it was fed. *)
Definition run_produce (config : Config) (srckeys dstkeys : list (option Obj))
  : option error * Config * list feed :=
  let '(r, config', _) := Merger.produce keep config srckeys dstkeys in
  (match r with
   | Merger.RetNil => None
   | Merger.RetErr msg => Some (Errorf msg)
   end, config', [mkFeed config srckeys dstkeys]).

(** The events of the merger on a feed. *)
Definition events_of_feed (f : feed) : list Merger.event :=
  snd (Merger.produce keep (fed_config f) (fed_src f) (fed_dst f)).

Definition produceSingleObject (key : string) (config : Config)
  : prog (option error * Config * list feed) :=
  h <- call (Head Src key) ;;
  match h with
  | inr obj =>
      if negb (IsDir obj) || (IsSymlink obj && Links config)
         || (IsDir obj && Dirs config && HasSuffix key "/")
      then
        d <- call (Head Dst key) ;;
        match d with
        | inr dobj =>
            let '(_, config', fed) := run_produce config [Some obj] [Some dobj] in
            Ret (None, config', fed)
        | inl e =>
            if is_not_exist e then
              let '(_, config', fed) := run_produce config [Some obj] [] in
              Ret (None, config', fed)
            else Ret (Some e, config, [])
        end
      else Ret (Some ignoreDir, config, [])
  | inl err => Ret (Some err, config, [])
  end.

(** fmt.Errorf("list %s: %s", store, err) *)
Definition list_error (s : side) (what : string) (err : error) : prog error :=
  name <- call (StoreString s) ;;
  Ret (Errorf ("list " ++ name ++ what ++ ": " ++ ErrorText err)%string).

Definition startSingleProducer (prefix : string) (config : Config)
  : prog (outcome * Config * list feed) :=
  let start := Start config in
  let end_ := End config in
  s <- ListAll fuel Src prefix start end_ (negb (Links config)) ;;
  match s with
  | inl err =>
      e <- list_error Src "" err ;;
      Ret (Return (Some e), config, [])
  | inr (srckeys, srcclosed) =>
      d <- (if ForceUpdate config then Ret (inr ([], true))
            else ListAll fuel Dst prefix start end_ (negb (Links config))) ;;
      match d with
      | inl err =>
          e <- list_error Dst "" err ;;
          Ret (Return (Some e), config, [])
      | inr (dstkeys, dstclosed) =>
          if srcclosed && dstclosed then
            let '(err, config', fed) := run_produce config srckeys dstkeys in
            Ret (Return err, config', fed)
          else Ret (Pending, config, [])
      end
  end.

Section Prefixes.

(** [startProducer] one level down. *)
Variable deeper : string -> Config -> prog (outcome * Config * list feed).

(** The goroutine over [commonPrefix]; the producers it starts are run to
    their end one after the other. *)
Fixpoint sub_producers (cps : list Obj) (processing : list string) (config : Config)
  : prog (Config * list feed) :=
  match cps with
  | [] => Ret (config, [])
  | c :: rest =>
      if existsb (String.eqb (Key c)) processing then
        sub_producers rest processing config
      else
        let processing' := Key c :: processing in
        if (0 <? Z.of_nat (List.length (rules config)))
           && negb (matchLeveledPath (rules config) (Key c))
        then sub_producers rest processing' config
        else if Keys.lt (Key c) (Start config)
        then sub_producers rest processing' config
        else if negb (String.eqb (End config) "") && Keys.gt (Key c) (End config)
        then sub_producers rest processing' config
        else
          r <- deeper (Key c) config ;;
          let '(out, config', fed) := r in
          _ <- match out with
               | Return (Some _) => call (Incr "failed" 1)
               | _ => Ret tt
               end ;;
          r' <- sub_producers rest processing' config' ;;
          Ret (fst r', fed ++ snd r')
  end.

(** The branch of [startProducer] that lists the level with a delimiter.
    The producers of the common prefixes run after the keys of the level. *)
Definition list_level (prefix : string) (config : Config)
  : prog (outcome * Config * list feed) :=
  l <- listCommonPrefix fuel Src prefix true (negb (Links config)) ;;
  match l with
  | inl err =>
      if Copy.eq_ENOTSUP err then startSingleProducer prefix config
      else
        e <- list_error Src " with delimiter" err ;;
        Ret (Return (Some e), config, [])
  | inr None => Ret (Pending, config, [])
  | inr (Some (srckeys, srccp)) =>
      d <- (if ForceUpdate config then Ret (inr (Some ([], [])))
            else listCommonPrefix fuel Dst prefix (DeleteDst config)
                   (negb (Links config))) ;;
      level <-
        match d with
        | inl err =>
            if Copy.eq_ENOTSUP err then
              r <- startSingleProducer prefix config ;;
              Ret (r, [])
            else
              e <- list_error Dst " with delimiter" err ;;
              Ret ((Return (Some e), config, []), [])
        | inr None => Ret ((Pending, config, []), [])
        | inr (Some (dstkeys, dstcp)) =>
            let '(err, config', fed) :=
              run_produce config (map Some srckeys) (map Some dstkeys) in
            Ret ((Return err, config', fed), dstcp)
        end ;;
      let '((out, config1, fed), dstcp) := level in
      subs <- sub_producers (srccp ++ dstcp) [] config1 ;;
      Ret (out, fst subs, fed ++ snd subs)
  end.

End Prefixes.

(** The body of [startProducer]; [deeper] is [startProducer] with
    [listDepth - 1] when [listDepth > 0]. The semaphore [concurrentList]
    is left out. *)
Definition producer_body
  (deeper : option (string -> Config -> prog (outcome * Config * list feed)))
  (prefix : string) (config : Config) : prog (outcome * Config * list feed) :=
  let listing (config : Config) : prog (outcome * Config * list feed) :=
    match deeper with
    | None => startSingleProducer prefix config
    | Some rec =>
        if ListThreads config <=? 1 then startSingleProducer prefix config
        else list_level rec prefix config
    end in
  if (Limit config =? 1) && (Z.of_nat (List.length (rules config)) =? 0) then
    r <- produceSingleObject prefix config ;;
    match r with
    | (None, config', fed) => Ret (Return None, config', fed)
    | (Some _, config', _) => listing config'
    end
  else listing config.

Fixpoint startProducer (listDepth : nat)
  : string -> Config -> prog (outcome * Config * list feed) :=
  producer_body (match listDepth with
                 | O => None
                 | S depth' => Some (startProducer depth')
                 end).

End Producers.

(** *** Under ForceUpdate the destination is not listed *)

(** The store a call is made on. *)
Definition op_side {X : Type} (o : op X) : option side :=
  match o with
  | Head s _ => Some s
  | Get s _ _ _ => Some s
  | Put s _ _ => Some s
  | Delete s _ => Some s
  | List s _ _ _ _ _ _ => Some s
  | StoreListAll s _ _ _ => Some s
  | ListAllWithDelimiter s _ _ _ _ => Some s
  | GetLimits s => Some s
  | CreateMultipartUpload s _ => Some s
  | UploadPart s _ _ _ _ => Some s
  | UploadPartCopy s _ _ _ _ _ _ => Some s
  | CompleteUpload s _ _ _ => Some s
  | AbortUpload s _ _ => Some s
  | IsFileSystem s => Some s
  | StoreString s => Some s
  | _ => None
  end.

Definition is_listing {X : Type} (o : op X) : bool :=
  match o with
  | List _ _ _ _ _ _ _ => true
  | StoreListAll _ _ _ _ => true
  | ListAllWithDelimiter _ _ _ _ _ => true
  | _ => false
  end.

(** The call is made on the destination store. *)
Definition on_dst (e : event) : bool :=
  match e with
  | Ev o _ => match op_side o with Some Dst => true | _ => false end
  end.

(** The call lists the destination store. *)
Definition lists_dst (e : event) : bool :=
  match e with
  | Ev o _ => is_listing o
  end && on_dst e.

(** No call on the destination; no listing of the destination. *)
Definition quiet (tr : list event) : Prop := Forall (fun e => on_dst e = false) tr.
Definition unlisted (tr : list event) : Prop := Forall (fun e => lists_dst e = false) tr.

Lemma quiet_unlisted tr : quiet tr -> unlisted tr.
Proof.
  apply Forall_impl. intros e H. unfold lists_dst. rewrite H. apply andb_false_r.
Qed.

Lemma quiet_app a b : quiet a -> quiet b -> quiet (a ++ b).
Proof. intros. apply Forall_app. now split. Qed.

Lemma unlisted_app a b : unlisted a -> unlisted b -> unlisted (a ++ b).
Proof. intros. apply Forall_app. now split. Qed.

Ltac run_bind H tr1 x tr2 Hx :=
  apply runs_bind in H; destruct H as (tr1 & x & tr2 & Hx & H & ->).
Ltac run_call H x tr' :=
  simpl in H; destruct H as (x & tr' & -> & H).
Ltac run_ret H := apply runs_ret in H; destruct H as [-> H].

Lemma list_retry_quiet : forall k prefix marker token followLink page tr p,
  runs (list_retry k Src prefix marker token followLink page) tr p -> quiet tr.
Proof.
  induction k as [|k IH]; intros prefix marker token followLink page tr p H;
    simpl in H; destruct (pageErr page).
  - destruct H as [-> _]. constructor.
  - destruct H as [-> _]. constructor.
  - destruct H as (x & tr1 & -> & y & tr2 & -> & H).
    repeat (constructor; [reflexivity|]). eapply IH; eauto.
  - destruct H as [-> _]. constructor.
Qed.

Lemma list_pages_quiet : forall n prefix end_ followLink first lastkey token objs
                                hasMore tr r,
  runs (list_pages n Src prefix end_ followLink first lastkey token objs hasMore) tr r ->
  quiet tr.
Proof.
  induction n as [|n IH]; intros prefix end_ followLink first lastkey token objs
                                 hasMore tr r H;
    cbn [list_pages] in H;
    destruct (scan_page end_ first lastkey objs) as [out [first' lastkey'|]];
    try (destruct H as [-> _]; constructor);
    destruct (negb hasMore); try (destruct H as [-> _]; constructor).
  run_bind H t1 p0 t2 H0. apply runs_call in H0. subst t1.
  run_bind H t3 p t4 H1. apply list_retry_quiet in H1.
  constructor; [reflexivity|]. apply quiet_app; [exact H1|].
  destruct (pageErr p).
  - destruct H as [-> _]. constructor.
  - run_bind H t5 r5 t6 H5. destruct H as [-> _]. rewrite app_nil_r.
    eapply IH; eauto.
Qed.

Lemma ListAll_quiet n prefix start end_ followLink tr r :
  runs (ListAll n Src prefix start end_ followLink) tr r -> quiet tr.
Proof.
  unfold ListAll. intros H.
  run_bind H t1 found t2 H1.
  assert (Q1 : quiet t1).
  { destruct (negb (String.eqb start "") && Keys.HasPrefix start prefix).
    - run_bind H1 t3 h t4 Hh. apply runs_call in Hh. subst t3.
      destruct h; destruct H1 as [-> _]; repeat constructor.
    - destruct H1 as [-> _]. constructor. }
  apply quiet_app; [exact Q1|].
  run_bind H t3 native t4 Hn. apply runs_call in Hn. subst t3.
  constructor; [reflexivity|].
  destruct native as [err|ch].
  - destruct (negb (is_ENOTSUP err)); [destruct H as [-> _]; constructor|].
    run_bind H t5 p t6 Hp. apply runs_call in Hp. subst t5.
    constructor; [reflexivity|].
    destruct (pageErr p) as [e|].
    + destruct (is_ENOTSUP e); [|destruct H as [-> _]; constructor].
      run_bind H t7 d t8 Hd. apply runs_call in Hd. subst t7.
      constructor; [reflexivity|].
      destruct d; destruct H as [-> _]; constructor.
    + run_bind H t7 r7 t8 H7. destruct H as [-> _]. rewrite app_nil_r.
      eapply list_pages_quiet; eauto.
  - destruct H as [-> _]. constructor.
Qed.

Lemma list_delimited_quiet : forall n prefix marker token max followLink total tr r,
  runs (list_delimited n Src prefix marker token max followLink total) tr r -> quiet tr.
Proof.
  induction n as [|n IH]; intros prefix marker token max followLink total tr r H;
    cbn [list_delimited] in H;
    run_bind H t1 p t2 Hp; apply runs_call in Hp; subst t1;
    (constructor; [reflexivity|]);
    destruct (pageErr p); try (destruct H as [-> _]; constructor);
    destruct (negb (Prog.hasMore p)); try (destruct H as [-> _]; constructor).
  eapply IH; eauto.
Qed.

Lemma listCommonPrefix_quiet n prefix cp followLink tr r :
  runs (listCommonPrefix n Src prefix cp followLink) tr r -> quiet tr.
Proof.
  unfold listCommonPrefix. intros H.
  run_bind H t1 name t2 Hn. apply runs_call in Hn. subst t1.
  constructor; [reflexivity|].
  run_bind H t3 l t4 Hl. apply list_delimited_quiet in Hl.
  apply quiet_app; [exact Hl|].
  destruct l as [err|[total|]]; destruct H as [-> _]; constructor.
Qed.

Lemma list_error_quiet what err tr e :
  runs (list_error Src what err) tr e -> quiet tr.
Proof.
  unfold list_error. intros H.
  run_bind H t1 name t2 Hn. apply runs_call in Hn. subst t1.
  destruct H as [-> _]. repeat constructor.
Qed.

Section ForceUpdate.
Import MergerFacts MergerSpec MergerFlags.

Variable keep : Obj -> bool.
Variable matchLeveledPath : list rule -> string -> bool.
Variable fuel : nat.

(** The single-object shortcut of [startProducer] cannot be taken, now or
    later: there are rules, or the limit is not positive. *)
Definition no_shortcut (c : Config) : Prop := rules c <> [] \/ Limit c <= 0.

(** A feed with an empty destination stream, under the flags of [c]. *)
Definition empty_dst_feed (c : Config) (f : feed) : Prop :=
  same_flags c (fed_config f) /\ fed_dst f = [].

(** What a producer started with [c] does under ForceUpdate. *)
Definition force_post (c : Config) (tr : list event) (c' : Config)
  (feeds : list feed) : Prop :=
  unlisted tr
  /\ same_flags c c'
  /\ (Limit c <= 0 -> c' = c)
  /\ (no_shortcut c -> quiet tr /\ Forall (empty_dst_feed c) feeds).

Lemma same_flags_ForceUpdate c c' : same_flags c c' -> ForceUpdate c' = ForceUpdate c.
Proof. intros ->. reflexivity. Qed.

Lemma same_flags_rules c c' : same_flags c c' -> rules c' = rules c.
Proof. intros ->. reflexivity. Qed.

Lemma no_shortcut_keep c c' :
  no_shortcut c -> same_flags c c' -> (Limit c <= 0 -> c' = c) -> no_shortcut c'.
Proof.
  intros [H|H] F Z.
  - left. now rewrite (same_flags_rules c c' F).
  - right. now rewrite (Z H).
Qed.

Lemma empty_dst_feed_flags c0 c f :
  same_flags c0 c -> empty_dst_feed c f -> empty_dst_feed c0 f.
Proof.
  intros F [H1 H2]. split; [eapply same_flags_trans; eauto|exact H2].
Qed.

Lemma force_post_seq c tr1 c1 f1 tr2 c2 f2 :
  force_post c tr1 c1 f1 -> force_post c1 tr2 c2 f2 ->
  force_post c (tr1 ++ tr2) c2 (f1 ++ f2).
Proof.
  intros (U1 & F1 & Z1 & N1) (U2 & F2 & Z2 & N2).
  split; [now apply unlisted_app|].
  split; [eapply same_flags_trans; eauto|].
  split.
  - intros H. rewrite <- (Z1 H). apply Z2. now rewrite (Z1 H).
  - intros H. destruct (N1 H) as [Q1 E1].
    destruct (N2 (no_shortcut_keep c c1 H F1 Z1)) as [Q2 E2].
    split; [now apply quiet_app|]. apply Forall_app. split; [exact E1|].
    eapply Forall_impl; [|exact E2]. intros f. now apply empty_dst_feed_flags.
Qed.

Lemma force_post_quiet c tr : quiet tr -> force_post c tr c [].
Proof.
  intros Q. split; [now apply quiet_unlisted|].
  split; [apply same_flags_refl|]. split; [reflexivity|].
  intros _. split; [exact Q|constructor].
Qed.

(** The events of the merger on a feed with an empty destination stream:
    decisions against nil, none of them for a destination key. *)
Lemma empty_dst_feed_events c f :
  empty_dst_feed c f ->
  Forall (nil_decision c (fed_src f)) (events_of_feed keep f)
  /\ List.filter is_dst_event (events_of_feed keep f) = [].
Proof.
  intros [F E]. unfold events_of_feed. rewrite E.
  destruct (Merger.produce keep (fed_config f) (fed_src f) []) as [[r c'] ev] eqn:P.
  apply produce_empty_dst in P. destruct P as (N & D & _). simpl.
  split; [|exact D]. eapply Forall_impl; [|exact N].
  intros e. now apply nil_decision_flags.
Qed.

Lemma run_produce_empty c S err c' fed :
  run_produce keep c S [] = (err, c', fed) -> force_post c [] c' fed.
Proof.
  unfold run_produce.
  destruct (Merger.produce keep c S []) as [[r c1] ev] eqn:P.
  intros H. injection H as _ <- <-.
  apply produce_empty_dst in P. destruct P as (_ & _ & F & Z).
  split; [constructor|]. split; [exact F|]. split; [exact Z|].
  intros _. split; [constructor|]. constructor; [|constructor].
  split; [apply same_flags_refl|reflexivity].
Qed.

Lemma run_produce_flags c S D err c' fed :
  run_produce keep c S D = (err, c', fed) -> same_flags c c'.
Proof.
  unfold run_produce.
  destruct (Merger.produce keep c S D) as [[r c1] ev] eqn:P.
  intros H. injection H as _ <- _. now apply produce_flags in P.
Qed.

Lemma startSingleProducer_force prefix config tr out c' feeds :
  ForceUpdate config = true ->
  runs (startSingleProducer keep fuel prefix config) tr (out, c', feeds) ->
  force_post config tr c' feeds.
Proof.
  intros FU H. unfold startSingleProducer in H. rewrite FU in H.
  run_bind H t1 l t2 Hl. apply ListAll_quiet in Hl.
  destruct l as [err|[srckeys srcclosed]].
  - run_bind H t3 e t4 He. apply list_error_quiet in He.
    destruct H as [-> H]. injection H as _ -> ->. rewrite app_nil_r.
    apply force_post_quiet. now apply quiet_app.
  - simpl in H. rewrite andb_true_r in H. destruct srcclosed.
    + destruct (run_produce keep config srckeys []) as [[err c1] fed] eqn:P.
      destruct H as [-> H]. injection H as _ -> ->.
      apply (force_post_seq config t1 config [] [] c1 fed).
      * now apply force_post_quiet.
      * eapply run_produce_empty; eauto.
    + destruct H as [-> H]. injection H as _ -> ->. rewrite app_nil_r.
      now apply force_post_quiet.
Qed.

(** [produceSingleObject] lists nothing; when it returns an error it has
    fed nothing to [produce]. *)
Lemma produceSingleObject_post key config tr err c' feeds :
  runs (produceSingleObject keep key config) tr (err, c', feeds) ->
  unlisted tr /\ same_flags config c' /\ (err <> None -> c' = config).
Proof.
  unfold produceSingleObject. intros H.
  run_bind H t1 h t2 Hh. apply runs_call in Hh. subst t1.
  destruct h as [e|obj].
  - destruct H as [-> H]. injection H as _ -> _.
    split; [repeat constructor|]. split; [apply same_flags_refl|reflexivity].
  - destruct (negb (IsDir obj) || (IsSymlink obj && Links config)
              || (IsDir obj && Dirs config && HasSuffix key "/")).
    + run_bind H t3 d t4 Hd. apply runs_call in Hd. subst t3.
      destruct d as [e|dobj].
      * destruct (is_not_exist e).
        -- destruct (run_produce keep config [Some obj] []) as [[r c1] fed] eqn:P.
           destruct H as [-> H]. injection H as -> -> _.
           split; [repeat constructor|].
           split; [eapply run_produce_flags; eauto|congruence].
        -- destruct H as [-> H]. injection H as _ -> _.
           split; [repeat constructor|]. split; [apply same_flags_refl|reflexivity].
      * destruct (run_produce keep config [Some obj] [Some dobj]) as [[r c1] fed] eqn:P.
        destruct H as [-> H]. injection H as -> -> _.
        split; [repeat constructor|].
        split; [eapply run_produce_flags; eauto|congruence].
    + destruct H as [-> H]. injection H as _ -> _.
      split; [repeat constructor|]. split; [apply same_flags_refl|reflexivity].
Qed.

(** Where the shortcut is taken, [no_shortcut] does not hold. *)
Lemma shortcut_post c tr c' feeds :
  (Limit c =? 1) && (Z.of_nat (List.length (rules c)) =? 0) = true ->
  unlisted tr -> same_flags c c' -> force_post c tr c' feeds.
Proof.
  intros B U F. apply andb_prop in B. destruct B as [L R].
  apply Z.eqb_eq in L. apply Z.eqb_eq in R.
  split; [exact U|]. split; [exact F|]. split; [lia|].
  intros [H|H]; [|lia]. destruct (rules c); [congruence|simpl in R; lia].
Qed.

Section Deeper.

Variable deeper : string -> Config -> prog (outcome * Config * list feed).

Hypothesis deeper_force : forall prefix config tr out c' feeds,
  ForceUpdate config = true ->
  runs (deeper prefix config) tr (out, c', feeds) ->
  force_post config tr c' feeds.

Lemma sub_producers_force : forall cps processing config tr c' feeds,
  ForceUpdate config = true ->
  runs (sub_producers matchLeveledPath deeper cps processing config) tr (c', feeds) ->
  force_post config tr c' feeds.
Proof.
  induction cps as [|c cps IH]; intros processing config tr c' feeds FU H;
    cbn [sub_producers] in H.
  - destruct H as [-> H]. injection H as -> ->. apply force_post_quiet. constructor.
  - repeat match type of H with
           | runs (if ?b then _ else _) _ _ => destruct b; [now eapply IH; eauto|]
           end.
    run_bind H t1 r t2 Hr. destruct r as [[out c1] fed].
    apply deeper_force in Hr; [|exact FU].
    run_bind H t3 u t4 Hu.
    assert (Q3 : quiet t3).
    { destruct out as [[e|]|].
      - apply runs_call in Hu. subst t3. repeat constructor.
      - destruct Hu as [-> _]. constructor.
      - destruct Hu as [-> _]. constructor. }
    run_bind H t5 r' t6 Hr'. destruct r' as [c2 fed2].
    destruct H as [-> H]. injection H as -> ->. simpl. rewrite app_nil_r.
    apply force_post_seq with (c1 := c1); [exact Hr|].
    apply (force_post_seq c1 t3 c1 [] t5 c2 fed2); [now apply force_post_quiet|].
    eapply IH; [|exact Hr'].
    rewrite (same_flags_ForceUpdate config c1); [exact FU|apply Hr].
Qed.

Lemma list_level_force prefix config tr out c' feeds :
  ForceUpdate config = true ->
  runs (list_level keep matchLeveledPath fuel deeper prefix config) tr (out, c', feeds) ->
  force_post config tr c' feeds.
Proof.
  intros FU H. unfold list_level in H. rewrite FU in H.
  run_bind H t1 l t2 Hl. apply listCommonPrefix_quiet in Hl.
  apply (force_post_seq config t1 config [] t2 c' feeds);
    [now apply force_post_quiet|].
  destruct l as [err|[[srckeys srccp]|]].
  - destruct (Copy.eq_ENOTSUP err).
    + now apply startSingleProducer_force in H.
    + run_bind H t3 e t4 He. apply list_error_quiet in He.
      destruct H as [-> H]. injection H as _ -> ->. rewrite app_nil_r.
      now apply force_post_quiet.
  - cbn [bind map] in H.
    destruct (run_produce keep config (map Some srckeys) []) as [[err c1] fed] eqn:P.
    cbn [bind] in H.
    run_bind H t3 subs t4 Hs. destruct subs as [c2 fed2].
    destruct H as [-> H]. injection H as _ -> ->. simpl. rewrite app_nil_r.
    apply run_produce_empty in P.
    apply (force_post_seq config [] c1 fed t3 c2 fed2); [exact P|].
    eapply sub_producers_force; [|exact Hs].
    rewrite (same_flags_ForceUpdate config c1); [exact FU|apply P].
  - destruct H as [-> H]. injection H as _ -> ->. apply force_post_quiet. constructor.
Qed.

End Deeper.

Lemma producer_body_force deeper prefix config tr out c' feeds :
  match deeper with
  | Some rec =>
      forall prefix config tr out c' feeds,
        ForceUpdate config = true ->
        runs (rec prefix config) tr (out, c', feeds) ->
        force_post config tr c' feeds
  | None => True
  end ->
  ForceUpdate config = true ->
  runs (producer_body keep matchLeveledPath fuel deeper prefix config) tr (out, c', feeds) ->
  force_post config tr c' feeds.
Proof.
  intros Hd FU H. unfold producer_body in H.
  assert (Listing : forall tr,
    runs match deeper with
         | None => startSingleProducer keep fuel prefix config
         | Some rec =>
             if ListThreads config <=? 1 then startSingleProducer keep fuel prefix config
             else list_level keep matchLeveledPath fuel rec prefix config
         end tr (out, c', feeds) ->
    force_post config tr c' feeds).
  { intros tr0 H0. destruct deeper as [rec|].
    - destruct (ListThreads config <=? 1).
      + now apply startSingleProducer_force in H0.
      + now apply (list_level_force rec Hd) in H0.
    - now apply startSingleProducer_force in H0. }
  destruct ((Limit config =? 1) && (Z.of_nat (List.length (rules config)) =? 0)) eqn:B.
  - run_bind H t1 r t2 Hr. destruct r as [[err c1] fed].
    apply produceSingleObject_post in Hr. destruct Hr as (U & F & Z).
    destruct err as [e|].
    + rewrite (Z ltac:(discriminate)) in H. apply Listing in H.
      apply (shortcut_post config _ c' feeds B); [|apply H].
      apply unlisted_app; [exact U|apply H].
    + destruct H as [-> H]. injection H as _ -> ->. rewrite app_nil_r.
      now apply shortcut_post.
  - now apply Listing.
Qed.

Lemma startProducer_force : forall listDepth prefix config tr out c' feeds,
  ForceUpdate config = true ->
  runs (startProducer keep matchLeveledPath fuel listDepth prefix config)
       tr (out, c', feeds) ->
  force_post config tr c' feeds.
Proof.
  induction listDepth as [|d IH]; intros prefix config tr out c' feeds FU H;
    cbn [startProducer] in H.
  - now apply (producer_body_force None prefix config tr out c' feeds I).
  - now apply (producer_body_force (Some (startProducer keep matchLeveledPath fuel d))
                 prefix config tr out c' feeds IH).
Qed.

End ForceUpdate.

(** *** ForceUpdate and the destination stream *)

(** C10 as the specification words it, for what a run feeds to the merger:
    every destination stream is the empty one and every source key is
    decided against nil. *)
Definition decided_against_nil (keep : Obj -> bool) (config : Config)
  (feeds : list feed) : Prop :=
  Forall (fun f =>
            fed_dst f = []
            /\ Forall (MergerFlags.nil_decision config (fed_src f))
                      (events_of_feed keep f)) feeds.

Definition every_rule_matches (_ : list rule) (_ : string) : bool := true.

(** ForceUpdate with IgnoreExisting, a limit of one object and no rule. *)
Definition force_one : Config :=
  mkConfig "" "" false true false false false false false false true false
           1 false false false 1 1 "" [].

(** The object that both stores hold under the prefix. *)
Definition the_object : Obj := MergerClaims.file "" 1 0.

Definition head_both : list event :=
  [Ev (Head Src "") (inr the_object); Ev (Head Dst "") (inr the_object)].

Definition fed_both : feed := mkFeed force_one [Some the_object] [Some the_object].

(** With a limit of one object and no rule, [startProducer] asks both
    stores for the object of the prefix and feeds the answer of the
    destination to the merger: the source key is decided against the
    destination object (skipped under IgnoreExisting), where the decision
    against nil is a copy. *)
Lemma single_object_is_decided_against_destination :
  ForceUpdate force_one = true
  /\ runs (startProducer MergerClaims.keep_all every_rule_matches 0
             (Z.to_nat (ListDepth force_one)) "" force_one)
          head_both (Return None, dec_Limit force_one, [fed_both])
  /\ events_of_feed MergerClaims.keep_all fed_both
     = [Merger.EvTotal; Merger.EvSkip the_object]
  /\ MergerSpec.decision_event the_object
       (MergerSpec.decision_table force_one the_object None)
     = Merger.EvTask (Plain the_object)
  /\ ~ decided_against_nil MergerClaims.keep_all force_one [fed_both].
Proof.
  split; [reflexivity|]. split.
  { repeat (simpl; eexists; eexists; split; [reflexivity|]).
    simpl. split; reflexivity. }
  split; [reflexivity|]. split; [reflexivity|].
  intros H. inversion H as [|f l [E _] _]. discriminate E.
Qed.

(** C10, amended. Under ForceUpdate no run of [startProducer] lists the
    destination store. When the single-object shortcut cannot be taken
    (there are rules, or the limit is not positive), no call at all is made
    on the destination, every call of [produce] is fed the empty
    destination stream, every event of the merger is the decision of a
    source key against nil, and none is for a destination key: no
    DELETE_DST task, no deferred destination directory, no extra key,
    whatever DeleteDst is. *)
Theorem force_update_never_lists_destination
  (keep : Obj -> bool) (matchLeveledPath : list rule -> string -> bool)
  (fuel listDepth : nat) (prefix : string) (config : Config)
  (tr : list event) (out : outcome) (config' : Config) (feeds : list feed) :
  ForceUpdate config = true ->
  runs (startProducer keep matchLeveledPath fuel listDepth prefix config)
       tr (out, config', feeds) ->
  unlisted tr
  /\ (no_shortcut config ->
      quiet tr
      /\ Forall (fun f =>
           fed_dst f = []
           /\ Forall (MergerFlags.nil_decision config (fed_src f))
                     (events_of_feed keep f)
           /\ List.filter MergerSpec.is_dst_event (events_of_feed keep f) = [])
         feeds).
Proof.
  intros FU H. apply startProducer_force in H; [|exact FU].
  destruct H as (U & _ & _ & N). split; [exact U|].
  intros NS. destruct (N NS) as [Q E]. split; [exact Q|].
  eapply Forall_impl; [|exact E]. intros f Hf.
  split; [apply Hf|]. now apply empty_dst_feed_events.
Qed.

(** ForceUpdate with DeleteDst, no limit, one listing thread. *)
Definition force_delete : Config :=
  mkConfig "" "" false true false false false true false false false false
           (-1) false false false 1 1 "" [].

Definition source_listing : list event :=
  [Ev (StoreListAll Src "" "" true) (inr [Some Listing.key_a; Some Listing.key_b])].

Definition fed_source : feed :=
  mkFeed force_delete [Some Listing.key_a; Some Listing.key_b] [].

Lemma force_update_never_lists_destination_witness :
  ForceUpdate force_delete = true
  /\ no_shortcut force_delete
  /\ quiet source_listing
  /\ Forall (fun f =>
       fed_dst f = []
       /\ Forall (MergerFlags.nil_decision force_delete (fed_src f))
                 (events_of_feed MergerClaims.keep_all f)
       /\ List.filter MergerSpec.is_dst_event
            (events_of_feed MergerClaims.keep_all f) = [])
     [fed_source].
Proof.
  assert (R : runs (startProducer MergerClaims.keep_all every_rule_matches 0 1 ""
                      force_delete)
                   source_listing (Return None, force_delete, [fed_source])).
  { repeat (simpl; eexists; eexists; split; [reflexivity|]).
    simpl. split; reflexivity. }
  assert (NS : no_shortcut force_delete) by (right; simpl; lia).
  split; [reflexivity|]. split; [exact NS|].
  exact (proj2 (force_update_never_lists_destination MergerClaims.keep_all
                  every_rule_matches 0 1 ""%string force_delete source_listing
                  (Return None) force_delete [fed_source] eq_refl R) NS).
Defined.

End Producer.

(** ** The merger under a limit, and its errors *)

Module MergerBounds.
Import Merger MergerFacts MergerSpec MergerFlags.

(** The events that use the limit up: a decision on a source key, a
    DELETE_DST task or a deferred destination directory. *)
Definition consumes (e : event) : bool :=
  match e with
  | EvTask _ => true
  | EvSkip _ => true
  | EvSrcDelay _ => true
  | EvDstDelay _ => true
  | EvTotal => false
  | EvExtra _ => false
  end.

Definition tally (ev : list event) : Z :=
  Z.of_nat (List.length (List.filter consumes ev)).

(** A limit that is set: an [int64] that is not negative. *)
Definition limited (c : Config) : Prop := 0 <= Limit c <= max_int64.

Lemma tally_app a b : tally (a ++ b) = tally a + tally b.
Proof. unfold tally. rewrite filter_app, length_app. lia. Qed.

Lemma tally_nonneg ev : 0 <= tally ev.
Proof. unfold tally. lia. Qed.

Lemma dec_Limit_limited c :
  1 <= Limit c <= max_int64 -> Limit (dec_Limit c) = Limit c - 1.
Proof.
  intros H. unfold dec_Limit. simpl. apply wrap64_small.
  unfold min_int64, max_int64 in *. lia.
Qed.

Lemma handleExtraObject_limit c d stop c' ev :
  limited c -> handleExtraObject c d = (stop, c', ev) ->
  limited c' /\ tally ev <= Limit c - Limit c'.
Proof.
  intros L. unfold handleExtraObject.
  destruct (negb (DeleteDst c) || (negb (Dirs c) && IsDir d)) eqn:G; simpl.
  - intros H. injection H as _ <- <-. split; [exact L|]. unfold tally. simpl. lia.
  - destruct (Z.eqb_spec (Limit c) 0) as [E|N].
    + intros H. injection H as _ <- <-. split; [exact L|]. unfold tally. simpl. lia.
    + intros H. injection H as _ <- <-.
      assert (D : Limit (dec_Limit c) = Limit c - 1)
        by (apply dec_Limit_limited; unfold limited in L; lia).
      split; [unfold limited in *; lia|].
      rewrite D. unfold tally. destruct (IsDir d); simpl; lia.
Qed.

Lemma advance_limit obj : forall D c s c' ev,
  limited c -> advance c obj D = (s, c', ev) ->
  limited c' /\ tally ev <= Limit c - Limit c'.
Proof.
  induction D as [|[d|] D IH]; intros c s c' ev L; simpl.
  - intros H. injection H as _ <- <-. split; [exact L|]. unfold tally. simpl. lia.
  - destruct (Keys.le (Key obj) (Key d)).
    + intros H. injection H as _ <- <-. split; [exact L|]. unfold tally. simpl. lia.
    + destruct (handleExtraObject c d) as [[stop c1] ev1] eqn:E1.
      apply handleExtraObject_limit in E1; [|exact L]. destruct E1 as [L1 T1].
      destruct stop.
      * intros H. injection H as _ <- <-. auto.
      * destruct (advance c1 obj D) as [[s2 c2] ev2] eqn:E2.
        apply IH in E2; [|exact L1]. destruct E2 as [L2 T2].
        intros H. injection H as _ <- <-. split; [exact L2|].
        rewrite tally_app. lia.
  - intros H. injection H as _ <- <-. split; [exact L|]. unfold tally. simpl. lia.
Qed.

Lemma drain_limit : forall D c r c' ev,
  limited c -> drain c D = (r, c', ev) ->
  limited c' /\ tally ev <= Limit c - Limit c'.
Proof.
  induction D as [|[d|] D IH]; intros c r c' ev L; simpl.
  - intros H. injection H as _ <- <-. split; [exact L|]. unfold tally. simpl. lia.
  - destruct (handleExtraObject c d) as [[stop c1] ev1] eqn:E1.
    apply handleExtraObject_limit in E1; [|exact L]. destruct E1 as [L1 T1].
    destruct stop.
    + intros H. injection H as _ <- <-. auto.
    + destruct (drain c1 D) as [[r2 c2] ev2] eqn:E2.
      apply IH in E2; [|exact L1]. destruct E2 as [L2 T2].
      intros H. injection H as _ <- <-. split; [exact L2|].
      rewrite tally_app. lia.
  - intros H. injection H as _ <- <-. split; [exact L|]. unfold tally. simpl. lia.
Qed.

Lemma finish_limit c b D r c' ev :
  limited c -> finish c b D = (r, c', ev) ->
  limited c' /\ tally ev <= Limit c - Limit c'.
Proof.
  intros L. unfold finish. destruct (DeleteDst c).
  - destruct b as [d|]; [|now apply drain_limit].
    destruct (handleExtraObject c d) as [[stop c1] ev1] eqn:E1.
    apply handleExtraObject_limit in E1; [|exact L]. destruct E1 as [L1 T1].
    destruct stop.
    + intros H. injection H as _ <- <-. auto.
    + destruct (drain c1 D) as [[r2 c2] ev2] eqn:E2.
      apply drain_limit in E2; [|exact L1]. destruct E2 as [L2 T2].
      intros H. injection H as _ <- <-. split; [exact L2|].
      rewrite tally_app. lia.
  - intros H. injection H as _ <- <-. split; [exact L|]. unfold tally. simpl. lia.
Qed.

Lemma decide_tally c obj d : tally (fst (decide c obj d)) = 1.
Proof.
  unfold decide. destruct d as [d|].
  - repeat match goal with
           | |- context [if ?b then _ else _] => destruct b
           end; reflexivity.
  - destruct (Existing c); reflexivity.
Qed.

Lemma merge_limit : forall S c b D r c' ev,
  limited c -> merge c b D S = (r, c', ev) ->
  limited c' /\ tally ev <= Limit c - Limit c'.
Proof.
  induction S as [|[obj|] S IH]; intros c b D r c' ev L; cbn [merge].
  - now apply finish_limit.
  - destruct (negb (Dirs c) && IsDir obj); [now apply IH|].
    assert (G : (Limit c >=? 0) = true).
    { rewrite Z.geb_leb. apply Z.leb_le. unfold limited in L. lia. }
    rewrite G. cbn [andb].
    destruct (Z.eqb_spec (Limit c) 0) as [E0|N0].
    { intros H. injection H as _ <- <-. split; [exact L|]. unfold tally. simpl. lia. }
    assert (D1 : Limit (dec_Limit c) = Limit c - 1)
      by (apply dec_Limit_limited; unfold limited in L; lia).
    assert (L1 : limited (dec_Limit c)) by (unfold limited in *; lia).
    match goal with
    | |- context [match ?X with pair _ _ => _ end] =>
        destruct X as [[s1 cA] evA] eqn:E1
    end.
    assert (F2 : limited cA /\ tally evA <= Limit (dec_Limit c) - Limit cA).
    { destruct b as [d|].
      - destruct (Keys.gt (Key obj) (Key d)).
        + destruct (handleExtraObject (dec_Limit c) d) as [[stop cx] evx] eqn:Ex.
          apply handleExtraObject_limit in Ex; [|exact L1].
          destruct stop; injection E1 as _ <- <-; exact Ex.
        + injection E1 as _ <- <-. split; [exact L1|]. unfold tally. simpl. lia.
      - injection E1 as _ <- <-. split; [exact L1|]. unfold tally. simpl. lia. }
    destruct F2 as [L2 T2].
    destruct s1 as [r1|dstobj1 dstkeys1].
    { intros H. injection H as _ <- <-. split; [exact L2|].
      change (tally (EvTotal :: evA)) with (tally evA). lia. }
    match goal with
    | |- context [match ?X with pair _ _ => _ end] =>
        destruct X as [[s2 cB] evB] eqn:E2
    end.
    assert (F3 : limited cB /\ tally evB <= Limit cA - Limit cB).
    { destruct dstobj1.
      - injection E2 as _ <- <-. split; [exact L2|]. unfold tally. simpl. lia.
      - now apply advance_limit in E2. }
    destruct F3 as [L3 T3].
    destruct s2 as [r2|dstobj2 dstkeys2].
    { intros H. injection H as _ <- <-. split; [exact L3|].
      change (tally (EvTotal :: evA ++ evB)) with (tally (evA ++ evB)).
      rewrite tally_app. lia. }
    pose proof (decide_tally cB obj dstobj2) as T4.
    destruct (decide cB obj dstobj2) as [ev3 dstobj3]. simpl in T4.
    destruct (merge cB dstobj3 dstkeys2 S) as [[r4 c4] ev4] eqn:E4.
    apply IH in E4; [|exact L3]. destruct E4 as [L4 T5].
    intros H. injection H as _ <- <-. split; [exact L4|].
    change (tally (EvTotal :: evA ++ evB ++ ev3 ++ ev4))
      with (tally (evA ++ evB ++ ev3 ++ ev4)).
    rewrite !tally_app. lia.
  - intros H. injection H as _ <- <-. split; [exact L|]. unfold tally. simpl. lia.
Qed.

(** X1. With a limit set, [produce] never uses more than the limit: the
    decisions it takes on source keys and the destination keys it hands
    over for deletion are together at most what it takes off [Limit],
    which never falls below zero. *)
Theorem produce_within_limit (keep : Obj -> bool) (c : Config)
  (srckeys dstkeys : list (option Obj)) (r : result) (c' : Config)
  (ev : list event) :
  limited c ->
  produce keep c srckeys dstkeys = (r, c', ev) ->
  0 <= Limit c' /\ tally ev <= Limit c - Limit c' /\ tally ev <= Limit c.
Proof.
  intros L H. apply merge_limit in H; [|exact L].
  destruct H as [L' T]. unfold limited in L'. repeat split; lia.
Qed.

(** A limit of one object over two source keys. *)
Definition one_of_two : result * Config * list event :=
  produce MergerClaims.keep_all (MergerClaims.with_limit MergerClaims.default_config 1)
          [Some (MergerClaims.file "a" 1 0); Some (MergerClaims.file "b" 1 0)] [].

Lemma produce_within_limit_witness :
  limited (MergerClaims.with_limit MergerClaims.default_config 1)
  /\ 0 <= Limit (snd (fst one_of_two))
  /\ tally (snd one_of_two)
     <= Limit (MergerClaims.with_limit MergerClaims.default_config 1)
        - Limit (snd (fst one_of_two))
  /\ tally (snd one_of_two)
     <= Limit (MergerClaims.with_limit MergerClaims.default_config 1).
Proof.
  split; [unfold limited, max_int64; simpl; lia|].
  apply (produce_within_limit MergerClaims.keep_all
           (MergerClaims.with_limit MergerClaims.default_config 1)
           [Some (MergerClaims.file "a" 1 0); Some (MergerClaims.file "b" 1 0)] []
           (fst (fst one_of_two)) (snd (fst one_of_two)) (snd one_of_two)).
  - unfold limited, max_int64. simpl. lia.
  - reflexivity.
Defined.

(** *** Errors *)

Lemma advance_err obj : forall D c m c' ev,
  advance c obj D = (ScanRet (RetErr m), c', ev) ->
  m = listing_failed /\ In None D.
Proof.
  induction D as [|[d|] D IH]; intros c m c' ev; simpl.
  - discriminate.
  - destruct (Keys.le (Key obj) (Key d)); [discriminate|].
    destruct (handleExtraObject c d) as [[stop c1] ev1].
    destruct stop; [discriminate|].
    destruct (advance c1 obj D) as [[s2 c2] ev2] eqn:E2.
    intros H. injection H as -> _ _. apply IH in E2.
    destruct E2 as [E I]. split; [exact E|now right].
  - intros H. injection H as <- _ _. split; [reflexivity|now left].
Qed.

Lemma drain_err : forall D c m c' ev,
  drain c D = (RetErr m, c', ev) -> m = listing_failed /\ In None D.
Proof.
  induction D as [|[d|] D IH]; intros c m c' ev; simpl.
  - discriminate.
  - destruct (handleExtraObject c d) as [[stop c1] ev1].
    destruct stop; [discriminate|].
    destruct (drain c1 D) as [[r2 c2] ev2] eqn:E2.
    intros H. injection H as -> _ _. apply IH in E2.
    destruct E2 as [E I]. split; [exact E|now right].
  - intros H. injection H as <- _ _. split; [reflexivity|now left].
Qed.

Lemma finish_err c b D m c' ev :
  finish c b D = (RetErr m, c', ev) -> m = listing_failed /\ In None D.
Proof.
  unfold finish. destruct (DeleteDst c); [|discriminate].
  destruct b as [d|]; [|apply drain_err].
  destruct (handleExtraObject c d) as [[stop c1] ev1].
  destruct stop; [discriminate|].
  destruct (drain c1 D) as [[r2 c2] ev2] eqn:E2.
  intros H. injection H as -> _ _. now apply drain_err in E2.
Qed.

Lemma advance_rest obj : forall D c b D' c' ev,
  advance c obj D = (ScanGo b D', c', ev) -> In None D' -> In None D.
Proof.
  induction D as [|[d|] D IH]; intros c b D' c' ev; simpl.
  - intros H. injection H as _ <- _ _. auto.
  - destruct (Keys.le (Key obj) (Key d)).
    + intros H. injection H as _ <- _ _. intros I. now right.
    + destruct (handleExtraObject c d) as [[stop c1] ev1].
      destruct stop; [discriminate|].
      destruct (advance c1 obj D) as [[s2 c2] ev2] eqn:E2.
      intros H. injection H as -> _ _. intros I. right. eapply IH; eauto.
  - discriminate.
Qed.

Lemma merge_err : forall S c b D m c' ev,
  merge c b D S = (RetErr m, c', ev) ->
  m = listing_failed /\ (In None S \/ In None D).
Proof.
  induction S as [|[obj|] S IH]; intros c b D m c' ev; cbn [merge].
  - intros H. apply finish_err in H. destruct H as [E I]. auto.
  - destruct (negb (Dirs c) && IsDir obj).
    { intros H. apply IH in H. destruct H as [E [I|I]]; split; auto.
      left. now right. }
    destruct ((Limit c >=? 0) && (Limit c =? 0)); [discriminate|].
    match goal with
    | |- context [match ?X with pair _ _ => _ end] =>
        destruct X as [[s1 cA] evA] eqn:E1
    end.
    assert (K1 : match s1 with
                 | ScanRet r => r = RetNil
                 | ScanGo _ D1 => D1 = D
                 end).
    { destruct b as [d|].
      - destruct (Keys.gt (Key obj) (Key d)).
        + destruct (handleExtraObject _ d) as [[stop cx] evx].
          destruct stop; injection E1 as <- _ _; reflexivity.
        + injection E1 as <- _ _. reflexivity.
      - injection E1 as <- _ _. reflexivity. }
    destruct s1 as [r1|dstobj1 dstkeys1]; [subst r1; discriminate|]. subst dstkeys1.
    match goal with
    | |- context [match ?X with pair _ _ => _ end] =>
        destruct X as [[s2 cB] evB] eqn:E2
    end.
    destruct s2 as [r2|dstobj2 dstkeys2].
    { intros H. injection H as -> _ _.
      destruct dstobj1; [discriminate|].
      apply advance_err in E2. destruct E2 as [E I]. auto. }
    assert (K2 : In None dstkeys2 -> In None D).
    { destruct dstobj1.
      - injection E2 as _ <- _ _. auto.
      - eapply advance_rest; eauto. }
    destruct (decide cB obj dstobj2) as [ev3 dstobj3].
    destruct (merge cB dstobj3 dstkeys2 S) as [[r4 c4] ev4] eqn:E4.
    intros H. injection H as -> _ _. apply IH in E4.
    destruct E4 as [E [I|I]]; split; auto. left. now right.
  - intros H. injection H as <- _ _. split; [reflexivity|]. left. now left.
Qed.

Lemma filter_None keep : forall S, In None (filter keep S) -> In None S.
Proof.
  induction S as [|[x|] S IH]; simpl; intros H.
  - exact H.
  - destruct (keep x); [destruct H as [H|H]; [discriminate|]|]; right; now apply IH.
  - now left.
Qed.

(** X2. [produce] returns nil, or the error "listing failed, stop syncing,
    waiting for pending ones", and this only when one of its two streams
    carries the nil descriptor of a failed listing. *)
Theorem produce_fails_on_sentinel_only (keep : Obj -> bool) (c : Config)
  (srckeys dstkeys : list (option Obj)) :
  fst (fst (produce keep c srckeys dstkeys)) = RetNil
  \/ (fst (fst (produce keep c srckeys dstkeys)) = RetErr listing_failed
      /\ (In None srckeys \/ In None dstkeys)).
Proof.
  destruct (produce keep c srckeys dstkeys) as [[r c'] ev] eqn:P. simpl.
  destruct r as [|m]; [now left|right].
  unfold produce in P. apply merge_err in P. destruct P as [-> I].
  split; [reflexivity|].
  destruct I as [I|I]; [left|right]; now apply (filter_None keep).
Qed.

(** [filter] forwards the descriptors that [filterKey] keeps, in their
    order; the nil descriptor of a failed listing is forwarded and ends the
    stream, whatever comes after it. *)
Lemma filter_forwards_until_sentinel (keep : Obj -> bool) (S : list Obj)
  (rest : list (option Obj)) :
  filter keep (map Some S) = map Some (List.filter keep S)
  /\ filter keep (map Some S ++ None :: rest)
     = map Some (List.filter keep S) ++ [None].
Proof.
  split; [apply filter_Some|].
  induction S as [|o S IH]; simpl; [reflexivity|].
  destruct (keep o); simpl; now rewrite IH.
Qed.

(** *** What the events are about *)

(** The descriptor an event is about; the deferred directories carry the
    key only. *)
Definition about (e : event) (o : Obj) : Prop :=
  match e with
  | EvTotal => False
  | EvTask t => withoutSize t = o
  | EvSkip x => x = o
  | EvSrcDelay k => Key o = k /\ IsDir o = true
  | EvDstDelay k => Key o = k /\ IsDir o = true
  | EvExtra x => x = o
  end.

Section Subjects.

Variable P : Obj -> Prop.

Definition subjects_ok (ev : list event) : Prop :=
  Forall (fun e => e = EvTotal \/ exists o, about e o /\ P o) ev.

Definition stream_ok (L : list (option Obj)) : Prop :=
  forall o, In (Some o) L -> P o.

Definition buffer_ok (b : option Obj) : Prop := forall o, b = Some o -> P o.

Lemma subjects_ok_app a b : subjects_ok a -> subjects_ok b -> subjects_ok (a ++ b).
Proof. intros. apply Forall_app. now split. Qed.

Lemma stream_ok_tail x L : stream_ok (x :: L) -> stream_ok L.
Proof. intros H o I. apply H. now right. Qed.

Lemma handleExtraObject_subjects c d stop c' ev :
  P d -> handleExtraObject c d = (stop, c', ev) -> subjects_ok ev.
Proof.
  intros Hd. unfold handleExtraObject.
  destruct (negb (DeleteDst c) || (negb (Dirs c) && IsDir d) || (Limit c =? 0)).
  - intros H. injection H as _ _ <-.
    constructor; [now left|]. constructor; [|constructor].
    right. exists d. split; [reflexivity|exact Hd].
  - intros H. injection H as _ _ <-.
    constructor; [now left|]. constructor; [|constructor].
    right. exists d. split; [|exact Hd].
    destruct (IsDir d) eqn:E; simpl; auto.
Qed.

Lemma advance_subjects obj : forall D c s c' ev,
  stream_ok D -> advance c obj D = (s, c', ev) ->
  subjects_ok ev
  /\ match s with
     | ScanGo b' D' => buffer_ok b' /\ stream_ok D'
     | ScanRet _ => True
     end.
Proof.
  induction D as [|[d|] D IH]; intros c s c' ev HD; simpl.
  - intros H. injection H as <- _ <-. split; [constructor|].
    split; [intros o F; discriminate|exact HD].
  - assert (Pd : P d) by (apply HD; now left).
    destruct (Keys.le (Key obj) (Key d)).
    + intros H. injection H as <- _ <-. split; [constructor|].
      split; [intros o F; now injection F as <-|now apply stream_ok_tail in HD].
    + destruct (handleExtraObject c d) as [[stop c1] ev1] eqn:E1.
      apply handleExtraObject_subjects in E1; [|exact Pd].
      destruct stop.
      * intros H. injection H as <- _ <-. split; [exact E1|exact I].
      * destruct (advance c1 obj D) as [[s2 c2] ev2] eqn:E2.
        apply IH in E2; [|now apply stream_ok_tail in HD].
        intros H. injection H as <- _ <-. destruct E2 as [S2 K2].
        split; [now apply subjects_ok_app|exact K2].
  - intros H. injection H as <- _ <-. split; [constructor|exact I].
Qed.

Lemma drain_subjects : forall D c r c' ev,
  stream_ok D -> drain c D = (r, c', ev) -> subjects_ok ev.
Proof.
  induction D as [|[d|] D IH]; intros c r c' ev HD; simpl.
  - intros H. injection H as _ _ <-. constructor.
  - assert (Pd : P d) by (apply HD; now left).
    destruct (handleExtraObject c d) as [[stop c1] ev1] eqn:E1.
    apply handleExtraObject_subjects in E1; [|exact Pd].
    destruct stop.
    + intros H. injection H as _ _ <-. exact E1.
    + destruct (drain c1 D) as [[r2 c2] ev2] eqn:E2.
      apply IH in E2; [|now apply stream_ok_tail in HD].
      intros H. injection H as _ _ <-. now apply subjects_ok_app.
  - intros H. injection H as _ _ <-. constructor.
Qed.

Lemma finish_subjects c b D r c' ev :
  buffer_ok b -> stream_ok D -> finish c b D = (r, c', ev) -> subjects_ok ev.
Proof.
  intros Hb HD. unfold finish. destruct (DeleteDst c).
  - destruct b as [d|]; [|now apply drain_subjects].
    destruct (handleExtraObject c d) as [[stop c1] ev1] eqn:E1.
    apply handleExtraObject_subjects in E1; [|now apply Hb].
    destruct stop.
    + intros H. injection H as _ _ <-. exact E1.
    + destruct (drain c1 D) as [[r2 c2] ev2] eqn:E2.
      apply drain_subjects in E2; [|exact HD].
      intros H. injection H as _ _ <-. now apply subjects_ok_app.
  - intros H. injection H as _ _ <-. constructor.
Qed.

Lemma decide_subjects c obj d :
  P obj -> buffer_ok d ->
  subjects_ok (fst (decide c obj d)) /\ buffer_ok (snd (decide c obj d)).
Proof.
  intros Po Hd.
  assert (N : buffer_ok None) by (intros o F; discriminate).
  assert (Sk : subjects_ok [EvSkip obj]).
  { constructor; [|constructor]. right. exists obj. now split. }
  assert (Tk : forall t, withoutSize t = obj -> subjects_ok [EvTask t]).
  { intros t Ht. constructor; [|constructor]. right. exists obj. now split. }
  assert (Dl : IsDir obj = true -> subjects_ok [EvSrcDelay (Key obj)]).
  { intros Hdir. constructor; [|constructor]. right. exists obj. simpl. auto. }
  unfold decide. destruct d as [d|].
  - repeat match goal with
           | |- context [if ?b then _ else _] => destruct b eqn:?
           end; cbn [fst snd]; (split; [auto|assumption]).
  - destruct (Existing c); cbn [fst snd]; auto.
Qed.

Lemma merge_subjects : forall S c b D r c' ev,
  stream_ok S -> stream_ok D -> buffer_ok b ->
  merge c b D S = (r, c', ev) -> subjects_ok ev.
Proof.
  induction S as [|[obj|] S IH]; intros c b D r c' ev HS HD Hb; cbn [merge].
  - now apply finish_subjects.
  - assert (Po : P obj) by (apply HS; now left).
    apply stream_ok_tail in HS.
    destruct (negb (Dirs c) && IsDir obj); [now apply IH|].
    destruct ((Limit c >=? 0) && (Limit c =? 0)).
    { intros H. injection H as _ _ <-. constructor. }
    match goal with
    | |- context [match ?X with pair _ _ => _ end] =>
        destruct X as [[s1 cA] evA] eqn:E1
    end.
    assert (K1 : subjects_ok evA
                 /\ match s1 with
                    | ScanGo b1 D1 => buffer_ok b1 /\ stream_ok D1
                    | ScanRet _ => True
                    end).
    { assert (N : buffer_ok None) by (intros o F; discriminate).
      destruct b as [d|].
      - destruct (Keys.gt (Key obj) (Key d)).
        + destruct (handleExtraObject _ d) as [[stop cx] evx] eqn:Ex.
          apply handleExtraObject_subjects in Ex; [|now apply Hb].
          destruct stop; injection E1 as <- _ <-; auto.
        + injection E1 as <- _ <-. split; [constructor|auto].
      - injection E1 as <- _ <-. split; [constructor|auto]. }
    destruct K1 as [SA KA].
    destruct s1 as [r1|dstobj1 dstkeys1].
    { intros H. injection H as _ _ <-. constructor; [now left|exact SA]. }
    destruct KA as [Hb1 HD1].
    match goal with
    | |- context [match ?X with pair _ _ => _ end] =>
        destruct X as [[s2 cB] evB] eqn:E2
    end.
    assert (K2 : subjects_ok evB
                 /\ match s2 with
                    | ScanGo b2 D2 => buffer_ok b2 /\ stream_ok D2
                    | ScanRet _ => True
                    end).
    { destruct dstobj1.
      - injection E2 as <- _ <-. split; [constructor|auto].
      - now apply advance_subjects in E2. }
    destruct K2 as [SB KB].
    destruct s2 as [r2|dstobj2 dstkeys2].
    { intros H. injection H as _ _ <-.
      constructor; [now left|now apply subjects_ok_app]. }
    destruct KB as [Hb2 HD2].
    destruct (decide_subjects cB obj dstobj2 Po Hb2) as [S3 Hb3].
    destruct (decide cB obj dstobj2) as [ev3 dstobj3]. simpl in S3, Hb3.
    destruct (merge cB dstobj3 dstkeys2 S) as [[r4 c4] ev4] eqn:E4.
    apply IH in E4; auto.
    intros H. injection H as _ _ <-.
    constructor; [now left|]. repeat apply subjects_ok_app; assumption.
  - intros H. injection H as _ _ <-. constructor.
Qed.

End Subjects.

Lemma filter_kept keep o : forall S,
  In (Some o) (filter keep S) -> keep o = true /\ In (Some o) S.
Proof.
  induction S as [|[x|] S IH]; simpl; intros H.
  - contradiction.
  - destruct (keep x) eqn:K.
    + destruct H as [H|H].
      * injection H as ->. split; [exact K|now left].
      * destruct (IH H). split; [assumption|now right].
    + destruct (IH H). split; [assumption|now right].
  - destruct H as [H|H]; [discriminate|contradiction].
Qed.

(** X4. Every event of [produce] other than the count of an object is about
    a descriptor that came on one of the two streams and that [filterKey]
    keeps: an excluded object is never copied, skipped, checked, deleted or
    counted as extra. *)
Theorem produce_handles_kept_objects_only (keep : Obj -> bool) (c : Config)
  (srckeys dstkeys : list (option Obj)) :
  Forall (fun e =>
            e = EvTotal
            \/ exists o, about e o
                         /\ keep o = true
                         /\ (In (Some o) srckeys \/ In (Some o) dstkeys))
         (snd (produce keep c srckeys dstkeys)).
Proof.
  destruct (produce keep c srckeys dstkeys) as [[r c'] ev] eqn:H. simpl.
  unfold produce in H.
  apply (merge_subjects
           (fun o => keep o = true /\ (In (Some o) srckeys \/ In (Some o) dstkeys)))
    in H.
  - exact H.
  - intros o I. apply filter_kept in I. destruct I. auto.
  - intros o I. apply filter_kept in I. destruct I. auto.
  - intros o F. discriminate.
Qed.

End MergerBounds.

(** ** The listing stream: the end bound and the retries of a page *)

Module ListingBounds.
Import Errors Prog Listing.
Local Open Scope prog_scope.






Definition obj_a : Obj := MergerClaims.file "a" 1 0.



(** *** The retries of a page *)

(** The calls of a retry: the sleep and the listing that follows it. *)
Definition retry_calls (s : side) (prefix marker token : string) (followLink : bool)
  (pages : list Page) : list event :=
  flat_map (fun q => [Ev (Sleep (Millisecond * 100)) tt;
                      Ev (List s prefix marker token "" maxResults followLink) q])
           pages.

Lemma removelast_cons2 {A} (a b : A) l : removelast (a :: b :: l) = a :: removelast (b :: l).
Proof. reflexivity. Qed.

(** X6. A page that [List] fails to return is asked for again at most
    three times, each time after a sleep of 100 ms and with the same marker
    and token; the retries stop at the first page without error, the page
    kept is the last one returned, and it is an error only when all three
    retries were made. *)
Theorem list_retry_attempts (k : nat) (s : side) (prefix marker token : string)
  (followLink : bool) (page : Page) (tr : list event) (p : Page) :
  runs (list_retry k s prefix marker token followLink page) tr p ->
  exists pages,
    (List.length pages <= k)%nat
    /\ tr = retry_calls s prefix marker token followLink pages
    /\ p = last pages page
    /\ Forall (fun q => pageErr q <> None) (removelast (page :: pages))
    /\ (pageErr p <> None -> List.length pages = k).
Proof.
  revert page tr. induction k as [|k IH]; intros page tr H; simpl in H.
  - assert (E : tr = [] /\ p = page) by (destruct (pageErr page); exact H).
    destruct E as [-> ->]. exists []. simpl. repeat split; auto.
  - destruct (pageErr page) as [e|] eqn:Pe.
    + destruct H as (u & t1 & -> & q & t2 & -> & H). destruct u.
      apply IH in H. destruct H as (pages & Hl & -> & -> & Hall & Hk).
      exists (q :: pages). split; [simpl; lia|]. split; [reflexivity|].
      split; [now rewrite Listing.last_cons|]. split.
      * rewrite removelast_cons2. constructor; [congruence|exact Hall].
      * intros Hp. simpl. now rewrite Hk.
    + destruct H as [-> ->]. exists []. simpl.
      split; [lia|]. split; [reflexivity|]. split; [reflexivity|].
      split; [constructor|]. intros F. congruence.
Qed.

(** A page that fails twice and then comes. *)
Definition failed_page : Page := mkPage [] false "" (Some (Errno EIO)).
Definition good_page : Page := mkPage [obj_a] false "" None.

Lemma list_retry_attempts_witness :
  exists pages,
    (List.length pages <= 3)%nat
    /\ retry_calls Src "" "m" "t" false [failed_page; good_page]
       = retry_calls Src "" "m" "t" false pages
    /\ good_page = last pages failed_page
    /\ Forall (fun q => pageErr q <> None) (removelast (failed_page :: pages))
    /\ (pageErr good_page <> None -> List.length pages = 3%nat).
Proof.
  apply (list_retry_attempts 3 Src ""%string "m"%string "t"%string false failed_page
           (retry_calls Src "" "m" "t" false [failed_page; good_page]) good_page).
  repeat (simpl; eexists; eexists; split; [reflexivity|]).
  simpl. split; reflexivity.
Defined.

End ListingBounds.

(** ** Part sizes and the ranges of the parts *)

Module PartRanges.
Import Prog PartSize.







(** *** The ranges *)





End PartRanges.

(** ** The checksum of an object: [calPartChksum] and [calObjChksum] *)

Module ObjChecksum.
Import Errors Prog PartSize Crc32c Copy Verify.
Local Open Scope prog_scope.

(** The loop of [calPartChksum], with [k] turns allowed: the running CRC
    over the chunks read. *)
Fixpoint sum_chunks (k : nat) (left : Z) (rd : Reader) (chksum : Z)
  : Z * option error :=
  match k with
  | O => (chksum, None)
  | S k' =>
      if left >? 0 then
        let bs := if left <? bufferSize then left else bufferSize in
        let '(buf, err, rd') := io_ReadFull rd (Z.to_nat bs) in
        match err with
        | Some e => (0, Some (Errorf ("dest read: " ++ ErrorText e)))
        | None => sum_chunks k' (left - bufferSize) rd' (Update Castagnoli chksum buf)
        end
      else (chksum, None)
  end.

Definition calPartChksum (s : side) (key : string) (offset length : Z)
  : prog (Z * option error) :=
  aborted <- call Aborted ;;
  if aborted then Ret (0, Some (Errorf "aborted"))
  else
    g <- call (Get s key offset length) ;;
    match g with
    | inl e => Ret (0, Some (Errorf ("dest get: " ++ ErrorText e)))
    | inr rd => Ret (sum_chunks (chunk_count length) length rd 0)
    end.

(** The goroutines of [calObjChksum], run in the order of their numbers:
    the checksum and the size of each part, and its error. *)
Fixpoint sum_parts (k : nat) (num n : Z) (s : side) (key : string) (size : Z)
  : prog (list (chksumWithSz * option error)) :=
  match k with
  | O => Ret []
  | S k' =>
      let sz := if num =? n - 1 then wrap64 (size - wrap64 (num * defaultPartSize))
                else defaultPartSize in
      r <- calPartChksum s key (wrap64 (num * defaultPartSize)) sz ;;
      rest <- sum_parts k' (num + 1) n s key size ;;
      Ret ((mkChksumWithSz (fst r) sz, snd r) :: rest)
  end.

(** [calObjChksum]; [size] is [obj.Size()]. *)
Definition calObjChksum (s : side) (key : string) (size : Z) : prog (Z * option error) :=
  if size <? maxBlock then calPartChksum s key 0 size
  else
    let n := partCount size defaultPartSize in
    results <- sum_parts (Z.to_nat n) 0 n s key size ;;
    match first_error (map snd results) with
    | Some e => Ret (0, Some e)
    | None =>
        match combine_chksums (map fst results) with
        | Some chksum => Ret (chksum, None)
        | None => Ret (0, Some (Panic "index out of range"))
        end
    end.

(** *** What a run reads *)

(** The bytes of a reader. *)
Definition content (rd : Reader) : list Byte.byte := List.concat (chunks rd).

Definition same_side (a b : side) : bool :=
  match a, b with
  | Src, Src => true
  | Dst, Dst => true
  | _, _ => false
  end.

(** The bytes of the range that a [Get] on the store [s] has opened. *)
Definition fetched_by (s : side) (e : event) : list Byte.byte :=
  match e with
  | Ev o x =>
      match o in op X return X -> list Byte.byte with
      | Get s' _ _ len =>
          fun x => match x with
                   | inr rd => if same_side s s'
                               then firstn (Z.to_nat len) (content rd) else []
                   | inl _ => []
                   end
      | _ => fun _ => []
      end x
  end.

(** The bytes a run fetches from the store [s], in the order of its calls. *)
Definition fetched (s : side) (tr : list event) : list Byte.byte :=
  flat_map (fetched_by s) tr.

Lemma fetched_app s a b : fetched s (a ++ b) = fetched s a ++ fetched s b.
Proof. apply flat_map_app. Qed.

Lemma same_side_refl s : same_side s s = true.
Proof. now destruct s. Qed.

Lemma Reader_Read_content rd n p rd' :
  Reader_Read rd n = (p, None, rd') -> content rd = p ++ content rd'.
Proof.
  unfold Reader_Read, content. destruct (chunks rd) as [|c rest]; [discriminate|].
  destruct (skipn n c) as [|b unread] eqn:Sk; intros H; injection H as <- <-;
    cbn [chunks List.concat].
  - rewrite <- (firstn_skipn n c) at 1. now rewrite Sk, app_nil_r.
  - rewrite <- Sk, app_assoc. now rewrite firstn_skipn.
Qed.

Lemma ReadFull_loop_content : forall fuel r need got data r',
  ReadFull_loop fuel r need got = (data, None, r') ->
  exists bs, data = got ++ bs /\ content (reader r) = bs ++ content (reader r').
Proof.
  induction fuel as [|fuel IH]; intros r need got data r' H.
  - destruct need; simpl in H; [|discriminate].
    injection H as <- <-. exists []. now rewrite app_nil_r.
  - destruct need as [|need].
    + simpl in H. injection H as <- <-. exists []. now rewrite app_nil_r.
    + cbn [ReadFull_loop] in H. unfold chksumReader_Read in H.
      destruct (Reader_Read (reader r) (S need)) as [[p err] rd1] eqn:E.
      destruct err as [e|]; [discriminate|].
      apply Reader_Read_content in E. apply IH in H.
      destruct H as (bs & -> & Hc). simpl in Hc.
      exists (p ++ bs). rewrite app_assoc. split; [reflexivity|].
      now rewrite E, Hc, app_assoc.
Qed.

Lemma io_ReadFull_content rd n data rd' :
  io_ReadFull rd n = (data, None, rd') ->
  List.length data = n /\ content rd = data ++ content rd'.
Proof.
  unfold io_ReadFull.
  destruct (ReadFull (mkChksumReader rd 0 false) n) as [[d e] r] eqn:E.
  intros H. injection H as -> -> <-.
  split; [now apply CopyChecksum.ReadFull_ok in E|].
  unfold ReadFull in E. apply ReadFull_loop_content in E.
  destruct E as (bs & -> & Hc). exact Hc.
Qed.

Lemma prefix_firstn {A} (l data rest : list A) n :
  l = data ++ rest -> List.length data = n -> firstn n l = data.
Proof.
  intros -> <-. rewrite firstn_app, Nat.sub_diag, firstn_all. simpl.
  apply app_nil_r.
Qed.

Lemma bufferSize_val : bufferSize = 32768.
Proof. reflexivity. Qed.

Lemma sum_chunks_ok : forall k left rd chksum c,
  sum_chunks k left rd chksum = (c, None) ->
  left <= Z.of_nat k * bufferSize ->
  exists data rest,
    content rd = data ++ rest
    /\ Z.of_nat (List.length data) = Z.max 0 left
    /\ c = Update Castagnoli chksum data.
Proof.
  induction k as [|k IH]; intros left rd chksum c H Hk.
  - simpl in H. injection H as <-. exists [], (content rd).
    split; [reflexivity|]. split; [simpl; lia|]. now rewrite Update_nil.
  - cbn [sum_chunks] in H. destruct (Z.gtb_spec left 0) as [G|L].
    + set (bs := if left <? bufferSize then left else bufferSize) in *.
      destruct (io_ReadFull rd (Z.to_nat bs)) as [[buf err] rd'] eqn:E.
      destruct err as [e|]; [discriminate|].
      apply io_ReadFull_content in E. destruct E as [Hl Hc].
      apply IH in H; [|rewrite bufferSize_val in *; lia].
      destruct H as (data & rest & Hc' & Hl' & ->).
      exists (buf ++ data), rest. split; [now rewrite Hc, Hc', app_assoc|].
      split; [|apply Update_app].
      rewrite length_app, Hl. unfold bs. rewrite bufferSize_val in *.
      destruct (Z.ltb_spec left 32768); lia.
    + injection H as <-. exists [], (content rd).
      split; [reflexivity|]. split; [simpl; lia|]. now rewrite Update_nil.
Qed.

(** A part that succeeds returns the CRC of the range it has opened. *)
Lemma calPartChksum_ok s key offset length tr c :
  runs (calPartChksum s key offset length) tr (c, None) ->
  c = Checksum Castagnoli (fetched s tr)
  /\ Z.of_nat (List.length (fetched s tr)) = Z.max 0 length.
Proof.
  unfold calPartChksum. intros H.
  apply runs_bind in H. destruct H as (t1 & aborted & t2 & Ha & H & ->).
  apply runs_call in Ha. subst t1.
  destruct aborted; [destruct H as [_ H]; discriminate|].
  apply runs_bind in H. destruct H as (t3 & g & t4 & Hg & H & ->).
  apply runs_call in Hg. subst t3.
  destruct g as [e|rd]; destruct H as [-> H]; [discriminate|].
  symmetry in H. apply sum_chunks_ok in H; [|apply chunk_count_enough].
  destruct H as (data & rest & Hc & Hl & ->).
  unfold fetched. simpl. rewrite same_side_refl, app_nil_r.
  rewrite (prefix_firstn _ data rest _ Hc) by lia.
  split; [reflexivity|exact Hl].
Qed.

(** A part and the bytes it has read. *)
Definition summed (r : chksumWithSz * option error) (d : list Byte.byte) : Prop :=
  part_size (fst r) = Z.of_nat (List.length d)
  /\ part_chksum (fst r) = Checksum Castagnoli d.

Lemma defaultPartSize_val : defaultPartSize = 5242880.
Proof. reflexivity. Qed.

Lemma sum_parts_ok : forall k num n s key size tr results,
  runs (sum_parts k num n s key size) tr results ->
  first_error (map snd results) = None ->
  0 <= num -> Z.of_nat k = n - num ->
  (n - 1) * defaultPartSize < size <= n * defaultPartSize -> size <= 2^60 ->
  exists datas,
    fetched s tr = List.concat datas
    /\ Forall2 summed results datas
    /\ Z.of_nat (List.length (fetched s tr)) = Z.max 0 (size - num * defaultPartSize).
Proof.
  induction k as [|k IH]; intros num n s key size tr results H Herr Hnum Hk Hs Hm.
  - destruct H as [-> ->]. exists []. split; [reflexivity|].
    split; [constructor|]. simpl. lia.
  - cbn [sum_parts] in H.
    apply runs_bind in H. destruct H as (t1 & r & t2 & Hr & H & ->).
    apply runs_bind in H. destruct H as (t3 & rest & t4 & Hrest & H & ->).
    destruct H as [-> ->]. rewrite app_nil_r.
    simpl in Herr. destruct r as [c [e|]]; [discriminate|]. simpl in Herr.
    apply calPartChksum_ok in Hr. destruct Hr as [Hc Hl].
    apply IH in Hrest; [|exact Herr|lia|lia|exact Hs|exact Hm].
    destruct Hrest as (datas & Hf & Hall & Hlen).
    assert (Hsz : (if num =? n - 1
                   then wrap64 (size - wrap64 (num * defaultPartSize))
                   else defaultPartSize)
                  = if num =? n - 1 then size - num * defaultPartSize
                    else defaultPartSize).
    { rewrite defaultPartSize_val in *.
      destruct (Z.eqb_spec num (n - 1)) as [->|Hne]; [|reflexivity].
      rewrite (wrap64_small ((n - 1) * 5242880))
        by (unfold min_int64, max_int64; lia).
      apply wrap64_small. unfold min_int64, max_int64. lia. }
    rewrite Hsz in Hl.
    exists (fetched s t1 :: datas). split; [now rewrite fetched_app, Hf|].
    split.
    + constructor; [|exact Hall]. split; [|exact Hc]. simpl. rewrite Hl, Hsz.
      rewrite defaultPartSize_val in *.
      destruct (Z.eqb_spec num (n - 1)); lia.
    + rewrite fetched_app, length_app, Nat2Z.inj_add, Hl, Hlen.
      rewrite defaultPartSize_val in *.
      destruct (Z.eqb_spec num (n - 1)); lia.
Qed.

Lemma combine_summed : forall results datas c0 bs,
  Forall2 summed results datas ->
  c0 = Checksum Castagnoli bs ->
  fold_left (fun chksum ci =>
               CRC32Combine Castagnoli chksum (part_chksum ci) (part_size ci))
            (map fst results) c0
  = Checksum Castagnoli (bs ++ List.concat datas).
Proof.
  intros results datas c0 bs H. revert c0 bs.
  induction H as [|r d results datas [Hsz Hck] _ IH]; intros c0 bs ->; simpl.
  - now rewrite app_nil_r.
  - rewrite app_assoc. apply IH. rewrite Hsz, Hck. apply CRC32Combine_app.
Qed.

(** X9. The checksum that [calObjChksum] returns without error is the
    CRC32C of the bytes of the object: of the [size] bytes that its [Get]
    calls on the store have opened, taken in the order of the parts. *)
Theorem calObjChksum_is_crc32c (s : side) (key : string) (size : Z)
  (tr : list event) (c : Z) :
  0 <= size <= 2^60 ->
  runs (calObjChksum s key size) tr (c, None) ->
  c = Checksum Castagnoli (fetched s tr)
  /\ Z.of_nat (List.length (fetched s tr)) = size.
Proof.
  intros Hs H. unfold calObjChksum in H.
  destruct (Z.ltb_spec size maxBlock) as [L|G].
  - apply calPartChksum_ok in H. destruct H as [Hc Hl]. split; [exact Hc|lia].
  - rewrite CopyChecksum.maxBlock_val in G.
    pose proof (CopyChecksum.partCount_spec size defaultPartSize ltac:(lia)
                  ltac:(rewrite defaultPartSize_val; lia)) as (Hn & Hlo & Hhi).
    set (n := partCount size defaultPartSize) in *.
    apply runs_bind in H. destruct H as (t1 & results & t2 & Hr & H & ->).
    destruct (first_error (map snd results)) as [e|] eqn:Fe;
      [destruct H as [_ H]; discriminate|].
    apply sum_parts_ok in Hr; [|exact Fe|lia|lia|lia|lia].
    destruct Hr as (datas & Hf & Hall & Hlen).
    destruct (combine_chksums (map fst results)) as [chksum|] eqn:Cc;
      destruct H as [-> H]; [|discriminate].
    injection H as ->. rewrite app_nil_r.
    split; [|lia]. rewrite Hf.
    destruct Hall as [|r d results datas [Hsz Hck] Hall]; [discriminate|].
    simpl in Cc. injection Cc as <-. simpl.
    apply (combine_summed results datas _ d Hall). exact Hck.
Qed.

(** An object of three bytes, read in one part. *)
Definition abc : list Byte.byte := [Byte.x61; Byte.x62; Byte.x63].

Definition abc_listing : list event :=
  [Ev Aborted false; Ev (Get Dst "k" 0 3) (inr (mkReader [abc] ErrEOF))].

Lemma calObjChksum_is_crc32c_witness :
  Checksum Castagnoli abc = Checksum Castagnoli (fetched Dst abc_listing)
  /\ Z.of_nat (List.length (fetched Dst abc_listing)) = 3.
Proof.
  apply (calObjChksum_is_crc32c Dst "k" 3 abc_listing (Checksum Castagnoli abc)).
  - lia.
  - repeat (simpl; eexists; eexists; split; [reflexivity|]).
    split; reflexivity.
Defined.

(** *** The byte-wise verifier is right *)

Lemma bytes_Equal_eq a b : bytes_Equal a b = true <-> a = b.
Proof.
  unfold bytes_Equal. destruct (list_eq_dec Byte.byte_eq_dec a b); split; auto.
  discriminate.
Qed.

Lemma compare_chunks_equal : forall k left in1 in2,
  compare_chunks k left in1 in2 = None ->
  left <= Z.of_nat k * bufferSize ->
  exists data rest1 rest2,
    content in1 = data ++ rest1 /\ content in2 = data ++ rest2
    /\ Z.of_nat (List.length data) = Z.max 0 left.
Proof.
  induction k as [|k IH]; intros left in1 in2 H Hk.
  - exists [], (content in1), (content in2). simpl. repeat split; lia.
  - cbn [compare_chunks] in H. destruct (Z.gtb_spec left 0) as [G|L].
    + set (bs := if left <? bufferSize then left else bufferSize) in *.
      destruct (io_ReadFull in1 (Z.to_nat bs)) as [[buf err] in1'] eqn:E1.
      destruct err as [e|]; [discriminate|].
      destruct (io_ReadFull in2 (Z.to_nat bs)) as [[buf2 err2] in2'] eqn:E2.
      destruct err2 as [e|]; [discriminate|].
      destruct (bytes_Equal buf buf2) eqn:B; [|discriminate]. simpl in H.
      apply bytes_Equal_eq in B. subst buf2.
      apply io_ReadFull_content in E1. destruct E1 as [Hl Hc1].
      apply io_ReadFull_content in E2. destruct E2 as [_ Hc2].
      apply IH in H; [|rewrite bufferSize_val in *; lia].
      destruct H as (data & r1 & r2 & H1 & H2 & Hd).
      exists (buf ++ data), r1, r2.
      split; [now rewrite Hc1, H1, app_assoc|].
      split; [now rewrite Hc2, H2, app_assoc|].
      rewrite length_app, Hl. unfold bs. rewrite bufferSize_val in *.
      destruct (Z.ltb_spec left 32768); lia.
    + exists [], (content in1), (content in2). simpl. repeat split; lia.
Qed.

Lemma compare_chunks_differ : forall k left in1 in2,
  compare_chunks k left in1 in2 = Some BytesNotEqual ->
  exists data b1 b2 rest1 rest2,
    content in1 = data ++ b1 ++ rest1 /\ content in2 = data ++ b2 ++ rest2
    /\ List.length b1 = List.length b2 /\ b1 <> b2
    /\ Z.of_nat (List.length data + List.length b1) <= left.
Proof.
  induction k as [|k IH]; intros left in1 in2 H; [discriminate|].
  cbn [compare_chunks] in H. destruct (Z.gtb_spec left 0) as [G|L]; [|discriminate].
  set (bs := if left <? bufferSize then left else bufferSize) in *.
  destruct (io_ReadFull in1 (Z.to_nat bs)) as [[buf err] in1'] eqn:E1.
  destruct err as [e|]; [discriminate|].
  destruct (io_ReadFull in2 (Z.to_nat bs)) as [[buf2 err2] in2'] eqn:E2.
  destruct err2 as [e|]; [discriminate|].
  apply io_ReadFull_content in E1. destruct E1 as [Hl1 Hc1].
  apply io_ReadFull_content in E2. destruct E2 as [Hl2 Hc2].
  assert (Hbs : 0 < bs <= left /\ (bs = bufferSize \/ left - bufferSize < 0)).
  { unfold bs. rewrite bufferSize_val. destruct (Z.ltb_spec left 32768); lia. }
  destruct (bytes_Equal buf buf2) eqn:B; simpl in H.
  - apply bytes_Equal_eq in B. subst buf2. apply IH in H.
    destruct H as (data & b1 & b2 & r1 & r2 & H1 & H2 & Hl & Hne & Hle).
    exists (buf ++ data), b1, b2, r1, r2.
    split; [now rewrite Hc1, H1, <- app_assoc|].
    split; [now rewrite Hc2, H2, <- app_assoc|].
    split; [exact Hl|]. split; [exact Hne|].
    rewrite length_app, Hl1. lia.
  - exists [], buf, buf2, (content in1'), (content in2').
    split; [exact Hc1|]. split; [exact Hc2|]. split; [congruence|].
    split; [|simpl; lia].
    intros ->. assert (T : bytes_Equal buf2 buf2 = true) by now apply bytes_Equal_eq.
    congruence.
Qed.

Lemma same_side_Src_Dst : same_side Src Dst = false /\ same_side Dst Src = false.
Proof. split; reflexivity. Qed.

(** A part that compares equal has read the same bytes on both sides. *)
Lemma compObjPartBinary_equal key offset length tr :
  runs (compObjPartBinary key offset length) tr None ->
  fetched Src tr = fetched Dst tr
  /\ Z.of_nat (List.length (fetched Src tr)) = Z.max 0 length.
Proof.
  unfold compObjPartBinary. intros H.
  apply runs_bind in H. destruct H as (t1 & aborted & t2 & Ha & H & ->).
  apply runs_call in Ha. subst t1.
  destruct aborted; [destruct H as [_ H]; discriminate|].
  apply runs_bind in H. destruct H as (t3 & g & t4 & Hg & H & ->).
  apply runs_call in Hg. subst t3.
  destruct g as [e|in1]; [destruct H as [_ H]; discriminate|].
  apply runs_bind in H. destruct H as (t5 & g2 & t6 & Hg2 & H & ->).
  apply runs_call in Hg2. subst t5.
  destruct g2 as [e|in2]; destruct H as [-> H]; [discriminate|].
  symmetry in H. apply compare_chunks_equal in H; [|apply chunk_count_enough].
  destruct H as (data & r1 & r2 & H1 & H2 & Hl).
  unfold fetched. simpl. rewrite !app_nil_r.
  rewrite (prefix_firstn _ data r1 _ H1) by lia.
  rewrite (prefix_firstn _ data r2 _ H2) by lia.
  split; [reflexivity|exact Hl].
Qed.

Lemma firstn_cover {A} (l1 l2 : list A) n :
  (List.length l1 <= n)%nat ->
  firstn n (l1 ++ l2) = l1 ++ firstn (n - List.length l1) l2.
Proof.
  intros H. rewrite firstn_app. now rewrite firstn_all2 by lia.
Qed.

(** A part that finds a chunk that differs has opened ranges that differ. *)
Lemma compObjPartBinary_differ key offset length tr :
  runs (compObjPartBinary key offset length) tr (Some BytesNotEqual) ->
  exists data b1 b2 x y,
    fetched Src tr = data ++ b1 ++ x /\ fetched Dst tr = data ++ b2 ++ y
    /\ List.length b1 = List.length b2 /\ b1 <> b2.
Proof.
  unfold compObjPartBinary. intros H.
  apply runs_bind in H. destruct H as (t1 & aborted & t2 & Ha & H & ->).
  apply runs_call in Ha. subst t1.
  destruct aborted; [destruct H as [_ H]; discriminate|].
  apply runs_bind in H. destruct H as (t3 & g & t4 & Hg & H & ->).
  apply runs_call in Hg. subst t3.
  destruct g as [e|in1]; [destruct H as [_ H]; discriminate|].
  apply runs_bind in H. destruct H as (t5 & g2 & t6 & Hg2 & H & ->).
  apply runs_call in Hg2. subst t5.
  destruct g2 as [e|in2]; destruct H as [-> H]; [discriminate|].
  symmetry in H. apply compare_chunks_differ in H.
  destruct H as (data & b1 & b2 & r1 & r2 & H1 & H2 & Hl & Hne & Hle).
  unfold fetched. simpl. rewrite !app_nil_r, H1, H2.
  exists data, b1, b2.
  rewrite (firstn_cover data) by lia. rewrite (firstn_cover b1) by lia.
  rewrite (firstn_cover data) by lia. rewrite (firstn_cover b2) by lia.
  eexists. eexists. split; [reflexivity|]. split; [reflexivity|auto].
Qed.

(** The parts up to the first error: those before it compare equal. *)
Lemma compare_parts_from_ok : forall k num n key size tr errs,
  runs (compare_parts_from k num n key size) tr errs ->
  first_cmp_error errs = None ->
  0 <= num -> Z.of_nat k = n - num ->
  (n - 1) * defaultPartSize < size <= n * defaultPartSize ->
  fetched Src tr = fetched Dst tr
  /\ Z.of_nat (List.length (fetched Src tr)) = Z.max 0 (size - num * defaultPartSize).
Proof.
  induction k as [|k IH]; intros num n key size tr errs H Herr Hnum Hk Hs.
  - destruct H as [-> _]. split; [reflexivity|]. simpl. lia.
  - cbn [compare_parts_from] in H.
    apply runs_bind in H. destruct H as (t1 & e & t2 & He & H & ->).
    apply runs_bind in H. destruct H as (t3 & rest & t4 & Hrest & H & ->).
    destruct H as [-> ->]. rewrite app_nil_r.
    simpl in Herr. destruct e as [e|]; [discriminate|].
    apply compObjPartBinary_equal in He. destruct He as [He Hl].
    apply IH in Hrest; [|exact Herr|lia|lia|exact Hs].
    destruct Hrest as [Hr Hlr].
    split; [now rewrite !fetched_app, He, Hr|].
    rewrite fetched_app, length_app, Nat2Z.inj_add, Hl, Hlr.
    rewrite defaultPartSize_val in *.
    destruct (Z.eqb_spec num (n - 1)); lia.
Qed.

Lemma compare_parts_from_differ : forall k num n key size tr errs,
  runs (compare_parts_from k num n key size) tr errs ->
  first_cmp_error errs = Some BytesNotEqual ->
  exists data b1 b2 x y,
    fetched Src tr = data ++ b1 ++ x /\ fetched Dst tr = data ++ b2 ++ y
    /\ List.length b1 = List.length b2 /\ b1 <> b2.
Proof.
  induction k as [|k IH]; intros num n key size tr errs H Herr.
  - destruct H as [_ ->]. discriminate.
  - cbn [compare_parts_from] in H.
    apply runs_bind in H. destruct H as (t1 & e & t2 & He & H & ->).
    apply runs_bind in H. destruct H as (t3 & rest & t4 & Hrest & H & ->).
    destruct H as [-> ->]. rewrite app_nil_r.
    simpl in Herr. destruct e as [e|].
    + injection Herr as ->. apply compObjPartBinary_differ in He.
      destruct He as (data & b1 & b2 & x & y & H1 & H2 & Hl & Hne).
      exists data, b1, b2, (x ++ fetched Src t3), (y ++ fetched Dst t3).
      rewrite !fetched_app, H1, H2, <- !app_assoc. auto.
    + apply compObjPartBinary_equal in He. destruct He as [He _].
      apply IH in Hrest; [|exact Herr].
      destruct Hrest as (data & b1 & b2 & x & y & H1 & H2 & Hl & Hne).
      exists (fetched Dst t1 ++ data), b1, b2, x, y.
      rewrite !fetched_app, He, H1, H2, <- !app_assoc. auto.
Qed.

Lemma pivot_eq {A} (pre b1 b2 x y : list A) :
  List.length b1 = List.length b2 -> pre ++ b1 ++ x = pre ++ b2 ++ y -> b1 = b2.
Proof.
  intros Hl H. apply app_inv_head in H. revert b2 Hl H.
  induction b1 as [|a b1 IH]; intros [|c b2] Hl H; try discriminate; [reflexivity|].
  simpl in *. injection H as -> H. f_equal. apply IH; [lia|exact H].
Qed.

(** X10. The byte-wise verifier is right both ways. When [compObjBinary]
    answers equal, the ranges it has opened on the source and on the
    destination hold the same bytes, [size] of them; when it answers not
    equal without error, they differ. *)
Theorem compObjBinary_sound (key : string) (size : Z) (tr : list event)
  (equal : bool) :
  0 <= size <= 2^60 ->
  runs (compObjBinary key size) tr (equal, None) ->
  if equal
  then fetched Src tr = fetched Dst tr
       /\ Z.of_nat (List.length (fetched Src tr)) = size
  else fetched Src tr <> fetched Dst tr.
Proof.
  intros Hs H. unfold compObjBinary in H.
  apply runs_bind in H. destruct H as (t1 & first & t2 & Hf & H & ->).
  assert (V : t2 = []
              /\ if equal then first = None else first = Some BytesNotEqual).
  { destruct first as [e|].
    - destruct (String.eqb (cmp_text e) "bytes not equal") eqn:E;
        destruct H as [-> H]; [|discriminate].
      injection H as ->. apply cmp_text_sentinel in E. now subst e.
    - destruct H as [-> H]. injection H as ->. auto. }
  destruct V as [-> V]. rewrite app_nil_r. unfold compare_parts in Hf.
  destruct (Z.ltb_spec size maxBlock) as [L|G].
  - destruct equal; subst first.
    + apply compObjPartBinary_equal in Hf. destruct Hf as [He Hl].
      split; [exact He|lia].
    + apply compObjPartBinary_differ in Hf.
      destruct Hf as (data & b1 & b2 & x & y & H1 & H2 & Hl & Hne).
      rewrite H1, H2. intros F. apply Hne. eapply pivot_eq; eauto.
  - rewrite CopyChecksum.maxBlock_val in G.
    pose proof (CopyChecksum.partCount_spec size defaultPartSize ltac:(lia)
                  ltac:(rewrite defaultPartSize_val; lia)) as (Hn & Hlo & Hhi).
    set (n := partCount size defaultPartSize) in *.
    apply runs_bind in Hf. destruct Hf as (t3 & errs & t4 & He & Hf & ->).
    destruct Hf as [-> ->]. rewrite app_nil_r.
    destruct equal.
    + apply compare_parts_from_ok in He; [|exact V|lia|lia|lia].
      destruct He as [He Hl]. split; [exact He|lia].
    + apply compare_parts_from_differ in He; [|exact V].
      destruct He as (data & b1 & b2 & x & y & H1 & H2 & Hl & Hne).
      rewrite H1, H2. intros F. apply Hne. eapply pivot_eq; eauto.
Qed.

(** A destination whose third byte differs. *)
Definition abd_compare : list event :=
  [Ev Aborted false;
   Ev (Get Src "k" 0 3) (inr (mkReader [abc] ErrEOF));
   Ev (Get Dst "k" 0 3) (inr (mkReader [[Byte.x61; Byte.x62; Byte.x64]] ErrEOF))].

Lemma compObjBinary_sound_witness :
  fetched Src abd_compare <> fetched Dst abd_compare.
Proof.
  apply (compObjBinary_sound "k" 3 abd_compare false).
  - lia.
  - repeat (simpl; eexists; eexists; split; [reflexivity|]).
    simpl. split; reflexivity.
Defined.

End ObjChecksum.

(** ** Edges of the copy engine *)

Module CopyEdges.
Import Errors Prog Retry PartSize Crc32c Copy.
Local Open Scope prog_scope.

Ltac run_bind H tr1 x tr2 Hx :=
  apply runs_bind in H; destruct H as (tr1 & x & tr2 & Hx & H & ->).

Ltac run_call H x tr' :=
  let t := fresh "t" in
  let Hc := fresh "Hc" in
  apply runs_bind in H; destruct H as (t & x & tr' & Hc & H & ->);
  apply runs_call in Hc; subst t.

(** *** A source object that has vanished *)






(** *** How a multipart copy ends *)






End CopyEdges.

(** ** The include / exclude rules: [matchFullPath] and [matchLeveledPath] *)

Module Rules.
Import Keys.
Local Open Scope string_scope.
Local Open Scope nat_scope.

(** Modelled from the spec: strings.Split(s, sep) of the Go standard
    library for a separator of one byte: the pieces of [s] between the
    separators, one piece more than there are separators. *)
Fixpoint Split (s : string) (sep : ascii) : list string :=
  match s with
  | EmptyString => [EmptyString]
  | String c rest =>
      if Ascii.eqb c sep then EmptyString :: Split rest sep
      else match Split rest sep with
           | piece :: pieces => String c piece :: pieces
           | [] => [String c EmptyString]
           end
  end.

Definition slash : ascii := "/"%char.

(** strings.Index(s, sub), [None] for -1, and strings.Contains. *)
Definition Index (s sub : string) : option nat := String.index 0 sub s.

Definition Contains (s sub : string) : bool :=
  match Index s sub with
  | Some _ => true
  | None => false
  end.

(** s[i:] and s[:i] of a string. *)
Definition from (i : nat) (s : string) : string :=
  substring i (String.length s - i) s.

Definition upto (i : nat) (s : string) : string := substring 0 i s.

Section Matching.

(** path.Match of the Go standard library: whether the name matches the
    shell pattern, and the error of a malformed pattern. *)
Variable path_Match : string -> string -> bool * option Errors.error.

(** The recursion of [matchTwoStar] is on a pattern that loses a byte at
    each call; [fuel] bounds its depth. *)
Fixpoint matchTwoStar_loop (fuel : nat) (p : string) (s : list string) : bool :=
  match fuel with
  | O => false
  | S fuel' =>
      match s with
      | [] => String.eqb p "*"
      | s0 :: _ =>
          match Index p "**" with
          | None => fst (path_Match p (String.concat "/" s))
          | Some idx =>
              if negb (fst (path_Match (upto (idx + 1) p) s0)) then false
              else
                existsb
                  (fun i =>
                     let tp := if Nat.eqb i 0 then upto idx p ++ from (idx + 1) p
                               else from (idx + 1) p in
                     matchTwoStar_loop fuel' tp (skipn i s))
                  (seq 0 (S (List.length s)))
          end
      end
  end.

Definition matchTwoStar (p : string) (s : list string) : bool :=
  matchTwoStar_loop (S (String.length p)) p s.

Fixpoint matchPrefix (p s : list string) : bool :=
  match p with
  | [] => Nat.eqb 0 (List.length s)
  | first :: p' =>
      match s with
      | [] => false
      | s0 :: s' =>
          if String.eqb first "***" then true
          else if Contains first "**" then
            existsb
              (fun i => matchTwoStar first (firstn i s) && matchPrefix p' (skipn i s))
              (seq 1 (List.length s))
          else fst (path_Match first s0) && matchPrefix p' s'
      end
  end.

(** [matchSuffix] takes the pattern from its last piece on: the recursion
    is on the pieces in reverse. *)
Fixpoint matchSuffix_rev (rp : list string) (s : list string) : bool :=
  match rp with
  | [] => true
  | last :: rprefix =>
      match s with
      | [] =>
          Nat.eqb (List.length rp) 1
          && (String.eqb last "***" || String.eqb last "**")
      | _ :: _ =>
          let n := List.length s in
          if String.eqb last "***" then
            existsb (fun i => matchSuffix_rev rprefix (firstn i s)) (seq 0 n)
          else if Contains last "**" then
            existsb
              (fun i => matchTwoStar last (skipn i s)
                        && matchSuffix_rev rprefix (firstn i s))
              (seq 0 n)
          else
            fst (path_Match last (nth (n - 1) s ""))
            && matchSuffix_rev rprefix (firstn (n - 1) s)
      end
  end.

Definition matchSuffix (p s : list string) : bool := matchSuffix_rev (rev p) s.

(** The test of one rule against the pieces [ps] of a key, the same in
    [matchFullPath] and [matchLeveledPath]. *)
Definition rule_matches (r : rule) (ps : list string) : bool :=
  let p := Split (pattern r) slash in
  if String.eqb (hd "" p) "" then
    matchPrefix (if negb (String.eqb (hd "" ps) "") then tl p else p) ps
  else matchSuffix p ps.

(** for _, rule := range rules: [true] when the loop is left by [break] or
    at its end, [false] when it returns false. *)
Fixpoint first_rule (rules : list rule) (ps : rule -> list string) : bool :=
  match rules with
  | [] => true
  | r :: rest =>
      if rule_matches r (ps r) then include r else first_rule rest ps
  end.

Definition matchFullPath (rules : list rule) (key : string) : bool :=
  let ps := Split key slash in
  first_rule rules (fun _ => ps).

(** The pieces a rule is tested against at level [i]. *)
Definition level_pieces (parts : list string) (i : nat) (r : rule) : list string :=
  let ps := firstn (i + 1) parts in
  let p := Split (pattern r) slash in
  let last := nth (List.length p - 1) p "" in
  if Nat.ltb i (List.length parts - 1)
     && (String.eqb last "" || String.eqb last "***")
  then (ps ++ [""])%list else ps.

Definition level_passes (rules : list rule) (parts : list string) (i : nat) : bool :=
  if String.eqb (nth i parts "") "" then true
  else first_rule rules (level_pieces parts i).

Definition matchLeveledPath (rules : list rule) (key : string) : bool :=
  let parts := Split key slash in
  forallb (level_passes rules parts) (seq 0 (List.length parts)).

(** *** The recursion of [matchTwoStar] *)

Lemma substring_length (n m : nat) (s : string) :
  String.length (substring n m s) <= m.
Proof.
  revert n m. induction s as [|c s IH]; intros [|n] [|m]; simpl; try lia.
  - specialize (IH 0 m). lia.
  - apply (IH n 0).
  - apply (IH n (S m)).
Qed.

Lemma length_append (a b : string) :
  String.length (a ++ b) = String.length a + String.length b.
Proof. induction a as [|c a IH]; simpl; [reflexivity|now rewrite IH]. Qed.

Lemma substring_inside (n m : nat) (s : string) :
  String.length (substring n (S m) s) = S m -> n + S m <= String.length s.
Proof.
  revert n m. induction s as [|c s IH]; intros [|n] m; simpl; try discriminate.
  - intros H. injection H as H.
    assert (G : forall k, String.length (substring 0 k s) = k -> k <= String.length s).
    { clear. induction s as [|c s IH]; intros [|k]; simpl; try lia.
      intros H. injection H as H. apply IH in H. lia. }
    apply G in H. lia.
  - intros H. apply IH in H. lia.
Qed.

Lemma Index_inside (p sub : string) (idx : nat) :
  Index p sub = Some idx -> 0 < String.length sub ->
  idx + String.length sub <= String.length p.
Proof.
  unfold Index. intros H L. apply index_correct1 in H.
  destruct (String.length sub) as [|m] eqn:E; [lia|].
  apply substring_inside. now rewrite H.
Qed.

Lemma existsb_same {A} (f g : A -> bool) (l : list A) :
  (forall a, f a = g a) -> existsb f l = existsb g l.
Proof. intros E. induction l as [|a l IH]; simpl; [reflexivity|]. now rewrite E, IH. Qed.

(** Any fuel above the length of the pattern gives the same answer: the
    fuel of [matchTwoStar] never runs out. *)
Lemma matchTwoStar_loop_fuel : forall f1 f2 p s,
  String.length p < f1 -> String.length p < f2 ->
  matchTwoStar_loop f1 p s = matchTwoStar_loop f2 p s.
Proof.
  induction f1 as [|f1 IH]; intros [|f2] p s H1 H2; try lia.
  cbn [matchTwoStar_loop]. destruct s as [|s0 s]; [reflexivity|].
  destruct (Index p "**") as [idx|] eqn:E; [|reflexivity].
  apply Index_inside in E; [|simpl; lia]. simpl in E.
  destruct (negb (fst (path_Match (upto (idx + 1) p) s0))); [reflexivity|].
  apply existsb_same. intros i. apply IH.
  - destruct (Nat.eqb i 0).
    + rewrite length_append. unfold upto, from.
      pose proof (substring_length 0 idx p).
      pose proof (substring_length (idx + 1) (String.length p - (idx + 1)) p). lia.
    + unfold from.
      pose proof (substring_length (idx + 1) (String.length p - (idx + 1)) p). lia.
  - destruct (Nat.eqb i 0).
    + rewrite length_append. unfold upto, from.
      pose proof (substring_length 0 idx p).
      pose proof (substring_length (idx + 1) (String.length p - (idx + 1)) p). lia.
    + unfold from.
      pose proof (substring_length (idx + 1) (String.length p - (idx + 1)) p). lia.
Qed.

(** [matchTwoStar] as the source writes it. *)
Lemma matchTwoStar_eq (p : string) (s : list string) :
  matchTwoStar p s =
  match s with
  | [] => String.eqb p "*"
  | s0 :: _ =>
      match Index p "**" with
      | None => fst (path_Match p (String.concat "/" s))
      | Some idx =>
          if negb (fst (path_Match (upto (idx + 1) p) s0)) then false
          else
            existsb
              (fun i =>
                 matchTwoStar (if Nat.eqb i 0 then upto idx p ++ from (idx + 1) p
                               else from (idx + 1) p) (skipn i s))
              (seq 0 (S (List.length s)))
      end
  end.
Proof.
  unfold matchTwoStar at 1. cbn [matchTwoStar_loop].
  destruct s as [|s0 s]; [reflexivity|].
  destruct (Index p "**") as [idx|] eqn:E; [|reflexivity].
  apply Index_inside in E; [|simpl; lia]. simpl in E.
  destruct (negb (fst (path_Match (upto (idx + 1) p) s0))); [reflexivity|].
  apply existsb_same. intros i. unfold matchTwoStar.
  apply matchTwoStar_loop_fuel; [|lia].
  destruct (Nat.eqb i 0).
  - rewrite length_append. unfold upto, from.
    pose proof (substring_length 0 idx p).
    pose proof (substring_length (idx + 1) (String.length p - (idx + 1)) p). lia.
  - unfold from.
    pose proof (substring_length (idx + 1) (String.length p - (idx + 1)) p). lia.
Qed.

(** *** The pieces of a key *)

Lemma Split_nonempty (s : string) (sep : ascii) : Split s sep <> [].
Proof.
  destruct s as [|c s]; simpl; [discriminate|].
  destruct (Ascii.eqb c sep); [discriminate|].
  destruct (Split s sep); discriminate.
Qed.

Lemma Split_app (a b : string) (sep : ascii) :
  Split (a ++ String sep b) sep = (Split a sep ++ Split b sep)%list.
Proof.
  induction a as [|c a IH]; simpl.
  - now rewrite Ascii.eqb_refl.
  - destruct (Ascii.eqb c sep); [now rewrite IH|].
    rewrite IH. pose proof (Split_nonempty a sep) as N.
    destruct (Split a sep); [contradiction|reflexivity].
Qed.

Lemma first_rule_ext (rules : list rule) (ps ps' : rule -> list string) :
  (forall r, ps r = ps' r) -> first_rule rules ps = first_rule rules ps'.
Proof.
  intros E. induction rules as [|r rules IH]; simpl; [reflexivity|].
  now rewrite E, IH.
Qed.

Lemma first_rule_include (rules : list rule) (ps : rule -> list string) :
  Forall (fun r => include r = true) rules -> first_rule rules ps = true.
Proof.
  induction 1 as [|r rules Hr _ IH]; simpl; [reflexivity|].
  destruct (rule_matches r (ps r)); assumption.
Qed.

(** The levels of [dir] are judged alike in any key below [dir]. *)
Lemma level_passes_below (rules : list rule) (d : list string) (a b : string)
  (below below' : list string) (i : nat) :
  i < List.length d ->
  level_passes rules (d ++ a :: below)%list i
  = level_passes rules (d ++ b :: below')%list i.
Proof.
  intros Hi. unfold level_passes.
  rewrite !app_nth1 by exact Hi.
  destruct (String.eqb (nth i d "") ""); [reflexivity|].
  apply first_rule_ext. intros r. unfold level_pieces.
  rewrite !firstn_app.
  replace (i + 1 - List.length d) with 0 by lia. simpl firstn.
  rewrite !length_app. simpl List.length.
  replace (Nat.ltb i (List.length d + S (List.length below) - 1)) with true
    by (symmetry; apply Nat.ltb_lt; lia).
  replace (Nat.ltb i (List.length d + S (List.length below') - 1)) with true
    by (symmetry; apply Nat.ltb_lt; lia).
  reflexivity.
Qed.

End Matching.

Section Parsing.

Variable path_Match : string -> string -> bool * option Errors.error.

(** runtime.GOOS *)
Variable GOOS : string.

(** strings.Replace(p, "\\", "/", -1) *)
Fixpoint to_slashes (p : string) : string :=
  match p with
  | EmptyString => EmptyString
  | String c rest =>
      String (if Ascii.eqb c "\"%char then slash else c) (to_slashes rest)
  end.

Definition parseRule (name p : string) : rule :=
  let p := if String.eqb GOOS "windows" then to_slashes p else p in
  mkRule p (String.eqb name "-include").

(** _, err := path.Match(p, "xxxx"); err == nil *)
Definition well_formed (p : string) : bool :=
  match snd (path_Match p "xxxx") with
  | None => true
  | Some _ => false
  end.

(** The body of the loop of [parseIncludeRules] for the argument [a],
    with the argument after it when there is one: the rules it appends. *)
Definition parse_arg (a : string) (next : option string) : list rule :=
  let a := if HasPrefix a "--" then from 1 a else a in
  let with_equals :=
    if HasPrefix a "-include=" || HasPrefix a "-exclude=" then
      match Split a "="%char with
      | [name; p] =>
          if negb (String.eqb p "") then
            if well_formed p then [parseRule name p] else []
          else []
      | _ => []
      end
    else [] in
  match next with
  | Some p =>
      if String.eqb a "-include" || String.eqb a "-exclude" then
        if well_formed p then [parseRule a p] else []
      else with_equals
  | None => with_equals
  end.

Fixpoint parseIncludeRules (args : list string) : list rule :=
  match args with
  | [] => []
  | a :: rest => (parse_arg a (hd_error rest) ++ parseIncludeRules rest)%list
  end.

(** How a rule is written on the command line: with one dash or two, the
    pattern as the next argument or after an equals sign. *)
Record spelling : Type := mkSpelling {
  two_dashes : bool;
  equals_sign : bool
}.

Definition flag (r : rule) : string :=
  if include r then "-include" else "-exclude".

Definition spell (r : rule) (w : spelling) : list string :=
  let name := (if two_dashes w then "-" else "") ++ flag r in
  if equals_sign w then [name ++ "=" ++ pattern r] else [name; pattern r].

(** An argument that [parseIncludeRules] reads as an option. *)
Definition reads_as_option (a : string) : bool :=
  let a := if HasPrefix a "--" then from 1 a else a in
  String.eqb a "-include" || String.eqb a "-exclude"
  || HasPrefix a "-include=" || HasPrefix a "-exclude=".

(** A pattern that every spelling can carry: well formed for [path.Match],
    not empty, without an equals sign, and not itself read as an option. *)
Definition spellable (r : rule) : bool :=
  well_formed (pattern r)
  && negb (String.eqb (pattern r) "")
  && Nat.eqb (List.length (Split (pattern r) "="%char)) 1
  && negb (reads_as_option (pattern r)).

(** The rule as [parseRule] stores it on this system. *)
Definition stored (r : rule) : rule :=
  mkRule (if String.eqb GOOS "windows" then to_slashes (pattern r) else pattern r)
         (include r).

Lemma substring_all (s : string) : substring 0 (String.length s) s = s.
Proof. induction s as [|c s IH]; simpl; [reflexivity|now rewrite IH]. Qed.

Lemma from_1 (c : ascii) (s : string) : from 1 (String c s) = s.
Proof. unfold from. simpl. rewrite Nat.sub_0_r. apply substring_all. Qed.

Lemma Split_single (p x : string) (sep : ascii) : Split p sep = [x] -> x = p.
Proof.
  revert x. induction p as [|c p IH]; intros x; simpl.
  - intros H. now injection H as <-.
  - pose proof (Split_nonempty p sep) as N.
    destruct (Ascii.eqb c sep).
    + destruct (Split p sep); [contradiction|discriminate].
    + destruct (Split p sep) as [|h t]; [contradiction|].
      intros H. injection H as <- ->. f_equal. now apply IH.
Qed.

Lemma parse_arg_plain (a : string) (next : option string) :
  reads_as_option a = false -> parse_arg a next = [].
Proof.
  unfold reads_as_option, parse_arg. intros H.
  apply orb_false_elim in H. destruct H as [H H4].
  apply orb_false_elim in H. destruct H as [H H3].
  rewrite H, H3, H4. simpl. now destruct next.
Qed.

Lemma parse_spelled (r : rule) (w : spelling) (rest : list string) :
  spellable r = true ->
  parseIncludeRules (spell r w ++ rest)%list = stored r :: parseIncludeRules rest.
Proof.
  unfold spellable. intros H.
  apply andb_prop in H. destruct H as [H Ho].
  apply andb_prop in H. destruct H as [H Hs].
  apply andb_prop in H. destruct H as [Hw He].
  apply negb_true_iff in Ho, He. apply Nat.eqb_eq in Hs.
  assert (Sp : Split (pattern r) "="%char = [pattern r]).
  { destruct (Split (pattern r) "="%char) as [|x [|y t]] eqn:E; try discriminate.
    now rewrite (Split_single _ _ _ E). }
  destruct r as [p inc]. simpl in *.
  destruct w as [dd eq]. unfold spell, flag, stored. simpl.
  destruct eq.
  - assert (G : forall next,
               parse_arg (((if dd then "-" else "") ++ (if inc then "-include" else "-exclude")) ++ "=" ++ p) next
               = [parseRule (if inc then "-include" else "-exclude") p]).
    { intros next. unfold parse_arg.
      assert (E : (if HasPrefix (((if dd then "-" else "") ++ (if inc then "-include" else "-exclude")) ++ "=" ++ p) "--"
                   then from 1 (((if dd then "-" else "") ++ (if inc then "-include" else "-exclude")) ++ "=" ++ p)
                   else ((if dd then "-" else "") ++ (if inc then "-include" else "-exclude")) ++ "=" ++ p)
                  = (if inc then "-include" else "-exclude") ++ String "="%char p).
      { destruct dd, inc; cbn [append HasPrefix String.prefix Ascii.eqb Bool.eqb
                               andb ascii_dec];
          rewrite ?from_1; reflexivity. }
      rewrite E. clear E.
      rewrite Split_app.
      replace (Split (if inc then "-include" else "-exclude") "="%char)
        with [if inc then "-include" else "-exclude"] by (now destruct inc).
      rewrite Sp.
      unfold HasPrefix.
      assert (Pe : String.prefix "" p = true) by (now destruct p).
      destruct inc, next; simpl; rewrite Pe, He, Hw; reflexivity. }
    cbn [app parseIncludeRules]. rewrite G. cbn [app]. f_equal.
    unfold parseRule. now destruct inc.
  - cbn [app parseIncludeRules hd_error].
    assert (G : parse_arg ((if dd then "-" else "") ++
                           (if inc then "-include" else "-exclude")) (Some p)
                = [parseRule (if inc then "-include" else "-exclude") p]).
    { unfold parse_arg.
      destruct dd, inc; simpl; rewrite ?from_1; simpl; now rewrite Hw. }
    rewrite G. rewrite (parse_arg_plain p _ Ho). cbn [app]. f_equal.
    unfold parseRule. now destruct inc.
Qed.

End Parsing.

(** A [path.Match] that only knows literal patterns, for the examples. *)
Definition literal_Match (p name : string) : bool * option Errors.error :=
  (String.eqb p name, None).

(** X13. Rules that all include exclude nothing: with no rule, or with
    include rules only, [matchFullPath] and [matchLeveledPath] keep every
    key, whatever [path.Match] answers. *)
Theorem include_rules_keep_every_key
  (path_Match : string -> string -> bool * option Errors.error)
  (rules : list rule) (key : string) :
  Forall (fun r => include r = true) rules ->
  matchFullPath path_Match rules key = true
  /\ matchLeveledPath path_Match rules key = true.
Proof.
  intros H. split.
  - unfold matchFullPath. now apply first_rule_include.
  - unfold matchLeveledPath. apply forallb_forall. intros i _.
    unfold level_passes.
    destruct (String.eqb (nth i (Split key slash) "") ""); [reflexivity|].
    now apply first_rule_include.
Qed.

Lemma include_rules_keep_every_key_witness :
  matchFullPath literal_Match [mkRule "a" true; mkRule "/b/***" true] "c/d" = true
  /\ matchLeveledPath literal_Match [mkRule "a" true; mkRule "/b/***" true] "c/d" = true.
Proof.
  apply (include_rules_keep_every_key literal_Match
           [mkRule "a" true; mkRule "/b/***" true] "c/d").
  repeat constructor.
Defined.

(** X14. A directory that [matchLeveledPath] excludes takes everything
    below it along: when the key [dir/] is excluded, so is every key
    [dir/rest], whatever the rules say about [rest]. *)
Theorem excluded_directory_excludes_below
  (path_Match : string -> string -> bool * option Errors.error)
  (rules : list rule) (dir rest : string) :
  matchLeveledPath path_Match rules (dir ++ "/") = false ->
  matchLeveledPath path_Match rules (dir ++ "/" ++ rest) = false.
Proof.
  unfold matchLeveledPath.
  change (dir ++ "/") with (dir ++ String slash "").
  change (dir ++ "/" ++ rest) with (dir ++ String slash rest).
  rewrite !Split_app. simpl (Split "" slash).
  pose proof (Split_nonempty rest slash) as N.
  destruct (Split rest slash) as [|b below]; [contradiction|]. clear N.
  set (d := Split dir slash).
  intros H.
  destruct (forallb (level_passes path_Match rules (d ++ [""])%list)
              (seq 0 (List.length (d ++ [""])%list))) eqn:F; [discriminate|]. clear H.
  apply not_true_iff_false in F.
  apply not_true_iff_false. intros G. apply F. clear F.
  rewrite forallb_forall in G. apply forallb_forall. intros i Hi.
  apply in_seq in Hi. rewrite length_app in Hi. simpl in Hi.
  destruct (Nat.eq_dec i (List.length d)) as [->|Ne].
  - unfold level_passes. rewrite app_nth2 by lia.
    now rewrite Nat.sub_diag.
  - rewrite (level_passes_below path_Match rules d "" b [] below) by lia.
    apply G. apply in_seq. rewrite length_app. simpl. lia.
Qed.

Lemma excluded_directory_excludes_below_witness :
  matchLeveledPath literal_Match [mkRule "tmp/" false; mkRule "keep" true]
    ("tmp" ++ "/" ++ "keep") = false.
Proof.
  apply (excluded_directory_excludes_below literal_Match
           [mkRule "tmp/" false; mkRule "keep" true] "tmp" "keep").
  reflexivity.
Defined.

(** X15. Every way of writing a rule is read as the same rule, in the
    order given: [-include p], [--include p], [-include=p], [--include=p]
    and the same for exclude, for patterns that [path.Match] accepts, that
    are not empty, hold no equals sign and are not read as an option
    themselves. The rules come out as written, with slashes for
    backslashes on Windows. *)
Theorem parseIncludeRules_reads_every_spelling
  (path_Match : string -> string -> bool * option Errors.error) (GOOS : string)
  (written : list (rule * spelling)) :
  Forall (fun rw => spellable path_Match (fst rw) = true) written ->
  parseIncludeRules path_Match GOOS (flat_map (fun rw => spell (fst rw) (snd rw)) written)
  = map (fun rw => stored GOOS (fst rw)) written.
Proof.
  induction 1 as [|[r w] written Hr _ IH]; [reflexivity|].
  cbn [flat_map map fst snd]. rewrite parse_spelled by exact Hr.
  now rewrite IH.
Qed.

Lemma parseIncludeRules_reads_every_spelling_witness :
  parseIncludeRules literal_Match "linux"
    ["--exclude"; "*.tmp"; "-include=/src/***"; "--include=a\b"; "-exclude"; "c"]
  = [mkRule "*.tmp" false; mkRule "/src/***" true; mkRule "a\b" true;
     mkRule "c" false].
Proof.
  apply (parseIncludeRules_reads_every_spelling literal_Match "linux"
           [(mkRule "*.tmp" false, mkSpelling true false);
            (mkRule "/src/***" true, mkSpelling false true);
            (mkRule "a\b" true, mkSpelling true true);
            (mkRule "c" false, mkSpelling false false)]).
  repeat constructor.
Defined.

(** *** Patterns without a double star *)

(** The piece of a pattern holds no "**" (so it is not "***" either). *)
Definition plain (piece : string) : Prop := Contains piece "**" = false.

(** The pieces of the pattern match the pieces of the key one by one,
    and there are as many. *)
Fixpoint pieces_match (path_Match : string -> string -> bool * option Errors.error)
  (p s : list string) : bool :=
  match p, s with
  | [], [] => true
  | a :: p', b :: s' => fst (path_Match a b) && pieces_match path_Match p' s'
  | _, _ => false
  end.

(** The same from the last piece backwards, the key being as long as the
    pattern or longer: [rp] and [rs] are the pieces in reverse. *)
Fixpoint tail_match (path_Match : string -> string -> bool * option Errors.error)
  (rp rs : list string) : bool :=
  match rp, rs with
  | [], _ => true
  | a :: rp', b :: rs' => fst (path_Match a b) && tail_match path_Match rp' rs'
  | _ :: _, [] => false
  end.

Lemma plain_not_stars (piece : string) :
  plain piece -> String.eqb piece "***" = false /\ String.eqb piece "**" = false.
Proof.
  intros P. split.
  - destruct (String.eqb_spec piece "***") as [->|]; [discriminate P|reflexivity].
  - destruct (String.eqb_spec piece "**") as [->|]; [discriminate P|reflexivity].
Qed.

Lemma matchPrefix_plain path_Match (p : list string) :
  Forall plain p ->
  forall s, matchPrefix path_Match p s = pieces_match path_Match p s.
Proof.
  induction 1 as [|first p Hf _ IH]; intros [|s0 s]; try reflexivity.
  cbn [matchPrefix pieces_match].
  destruct (plain_not_stars first Hf) as [-> _]. rewrite Hf. now rewrite IH.
Qed.

Lemma matchSuffix_rev_plain path_Match (rp : list string) :
  Forall plain rp ->
  forall s, matchSuffix_rev path_Match rp s = tail_match path_Match rp (rev s).
Proof.
  induction 1 as [|last rp Hl _ IH]; intros s; [reflexivity|].
  destruct (plain_not_stars last Hl) as [E3 E2].
  destruct s as [|s0 s'] eqn:Es.
  - cbn [matchSuffix_rev rev tail_match]. rewrite E3, E2. apply andb_false_r.
  - rewrite <- Es. assert (Ns : s <> []) by (rewrite Es; discriminate).
    destruct (exists_last Ns) as (l & x & El).
    replace (matchSuffix_rev path_Match (last :: rp) s)
      with (fst (path_Match last (nth (List.length s - 1) s ""))
            && matchSuffix_rev path_Match rp (firstn (List.length s - 1) s)).
    2:{ rewrite Es. cbn [matchSuffix_rev]. rewrite E3, Hl. reflexivity. }
    rewrite El, length_app. cbn [List.length].
    replace (List.length l + 1 - 1) with (List.length l) by lia.
    rewrite app_nth2, Nat.sub_diag by lia. cbn [nth].
    rewrite firstn_app, Nat.sub_diag, firstn_all. cbn [firstn].
    rewrite app_nil_r, rev_unit. cbn [tail_match]. now rewrite IH.
Qed.

(** X22. Patterns without a double star match piece by piece. A pattern
    whose pieces hold no "**" matches as [matchPrefix] only a key of as
    many pieces, each piece of it matching the piece of the pattern in
    the same place; as [matchSuffix] it matches a key of as many pieces
    or more, whose last pieces match the pieces of the pattern. *)
Theorem plain_patterns_match_piecewise
  (path_Match : string -> string -> bool * option Errors.error)
  (p s : list string) :
  Forall plain p ->
  matchPrefix path_Match p s = pieces_match path_Match p s
  /\ matchSuffix path_Match p s = tail_match path_Match (rev p) (rev s).
Proof.
  intros P. split.
  - now apply matchPrefix_plain.
  - unfold matchSuffix. apply matchSuffix_rev_plain. now apply Forall_rev.
Qed.

Lemma plain_patterns_match_piecewise_witness :
  matchPrefix literal_Match ["a"; "b"] ["a"; "b"; "c"]
  = pieces_match literal_Match ["a"; "b"] ["a"; "b"; "c"]
  /\ matchSuffix literal_Match ["b"; "c"] ["a"; "b"; "c"]
     = tail_match literal_Match (rev ["b"; "c"]) (rev ["a"; "b"; "c"]).
Proof.
  split.
  - apply (plain_patterns_match_piecewise literal_Match ["a"; "b"] ["a"; "b"; "c"]).
    repeat constructor.
  - apply (plain_patterns_match_piecewise literal_Match ["b"; "c"] ["a"; "b"; "c"]).
    repeat constructor.
Defined.

End Rules.

(** ** What a copy touches *)

Module Footprint.
Import Errors Prog Retry PartSize Copy.
Local Open Scope prog_scope.

(** Every call a program can make, whatever it is answered, is one that
    [P] allows. *)
Fixpoint uses_only {A : Type} (P : forall X, op X -> Prop) (p : prog A) : Prop :=
  match p with
  | Ret _ => True
  | Vis o k => P _ o /\ forall x, uses_only P (k x)
  end.

Definition allowed (P : forall X, op X -> Prop) (e : event) : Prop :=
  match e with
  | Ev o _ => P _ o
  end.

Lemma uses_only_runs {A} (P : forall X, op X -> Prop) (p : prog A) :
  uses_only P p -> forall tr a, runs p tr a -> Forall (allowed P) tr.
Proof.
  induction p as [a|X o k IH]; simpl.
  - intros _ tr b [-> _]. constructor.
  - intros [Ho Hk] tr a (x & tr' & -> & H). constructor; [exact Ho|].
    eapply IH; eauto.
Qed.

Lemma uses_only_bind {A B} (P : forall X, op X -> Prop) (p : prog A)
  (f : A -> prog B) :
  uses_only P p -> (forall a, uses_only P (f a)) -> uses_only P (bind p f).
Proof.
  induction p as [a|X o k IH]; simpl; intros Hp Hf; [apply Hf|].
  destruct Hp as [Ho Hk]. split; [exact Ho|]. intros x. apply IH; auto.
Qed.

Lemma uses_only_weaken {A} (P Q : forall X, op X -> Prop) (p : prog A) :
  (forall X (o : op X), P X o -> Q X o) -> uses_only P p -> uses_only Q p.
Proof.
  intros PQ. induction p as [a|X o k IH]; simpl; [auto|].
  intros [Ho Hk]. split; [auto|]. intros x. apply IH, Hk.
Qed.

Lemma uses_only_try_loop {V} (P : forall X, op X -> Prop)
  (f : V -> prog (V * option error)) :
  (forall nanoseconds, P _ (Sleep nanoseconds)) ->
  (forall v, uses_only P (f v)) ->
  forall k i v err, uses_only P (try_loop k i f v err).
Proof.
  intros Hs Hf. induction k as [|k IH]; intros i v err; simpl; [exact I|].
  apply uses_only_bind; [apply Hf|]. intros r.
  destruct (negb (shouldRetry (snd r))); simpl; [exact I|].
  split; [apply Hs|]. intros _. apply IH.
Qed.

Lemma uses_only_try {V} (P : forall X, op X -> Prop) (n : Z)
  (f : V -> prog (V * option error)) (v : V) :
  (forall nanoseconds, P _ (Sleep nanoseconds)) ->
  (forall v, uses_only P (f v)) -> uses_only P (try n f v).
Proof. intros Hs Hf. unfold try. now apply uses_only_try_loop. Qed.

(** A key of the temporary uploads of [doCopyRange]. *)
Definition part_key (key k : string) : Prop :=
  exists num : Z, k = (key ++ ".part" ++ dec num)%string.

(** The calls of [CopyData] for [key]: on the source it reads [key]; on
    the destination it puts [key], runs multipart uploads of [key] and of
    its temporary part keys, and deletes temporary part keys only. *)
Definition copy_call (key : string) (X : Type) (o : op X) : Prop :=
  match o with
  | Head s k => s = Src /\ k = key
  | Get s k _ _ => s = Src /\ k = key
  | Put s k _ => s = Dst /\ k = key
  | Delete s k => s = Dst /\ part_key key k
  | List _ _ _ _ _ _ _ => False
  | StoreListAll _ _ _ _ => False
  | ListAllWithDelimiter _ _ _ _ _ => False
  | GetLimits s => s = Dst
  | CreateMultipartUpload s k => s = Dst /\ (k = key \/ part_key key k)
  | UploadPart s k _ _ _ => s = Dst /\ (k = key \/ part_key key k)
  | UploadPartCopy s k _ _ srcKey _ _ => s = Dst /\ k = key /\ part_key key srcKey
  | CompleteUpload s k _ _ => s = Dst /\ (k = key \/ part_key key k)
  | AbortUpload s k _ => s = Dst /\ (k = key \/ part_key key k)
  | ParallelDownload k _ => k = key
  | IsFileSystem _ | StoreString _ | CreateTemp | WriteTemp _ | SeekTemp
  | Sleep _ | Incr _ _ | Aborted => True
  end.

Lemma part_key_intro (key : string) (num : Z) :
  part_key key (key ++ ".part" ++ dec num).
Proof. now exists num. Qed.

Create HintDb footprint.
#[local] Hint Resolve part_key_intro : footprint.

(** One step through a program: a call, a bind, a [try], a choice. *)
Ltac step :=
  match goal with
  | |- uses_only _ (Ret _) => exact I
  | |- uses_only _ (call _) => split; [|intros; exact I]
  | |- uses_only _ (bind _ _) => apply uses_only_bind; [|intros]
  | |- uses_only _ (try _ _ _) => apply uses_only_try; [intros; exact I|intros]
  | |- uses_only _ (if ?b then _ else _) => destruct b
  | |- uses_only _ (match ?x with _ => _ end) => destruct x
  | |- uses_only _ (let '(_, _) := ?x in _) => destruct x
  | |- copy_call _ _ _ => cbn [copy_call]; auto 6 with footprint
  end.

Lemma inMap_calls key s m : uses_only (copy_call key) (inMap s m).
Proof. unfold inMap. repeat step. Qed.

Lemma doUploadPart_calls key tmpkey off size uploadID num calChksum :
  tmpkey = key \/ part_key key tmpkey ->
  uses_only (copy_call key) (doUploadPart key off size tmpkey uploadID num calChksum).
Proof. intros T. unfold doUploadPart. repeat step. Qed.

Lemma copy_range_parts_calls key tmpkey off size partSize up calChksum :
  part_key key tmpkey ->
  forall k i n st,
    uses_only (copy_call key)
      (copy_range_parts k i n key tmpkey off size partSize up calChksum st).
Proof.
  intros T. induction k as [|k IH]; intros i n st; cbn [copy_range_parts];
    [exact I|].
  apply uses_only_bind; [repeat step|]. intros aborted.
  destruct aborted; [repeat step|].
  apply uses_only_bind; [apply doUploadPart_calls; auto|]. intros [[part chksum] err].
  destruct err; [repeat step|]. apply IH.
Qed.

Lemma doCopyRange_calls key off size upload num calChksum :
  uses_only (copy_call key) (doCopyRange key off size upload num calChksum).
Proof.
  unfold doCopyRange.
  apply uses_only_bind; [repeat step|]. intros aborted.
  destruct aborted; [exact I|].
  apply uses_only_bind; [repeat step|]. intros limits.
  destruct ((size <=? Z.shiftl 32 20) || negb (IsSupportUploadPartCopy limits)).
  - apply doUploadPart_calls. now left.
  - cbv zeta. apply uses_only_bind; [repeat step|]. intros [[up|] [e|]]; try exact I.
    apply uses_only_bind; [apply copy_range_parts_calls; auto with footprint|].
    intros [st [e|]]; [exact I|]. repeat step.
Qed.

Lemma copy_parts_calls key size partSize upload calChksum :
  forall k num n,
    uses_only (copy_call key) (copy_parts k num n key size partSize upload calChksum).
Proof.
  induction k as [|k IH]; intros num n; cbn [copy_parts]; [exact I|].
  apply uses_only_bind; [apply doCopyRange_calls|]. intros r.
  apply uses_only_bind; [apply IH|]. intros rest. exact I.
Qed.

Lemma doCopyMultiple_calls key size upload calChksum :
  uses_only (copy_call key) (doCopyMultiple key size upload calChksum).
Proof.
  unfold doCopyMultiple.
  apply uses_only_bind; [repeat step|]. intros limits.
  destruct (size >? wrap64 (MaxPartSize limits * MaxCount upload)); [exact I|].
  cbv zeta. apply uses_only_bind; [apply copy_parts_calls|]. intros results.
  repeat step.
Qed.

Lemma put_calls key rd calChksum : uses_only (copy_call key) (put key rd calChksum).
Proof. unfold put. repeat step. Qed.

Lemma demote_not_found_calls key err :
  uses_only (copy_call key) (demote_not_found key err).
Proof. unfold demote_not_found. repeat step. Qed.

Ltac known :=
  match goal with
  | |- uses_only _ (put _ _ _) => apply put_calls
  | |- uses_only _ (demote_not_found _ _) => apply demote_not_found_calls
  | |- uses_only _ (inMap _ _) => apply inMap_calls
  | |- uses_only _ (doCopyMultiple _ _ _ _) => apply doCopyMultiple_calls
  end.

Lemma doCopySingle0_calls key size calChksum :
  uses_only (copy_call key) (doCopySingle0 key size calChksum).
Proof. unfold doCopySingle0. repeat first [known | step]. Qed.

Lemma doCopySingle_calls key size calChksum :
  uses_only (copy_call key) (doCopySingle key size calChksum).
Proof.
  unfold doCopySingle.
  repeat first [known | apply doCopySingle0_calls | step].
Qed.

Lemma CopyData_calls key size calChksum :
  uses_only (copy_call key) (CopyData key size calChksum).
Proof.
  unfold CopyData, try_doCopySingle.
  repeat first [known | apply doCopySingle_calls | step].
Qed.

(** X16. What [CopyData] touches. On the source it only reads the object:
    [Get] and [Head] of its key (and the parallel download of it). On the
    destination it puts the key, runs multipart uploads of the key and of
    its temporary keys [key.partN], and deletes temporary keys only. It
    never lists, never writes to the source and never deletes the key. *)
Theorem CopyData_footprint (key : string) (size : Z) (calChksum : bool)
  (tr : list event) (r : Z * option error) :
  runs (CopyData key size calChksum) tr r -> Forall (allowed (copy_call key)) tr.
Proof. apply uses_only_runs, CopyData_calls. Qed.

(** A copy of three bytes in one [Put]. *)
Definition three_bytes : Reader := mkReader [[Byte.x61; Byte.x62; Byte.x63]] ErrEOF.

Definition small_copy : list event :=
  [Ev (Get Src "k" 0 3) (inr three_bytes);
   Ev (Put Dst "k" three_bytes) ([3%nat], None)].

Lemma CopyData_footprint_witness : Forall (allowed (copy_call "k")) small_copy.
Proof.
  apply (CopyData_footprint "k" 3 false small_copy (0, None)).
  repeat (simpl; eexists; eexists; split; [reflexivity|]).
  simpl. split; reflexivity.
Defined.

End Footprint.

(** ** The temporary upload of a range *)

Module RangeCleanup.
Import Errors Prog Retry PartSize Copy Footprint.
Local Open Scope prog_scope.














End RangeCleanup.

(** ** The worker *)

Module Worker.
Import Errors Prog Retry Copy Verify ObjChecksum.

(** What the worker asks of a store beyond [ObjectStorage]:
    [SupportSymlink] ([Readlink] on either store, [Symlink] on the
    destination), [FileSystem] ([Chown], [Chmod]) and [MtimeChanger]
    ([Chtimes]) on the destination. *)
Inductive fs_op : Type -> Type :=
| Readlink (s : side) (key : string) : fs_op (error + string)
| Symlink (oldName newName : string) : fs_op (option error)
| Chown (key owner group : string) : fs_op (option error)
| Chmod (key : string) (mode : Z) : fs_op (option error)
| Chtimes (key : string) (mtime : Z) : fs_op (option error).

(** A program of the worker: calls on the stores as before, calls of
    [fs_op], and the panic of a failed type assertion. *)
Inductive wprog (A : Type) : Type :=
| WRet (a : A)
| WPanic (msg : string)
| WStore {X : Type} (o : op X) (k : X -> wprog A)
| WFiles {X : Type} (o : fs_op X) (k : X -> wprog A).

Arguments WRet {A} a.
Arguments WPanic {A} msg.
Arguments WStore {A X} o k.
Arguments WFiles {A X} o k.

Fixpoint wbind {A B : Type} (p : wprog A) (f : A -> wprog B) : wprog B :=
  match p with
  | WRet a => f a
  | WPanic msg => WPanic msg
  | WStore o k => WStore o (fun x => wbind (k x) f)
  | WFiles o k => WFiles o (fun x => wbind (k x) f)
  end.

(** A program of the copy engine, run by the worker. *)
Fixpoint lift {A : Type} (p : prog A) : wprog A :=
  match p with
  | Ret a => WRet a
  | Vis o k => WStore o (fun x => lift (k x))
  end.

Definition files {X : Type} (o : fs_op X) : wprog X := WFiles o WRet.

Definition count (counter : string) (n : Z) : wprog unit :=
  lift (call (Incr counter n)).

Declare Scope wprog_scope.
Delimit Scope wprog_scope with wprog.
Notation "x <- p ;; q" := (wbind p (fun x => q))
  (at level 100, p at next level, right associativity) : wprog_scope.
Local Open Scope wprog_scope.

(** The calls of a run with their answers, and how the run ends. *)
Inductive wevent : Type :=
| OnStore (e : event)
| OnFiles {X : Type} (o : fs_op X) (x : X).

Inductive ending (A : Type) : Type :=
| Returned (a : A)
| Panicked (msg : string).

Arguments Returned {A} a.
Arguments Panicked {A} msg.

Fixpoint wruns {A : Type} (p : wprog A) (tr : list wevent) (r : ending A) : Prop :=
  match p with
  | WRet a => tr = [] /\ r = Returned a
  | WPanic msg => tr = [] /\ r = Panicked msg
  | WStore o k => exists x tr', tr = OnStore (Ev o x) :: tr' /\ wruns (k x) tr' r
  | WFiles o k => exists x tr', tr = OnFiles o x :: tr' /\ wruns (k x) tr' r
  end.

(** [try(n, f)] around a closure of the worker. *)
Fixpoint wtry_loop {V : Type} (k : nat) (i : Z) (f : V -> wprog (V * option error))
  (v : V) (err : option error) : wprog (V * option error) :=
  match k with
  | O => WRet (v, err)
  | S k' =>
      r <- f v ;;
      if negb (shouldRetry (snd r)) then WRet r
      else
        _ <- lift (call (Sleep (backoff i))) ;;
        wtry_loop k' (i + 1) f (fst r) (snd r)
  end.

Definition wtry {V : Type} (n : Z) (f : V -> wprog (V * option error)) (v : V)
  : wprog (V * option error) :=
  wtry_loop (Z.to_nat n) 0 f v None.

(** time.Time.UnixMilli() *)
Definition UnixMilli (t : Z) : Z := t / 1000000.

Section Stores.

(** Which interfaces the two stores implement, which descriptors are an
    [object.File], and the [%s] of a [time.Time]. *)
Variable src_symlink : bool.
Variable dst_symlink : bool.
Variable dst_filesystem : bool.
Variable dst_mtime : bool.
Variable is_File : Obj -> bool.
Variable time_String : Z -> string.

Definition conversion : string := "interface conversion".

(** f2.Mode() != f1.Mode() || f2.Owner() != f1.Owner() || f2.Group() != f1.Group() *)
Definition needCopyPerms (o1 o2 : Obj) : wprog bool :=
  if negb (is_File o1) then WPanic conversion
  else if negb (is_File o2) then WPanic conversion
  else WRet (negb (Mode o2 =? Mode o1)
             || negb (String.eqb (Owner o2) (Owner o1))
             || negb (String.eqb (Group o2) (Group o1))).

Definition copyPerms (obj : Obj) (config : Config) : wprog unit :=
  let key := Key obj in
  if negb (is_File obj) then WPanic conversion
  else if negb (IsSymlink obj) || negb (Links config) then
    (* chmod needs to be executed after chown *)
    if negb dst_filesystem then WPanic conversion
    else
      _ <- files (Chown key (Owner obj) (Group obj)) ;;
      _ <- files (Chmod key (Mode obj)) ;;
      WRet tt
  else WRet tt.

(** [doCheckSum]; [equal] is the variable of [checkSum] that it assigns.
    [srcChksum] is [None] for the nil pointer. A panic that
    [calObjChksum] carries as its error ends the worker. *)
Definition doCheckSum (key : string) (srcChksum : option Z) (obj : Object)
  (config : Config) (equal : bool) : wprog (bool * option error) :=
  if IsSymlink (withoutSize obj) && Links config
     && (CheckAll config || CheckNew config) then
    r1 <- (if src_symlink then files (Readlink Src key) else WRet (inr ""%string)) ;;
    match r1 with
    | inl err => WRet (equal, Some err)
    | inr srcLink =>
        r2 <- (if dst_symlink then files (Readlink Dst key)
               else WRet (inr ""%string)) ;;
        match r2 with
        | inl err => WRet (equal, Some err)
        | inr dstLink =>
            WRet (String.eqb srcLink dstLink
                  && negb (String.eqb srcLink "")
                  && negb (String.eqb dstLink ""), None)
        end
    end
  else
    match srcChksum with
    | Some src_sum =>
        r <- lift (calObjChksum Dst key (ObjectSize obj)) ;;
        match snd r with
        | None => WRet (src_sum =? fst r, None)
        | Some (Panic msg) => WPanic msg
        | Some err => WRet (false, Some err)
        end
    | None =>
        r <- lift (compObjBinary key (ObjectSize obj)) ;;
        WRet (fst r, option_map (fun e => Errorf (cmp_text e)) (snd r))
    end.

Definition checkSum (key : string) (srcChksum : option Z) (obj : Object)
  (config : Config) : wprog (bool * option error) :=
  r <- wtry 3 (doCheckSum key srcChksum obj config) false ;;
  match snd r with
  | None =>
      _ <- count "checked" 1 ;;
      _ <- count "checkedBytes" (ObjectSize obj) ;;
      WRet r
  | Some _ => WRet r
  end.

Definition checkChange (obj : Object) (key : string) (config : Config)
  : wprog (option error) :=
  let o := withoutSize obj in
  if Links config && IsSymlink o then WRet None (* ignore symlink *)
  else
    h <- lift (call (Head Src key)) ;;
    match h with
    | inr cur =>
        _ <- (if negb (CheckAll config) && negb (CheckNew config) then
                _ <- count "checked" 1 ;;
                count "checkedBytes" (ObjectSize obj)
              else WRet tt) ;;
        let equal := Size cur =? ObjectSize obj in
        let equal :=
          if equal && negb (Mtime cur =? Mtime o) then
            (* Head of an object may not return the millisecond part of
               mtime as List *)
            (Unix (Mtime cur) =? Unix (Mtime o))
            && (Z.rem (UnixMilli (Mtime cur)) 1000 =? 0)
          else equal in
        if negb equal then
          WRet (Some (Errorf (Key cur ++ " changed during sync. Original: size="
                              ++ dec (ObjectSize obj) ++ ", mtime="
                              ++ time_String (Mtime o) ++ "; Current: size="
                              ++ dec (Size cur) ++ ", mtime="
                              ++ time_String (Mtime cur))))
        else
          d <- lift (call (Head Dst key)) ;;
          match d with
          | inr dstObj =>
              if negb (Size cur =? Size dstObj) then
                WRet (Some (Errorf ("copied " ++ key ++ " size mismatch: original="
                                    ++ dec (ObjectSize obj) ++ ", current="
                                    ++ dec (Size dstObj))))
              else WRet None
          | inl err =>
              name <- lift (call (StoreString Dst)) ;;
              WRet (Some (Errorf ("check " ++ key ++ " in " ++ name ++ ": "
                                  ++ ErrorText err)))
          end
    | inl err =>
        if is_not_exist err then
          WRet (Some (Errorf ("object " ++ key ++ " was removed during sync")))
        else
          name <- lift (call (StoreString Src)) ;;
          WRet (Some (Errorf ("check " ++ key ++ " in " ++ name ++ ": "
                              ++ ErrorText err)))
    end.

Definition copyLink (key : string) : wprog (option error) :=
  if negb src_symlink then WPanic conversion
  else
    r <- files (Readlink Src key) ;;
    match r with
    | inl err => WRet (Some err)
    | inr p =>
        e <- lift (call (Delete Dst key)) ;;
        match e with
        | Some err => WRet (Some err)
        | None =>
            if negb dst_symlink then WPanic conversion
            else files (Symlink p key)
        end
    end.

(** The [default] case of the worker: copy the object. A panic that the
    copy engine carries as its error ends the worker. *)
Definition copy_object (obj : Object) (config : Config) : wprog unit :=
  let key := ObjectKey obj in
  let o := withoutSize obj in
  if Dry config then
    _ <- count "copied" 1 ;;
    count "copiedBytes" (ObjectSize obj)
  else
    r <- (if Links config && IsSymlink o then
            e <- copyLink key ;;
            WRet (0, e)
          else
            r <- lift (CopyData key (ObjectSize obj)
                         (CheckAll config || CheckNew config)) ;;
            match snd r with
            | Some (Panic msg) => WPanic msg
            | _ => WRet r
            end) ;;
    let srcChksum := fst r in
    let err := match snd r with
               | Some e => if is_extlink e then Some ErrSkipped else Some e
               | None => None
               end in
    err <- match err with
           | None => if CheckChange config then checkChange obj key config
                     else WRet None
           | Some _ => WRet err
           end ;;
    err <- match err with
           | None =>
               if CheckAll config || CheckNew config then
                 c <- checkSum key (Some srcChksum) obj config ;;
                 match snd c with
                 | None =>
                     if negb (fst c) then
                       WRet (Some (Errorf ("checksums of copied object " ++ key
                                           ++ " don't match")))
                     else WRet None
                 | Some e => WRet (Some e)
                 end
               else WRet None
           | Some _ => WRet err
           end ;;
    match err with
    | None =>
        _ <- (if dst_mtime then
                _ <- files (Chtimes key (Mtime o)) ;;
                WRet tt
              else WRet tt) ;;
        _ <- (if Perms config then copyPerms o config else WRet tt) ;;
        count "copied" 1
    | Some e =>
        if is_skipped e then count "skipped" 1 else count "failed" 1
    end.

(** The body of the loop of [worker] for one task: the keys it appends
    to [srcDelayDel]. *)
Definition worker_task (config : Config) (obj : Object) : wprog (list string) :=
  let key := ObjectKey obj in
  delayed <-
    (if ObjectSize obj =? markDeleteSrc then
       _ <- lift (DelayDel.deleteObj Src key (Dry config)) ;;
       WRet []
     else if ObjectSize obj =? markDeleteDst then
       _ <- lift (DelayDel.deleteObj Dst key (Dry config)) ;;
       WRet []
     else if ObjectSize obj =? markCopyPerms then
       _ <- (if Dry config then WRet tt
             else copyPerms (withoutSize obj) config) ;;
       _ <- count "copied" 1 ;;
       WRet []
     else if ObjectSize obj =? markChecksum then
       if Dry config then
         _ <- count "checked" 1 ;;
         WRet []
       else
         let o := withoutSize obj in
         c <- checkSum key None (Plain o) config ;;
         match snd c with
         | Some _ =>
             _ <- count "failed" 1 ;;
             WRet []
         | None =>
             if fst c then
               if DeleteSrc config then
                 if IsDir o then WRet [key]
                 else
                   _ <- lift (DelayDel.deleteObj Src key false) ;;
                   WRet []
               else if Perms config && (negb (IsSymlink o) || negb (Links config)) then
                 h <- lift (call (Head Dst key)) ;;
                 match h with
                 | inr dstObj =>
                     need <- needCopyPerms o dstObj ;;
                     if need then
                       _ <- copyPerms o config ;;
                       _ <- count "copied" 1 ;;
                       WRet []
                     else
                       _ <- count "skipped" 1 ;;
                       _ <- count "skippedBytes" (Size o) ;;
                       WRet []
                 | inl _ =>
                     _ <- count "failed" 1 ;;
                     WRet []
                 end
               else
                 _ <- count "skipped" 1 ;;
                 _ <- count "skippedBytes" (Size o) ;;
                 WRet []
             else
               (* checkSum not equal, copy the object *)
               _ <- copy_object (Plain o) config ;;
               WRet []
         end
     else
       _ <- copy_object obj config ;;
       WRet []) ;;
  _ <- count "handled" 1 ;;
  WRet delayed.

(** for obj := range tasks *)
Fixpoint worker (config : Config) (tasks : list Object) : wprog (list string) :=
  match tasks with
  | [] => WRet []
  | obj :: rest =>
      delayed <- worker_task config obj ;;
      more <- worker config rest ;;
      WRet (delayed ++ more)%list
  end.

End Stores.

End Worker.

(** ** What a task does to the two stores *)

Module WorkerFacts.
Import Errors Prog Retry Copy Verify ObjChecksum Footprint Worker.
Local Open Scope wprog_scope.

Lemma wruns_bind {A B} (p : wprog A) (f : A -> wprog B) tr r :
  wruns (wbind p f) tr r ->
  (exists tr1 a tr2, wruns p tr1 (Returned a) /\ wruns (f a) tr2 r /\ tr = tr1 ++ tr2)
  \/ (exists msg, r = Panicked msg /\ wruns p tr (Panicked msg)).
Proof.
  revert tr. induction p as [a|msg|X o k IH|X o k IH]; intros tr; simpl.
  - intros H. left. exists [], a, tr. auto.
  - intros [-> ->]. right. exists msg. auto.
  - intros (x & tr' & -> & H). apply IH in H.
    destruct H as [(tr1 & a & tr2 & H1 & H2 & ->)|(msg & -> & H)].
    + left. exists (OnStore (Ev o x) :: tr1), a, tr2.
      split; [exists x, tr1; auto|auto].
    + right. exists msg. split; [reflexivity|]. exists x, tr'. auto.
  - intros (x & tr' & -> & H). apply IH in H.
    destruct H as [(tr1 & a & tr2 & H1 & H2 & ->)|(msg & -> & H)].
    + left. exists (OnFiles o x :: tr1), a, tr2.
      split; [exists x, tr1; auto|auto].
    + right. exists msg. split; [reflexivity|]. exists x, tr'. auto.
Qed.


(** Every call on a store that a program of the worker can make is one
    that [P] allows. *)
Fixpoint wuses_only {A : Type} (P : forall X, op X -> Prop) (p : wprog A) : Prop :=
  match p with
  | WRet _ => True
  | WPanic _ => True
  | WStore o k => P _ o /\ forall x, wuses_only P (k x)
  | WFiles o k => forall x, wuses_only P (k x)
  end.

Definition wallowed (P : forall X, op X -> Prop) (e : wevent) : Prop :=
  match e with
  | OnStore e => allowed P e
  | OnFiles _ _ => True
  end.

Lemma wuses_only_runs {A} (P : forall X, op X -> Prop) (p : wprog A) :
  wuses_only P p -> forall tr r, wruns p tr r -> Forall (wallowed P) tr.
Proof.
  induction p as [a|msg|X o k IH|X o k IH]; simpl.
  - intros _ tr r [-> _]. constructor.
  - intros _ tr r [-> _]. constructor.
  - intros [Ho Hk] tr r (x & tr' & -> & H). constructor; [exact Ho|].
    eapply IH; eauto.
  - intros Hk tr r (x & tr' & -> & H). constructor; [exact I|].
    eapply IH; eauto.
Qed.

Lemma wuses_only_bind {A B} (P : forall X, op X -> Prop) (p : wprog A)
  (f : A -> wprog B) :
  wuses_only P p -> (forall a, wuses_only P (f a)) -> wuses_only P (wbind p f).
Proof.
  induction p as [a|msg|X o k IH|X o k IH]; simpl; intros Hp Hf.
  - apply Hf.
  - exact I.
  - destruct Hp as [Ho Hk]. split; [exact Ho|]. intros x. apply IH; auto.
  - intros x. apply IH; auto.
Qed.

Lemma wuses_only_lift {A} (P : forall X, op X -> Prop) (p : prog A) :
  uses_only P p -> wuses_only P (lift p).
Proof.
  induction p as [a|X o k IH]; simpl; [auto|].
  intros [Ho Hk]. split; [exact Ho|]. intros x. apply IH, Hk.
Qed.

Lemma wuses_only_weaken {A} (P Q : forall X, op X -> Prop) (p : wprog A) :
  (forall X (o : op X), P X o -> Q X o) -> wuses_only P p -> wuses_only Q p.
Proof.
  intros PQ. induction p as [a|msg|X o k IH|X o k IH]; simpl; auto.
  intros [Ho Hk]. split; [auto|]. intros x. apply IH, Hk.
Qed.

Lemma wuses_only_wtry {V} (P : forall X, op X -> Prop) (n : Z)
  (f : V -> wprog (V * option error)) (v : V) :
  (forall nanoseconds, P _ (Sleep nanoseconds)) ->
  (forall v, wuses_only P (f v)) -> wuses_only P (wtry n f v).
Proof.
  intros Hs Hf. unfold wtry. generalize (Z.to_nat n) 0 v (@None error).
  induction n0 as [|k IH]; intros i v0 err; simpl; [exact I|].
  apply wuses_only_bind; [apply Hf|]. intros r.
  destruct (negb (shouldRetry (snd r))); simpl; [exact I|].
  split; [apply Hs|]. intros _. apply IH.
Qed.

(** *** Dry runs *)

(** The event is the increment of a counter. *)
Definition counts (e : wevent) : Prop :=
  match e with
  | OnStore (Ev o _) =>
      match o with
      | Incr _ _ => True
      | _ => False
      end
  | OnFiles _ _ => False
  end.

Ltac peel H :=
  repeat match type of H with
         | exists _, _ => destruct H as (? & ? & -> & H)
         end;
  destruct H as [-> ->].

(** X17. A dry run touches nothing: with [Dry] set, the worker handles
    any task, whatever its marker, without a call on either store: it
    only increments counters, it does not panic and defers no deletion. *)
Theorem dry_run_only_counts (src_symlink dst_symlink dst_filesystem dst_mtime : bool)
  (is_File : Obj -> bool) (time_String : Z -> string)
  (config : Config) (obj : Object) (tr : list wevent) (r : ending (list string)) :
  Dry config = true ->
  wruns (worker_task src_symlink dst_symlink dst_filesystem dst_mtime is_File
           time_String config obj) tr r ->
  r = Returned [] /\ Forall counts tr.
Proof.
  intros D H. unfold worker_task, copy_object, DelayDel.deleteObj in H.
  rewrite D in H.
  destruct (ObjectSize obj =? markDeleteSrc);
    [|destruct (ObjectSize obj =? markDeleteDst);
      [|destruct (ObjectSize obj =? markCopyPerms);
        [|destruct (ObjectSize obj =? markChecksum)]]];
    simpl in H; peel H; (split; [reflexivity|repeat constructor]).
Qed.

Definition some_file : Obj := mkObj "k" 3 0 false false 420 "root" "root".

Definition dry_config : Config :=
  mkConfig "" "" false false true true true true false false false false 0
           true false true 1 0 "" [].

Lemma dry_run_only_counts_witness :
  Returned [] = Returned (@nil string)
  /\ Forall counts [OnStore (Ev (Incr "deleted" 1) tt);
                    OnStore (Ev (Incr "handled" 1) tt)].
Proof.
  apply (dry_run_only_counts false false false false (fun _ => false)
           (fun _ => ""%string) dry_config (Sized some_file markDeleteSrc)).
  - reflexivity.
  - simpl. eexists. eexists. split; [reflexivity|].
    simpl. eexists. eexists. split; [reflexivity|]. split; reflexivity.
Defined.

(** *** The source store *)

(** The call leaves the source store as it is. *)
Definition keeps_source (X : Type) (o : op X) : Prop :=
  match o with
  | Put s _ _ | Delete s _ | CreateMultipartUpload s _ | UploadPart s _ _ _ _
  | UploadPartCopy s _ _ _ _ _ _ | CompleteUpload s _ _ _ | AbortUpload s _ _ =>
      s = Dst
  | _ => True
  end.

(** The call leaves the source store as it is, or deletes [key] from it. *)
Definition deletes_at_most (key : string) (X : Type) (o : op X) : Prop :=
  match o with
  | Delete s k => s = Dst \/ k = key
  | Put s _ _ | CreateMultipartUpload s _ | UploadPart s _ _ _ _
  | UploadPartCopy s _ _ _ _ _ _ | CompleteUpload s _ _ _ | AbortUpload s _ _ =>
      s = Dst
  | _ => True
  end.

(** The calls of a verification of [key]: it reads [key]. *)
Definition check_call (key : string) (X : Type) (o : op X) : Prop :=
  match o with
  | Get _ k _ _ => k = key
  | Aborted | Sleep _ | Incr _ _ => True
  | _ => False
  end.

(** The calls of [deleteObj]. *)
Definition delete_call (s : side) (key : string) (X : Type) (o : op X) : Prop :=
  match o with
  | Delete s' k => s' = s /\ k = key
  | Sleep _ | Incr _ _ => True
  | _ => False
  end.

Lemma keeps_source_deletes_at_most key X (o : op X) :
  keeps_source X o -> deletes_at_most key X o.
Proof. destruct o; simpl; auto. Qed.

Lemma copy_call_keeps key X (o : op X) : copy_call key X o -> keeps_source X o.
Proof. destruct o; simpl; tauto. Qed.

Lemma check_call_keeps key X (o : op X) : check_call key X o -> keeps_source X o.
Proof. destruct o; simpl; tauto. Qed.

Lemma delete_call_keeps key X (o : op X) : delete_call Dst key X o -> keeps_source X o.
Proof. destruct o; simpl; tauto. Qed.

Lemma delete_call_at_most s key X (o : op X) :
  delete_call s key X o -> deletes_at_most key X o.
Proof. destruct o; simpl; tauto. Qed.

Ltac pstep :=
  match goal with
  | |- uses_only _ (Ret _) => exact I
  | |- uses_only _ (call _) => split; [simpl; auto|intros; exact I]
  | |- uses_only _ (bind _ _) => apply uses_only_bind; [|intros]
  | |- uses_only _ (try _ _ _) => apply uses_only_try; [intros; exact I|intros]
  | |- uses_only _ (if ?b then _ else _) => destruct b
  | |- uses_only _ (match ?x with _ => _ end) => destruct x
  end.

Lemma calPartChksum_calls s key offset length :
  uses_only (check_call key) (calPartChksum s key offset length).
Proof. unfold calPartChksum. repeat pstep. Qed.

Lemma sum_parts_calls s key size : forall k num n,
  uses_only (check_call key) (sum_parts k num n s key size).
Proof.
  induction k as [|k IH]; intros num n; cbn [sum_parts]; [exact I|].
  apply uses_only_bind; [apply calPartChksum_calls|]. intros r.
  apply uses_only_bind; [apply IH|]. intros rest. exact I.
Qed.

Lemma calObjChksum_calls s key size :
  uses_only (check_call key) (calObjChksum s key size).
Proof.
  unfold calObjChksum. destruct (size <? maxBlock); [apply calPartChksum_calls|].
  cbv zeta. apply uses_only_bind; [apply sum_parts_calls|]. intros results.
  repeat pstep.
Qed.

Lemma compObjPartBinary_calls key offset length :
  uses_only (check_call key) (compObjPartBinary key offset length).
Proof. unfold compObjPartBinary. repeat pstep. Qed.

Lemma compare_parts_from_calls key size : forall k num n,
  uses_only (check_call key) (compare_parts_from k num n key size).
Proof.
  induction k as [|k IH]; intros num n; cbn [compare_parts_from]; [exact I|].
  apply uses_only_bind; [apply compObjPartBinary_calls|]. intros e.
  apply uses_only_bind; [apply IH|]. intros rest. exact I.
Qed.

Lemma compObjBinary_calls key size :
  uses_only (check_call key) (compObjBinary key size).
Proof.
  unfold compObjBinary, compare_parts.
  apply uses_only_bind.
  - destruct (size <? maxBlock); [apply compObjPartBinary_calls|].
    cbv zeta. apply uses_only_bind; [apply compare_parts_from_calls|].
    intros errs. exact I.
  - intros err. repeat pstep.
Qed.

Lemma deleteObj_calls s key dry :
  uses_only (delete_call s key) (DelayDel.deleteObj s key dry).
Proof. unfold DelayDel.deleteObj. repeat pstep. Qed.

Ltac wstep :=
  match goal with
  | |- wuses_only _ (WRet _) => exact I
  | |- wuses_only _ (WPanic _) => exact I
  | |- wuses_only _ (files _) => intro; exact I
  | |- wuses_only _ (count _ _) => split; [exact I|intros; exact I]
  | |- wuses_only _ (lift (call _)) => split; [simpl; auto|intros; exact I]
  | |- wuses_only _ (wbind _ _) => apply wuses_only_bind; [|intros]
  | |- wuses_only _ (wtry _ _ _) => apply wuses_only_wtry; [intros; exact I|intros]
  | |- wuses_only _ (if ?b then _ else _) => destruct b
  | |- wuses_only _ (match ?x with _ => _ end) => destruct x
  end.

Section Stores.

Variable src_symlink : bool.
Variable dst_symlink : bool.
Variable dst_filesystem : bool.
Variable dst_mtime : bool.
Variable is_File : Obj -> bool.
Variable time_String : Z -> string.

Lemma lift_keeps_copy {A} key (p : prog A) :
  uses_only (copy_call key) p -> wuses_only keeps_source (lift p).
Proof.
  intros H. apply wuses_only_lift.
  eapply uses_only_weaken; [apply (copy_call_keeps key)|exact H].
Qed.

Lemma lift_keeps_check {A} key (p : prog A) :
  uses_only (check_call key) p -> wuses_only keeps_source (lift p).
Proof.
  intros H. apply wuses_only_lift.
  eapply uses_only_weaken; [apply (check_call_keeps key)|exact H].
Qed.

Lemma copyPerms_keeps obj config :
  wuses_only keeps_source (copyPerms dst_filesystem is_File obj config).
Proof. unfold copyPerms. cbv zeta. repeat wstep. Qed.

Lemma needCopyPerms_keeps o1 o2 :
  wuses_only keeps_source (needCopyPerms is_File o1 o2).
Proof. unfold needCopyPerms. repeat wstep. Qed.

Lemma doCheckSum_keeps key srcChksum obj config equal :
  wuses_only keeps_source
    (doCheckSum src_symlink dst_symlink key srcChksum obj config equal).
Proof.
  unfold doCheckSum.
  destruct (IsSymlink (withoutSize obj) && Links config
            && (CheckAll config || CheckNew config)).
  - repeat wstep.
  - destruct srcChksum as [src_sum|].
    + apply wuses_only_bind;
        [apply (lift_keeps_check key), calObjChksum_calls|].
      intros r. repeat wstep.
    + apply wuses_only_bind;
        [apply (lift_keeps_check key), compObjBinary_calls|].
      intros r. exact I.
Qed.

Lemma checkSum_keeps key srcChksum obj config :
  wuses_only keeps_source (checkSum src_symlink dst_symlink key srcChksum obj config).
Proof.
  unfold checkSum. apply wuses_only_bind.
  - apply wuses_only_wtry; [intros; exact I|]. intros v. apply doCheckSum_keeps.
  - intros r. repeat wstep.
Qed.

Lemma checkChange_keeps obj key config :
  wuses_only keeps_source (checkChange time_String obj key config).
Proof. unfold checkChange. cbv zeta. repeat wstep. Qed.

Lemma copyLink_keeps key :
  wuses_only keeps_source (copyLink src_symlink dst_symlink key).
Proof. unfold copyLink. repeat wstep. Qed.

Lemma copy_object_keeps obj config :
  wuses_only keeps_source
    (copy_object src_symlink dst_symlink dst_filesystem dst_mtime is_File
       time_String obj config).
Proof.
  unfold copy_object. cbv zeta.
  destruct (Dry config); [repeat wstep|].
  apply wuses_only_bind.
  - destruct (Links config && IsSymlink (withoutSize obj)).
    + apply wuses_only_bind; [apply copyLink_keeps|]. intros e. exact I.
    + apply wuses_only_bind;
        [apply (lift_keeps_copy (ObjectKey obj)), CopyData_calls|].
      intros r. repeat wstep.
  - intros r. apply wuses_only_bind.
    + destruct (snd r) as [e|].
      * destruct (is_extlink e); exact I.
      * destruct (CheckChange config); [apply checkChange_keeps|exact I].
    + intros err. apply wuses_only_bind.
      * destruct err; [exact I|].
        destruct (CheckAll config || CheckNew config); [|exact I].
        apply wuses_only_bind; [apply checkSum_keeps|]. intros c. repeat wstep.
      * intros err'. destruct err' as [e|]; [repeat wstep|].
        apply wuses_only_bind; [repeat wstep|]. intros _.
        apply wuses_only_bind;
          [destruct (Perms config); [apply copyPerms_keeps|exact I]|].
        intros _. repeat wstep.
Qed.

Lemma at_most {A} key (p : wprog A) :
  wuses_only keeps_source p -> wuses_only (deletes_at_most key) p.
Proof. apply wuses_only_weaken, keeps_source_deletes_at_most. Qed.

Lemma deleteObj_at_most s key dry :
  wuses_only (deletes_at_most key) (lift (DelayDel.deleteObj s key dry)).
Proof.
  apply wuses_only_lift.
  eapply uses_only_weaken; [apply (delete_call_at_most s key)|].
  apply deleteObj_calls.
Qed.

Lemma deleteObj_Dst_keeps key dry :
  wuses_only keeps_source (lift (DelayDel.deleteObj Dst key dry)).
Proof.
  apply wuses_only_lift.
  eapply uses_only_weaken; [apply (delete_call_keeps key)|].
  apply deleteObj_calls.
Qed.

Lemma deleteObj_dry_keeps s key :
  wuses_only keeps_source (lift (DelayDel.deleteObj s key true)).
Proof. split; [exact I|intros; exact I]. Qed.

Ltac known_keeps :=
  match goal with
  | |- wuses_only _ (copyPerms _ _ _ _) => apply copyPerms_keeps
  | |- wuses_only _ (needCopyPerms _ _ _) => apply needCopyPerms_keeps
  | |- wuses_only _ (checkSum _ _ _ _ _ _) => apply checkSum_keeps
  | |- wuses_only _ (copy_object _ _ _ _ _ _ _ _) => apply copy_object_keeps
  end.

Ltac kstep :=
  match goal with
  | |- wuses_only _ (lift (DelayDel.deleteObj Dst _ _)) => apply deleteObj_Dst_keeps
  | |- wuses_only _ (lift (DelayDel.deleteObj _ _ true)) => apply deleteObj_dry_keeps
  | _ => first [known_keeps | wstep]
  end.

Ltac astep :=
  match goal with
  | |- wuses_only _ (lift (DelayDel.deleteObj _ _ _)) => apply deleteObj_at_most
  | _ => first [apply at_most; known_keeps | wstep]
  end.

Lemma worker_task_at_most config obj :
  wuses_only (deletes_at_most (ObjectKey obj))
    (worker_task src_symlink dst_symlink dst_filesystem dst_mtime is_File
       time_String config obj).
Proof. unfold worker_task. cbv zeta. repeat astep. Qed.

(** The task is a checksum task that deleted the source object after a
    [checkSum] that found it equal to the destination: [tr] starts with
    the run of that [checkSum]. *)
Definition verified_delete (config : Config) (obj : Object) (tr : list wevent)
  : Prop :=
  Dry config = false /\ ObjectSize obj = markChecksum
  /\ DeleteSrc config = true /\ IsDir (withoutSize obj) = false
  /\ exists tr1 tr2,
       tr = tr1 ++ tr2
       /\ Forall (wallowed keeps_source) tr1
       /\ wruns (checkSum src_symlink dst_symlink (ObjectKey obj) None
                   (Plain (withoutSize obj)) config) tr1 (Returned (true, None)).

Lemma verified_delete_app config obj tr more :
  verified_delete config obj tr -> verified_delete config obj (tr ++ more).
Proof.
  intros (D & M & S & I & tr1 & tr2 & -> & K & R).
  repeat (split; [assumption|]).
  exists tr1, (tr2 ++ more). rewrite app_assoc. auto.
Qed.

Lemma worker_task_source config obj tr r :
  wruns (worker_task src_symlink dst_symlink dst_filesystem dst_mtime is_File
           time_String config obj) tr r ->
  Forall (wallowed keeps_source) tr
  \/ (Dry config = false /\ ObjectSize obj = markDeleteSrc)
  \/ verified_delete config obj tr.
Proof.
  unfold worker_task. cbv zeta. intros H.
  destruct (ObjectSize obj =? markDeleteSrc) eqn:E1.
  { destruct (Dry config) eqn:D.
    - left. revert H. apply wuses_only_runs. repeat kstep.
    - right. left. split; [reflexivity|]. now apply Z.eqb_eq. }
  destruct (ObjectSize obj =? markDeleteDst) eqn:E2.
  { left. revert H. apply wuses_only_runs. repeat kstep. }
  destruct (ObjectSize obj =? markCopyPerms) eqn:E3.
  { left. revert H. apply wuses_only_runs. repeat kstep. }
  destruct (ObjectSize obj =? markChecksum) eqn:E4.
  2:{ left. revert H. apply wuses_only_runs. repeat kstep. }
  destruct (Dry config) eqn:D.
  { left. revert H. apply wuses_only_runs. repeat kstep. }
  apply wruns_bind in H.
  destruct H as [(trb & delayed & tl & Hb & Ht & ->)|(msg & -> & Hb)].
  - assert (Tl : Forall (wallowed keeps_source) tl).
    { revert Ht. apply wuses_only_runs. repeat kstep. }
    apply wruns_bind in Hb.
    destruct Hb as [(t1 & c & t2 & Hc & Hrest & ->)|(msg & Hm & _)];
      [|discriminate].
    assert (K1 : Forall (wallowed keeps_source) t1).
    { revert Hc. apply wuses_only_runs, checkSum_keeps. }
    destruct c as [equal [e|]]; cbn [fst snd] in Hrest.
    { left. rewrite !Forall_app. repeat split; auto.
      revert Hrest. apply wuses_only_runs. repeat kstep. }
    destruct equal.
    2:{ left. rewrite !Forall_app. repeat split; auto.
        revert Hrest. apply wuses_only_runs. repeat kstep. }
    destruct (DeleteSrc config) eqn:S.
    2:{ left. rewrite !Forall_app. repeat split; auto.
        revert Hrest. apply wuses_only_runs. repeat kstep. }
    destruct (IsDir (withoutSize obj)) eqn:Hdir.
    { left. rewrite !Forall_app. repeat split; auto.
      revert Hrest. apply wuses_only_runs. repeat kstep. }
    right. right. apply verified_delete_app.
    split; [exact D|]. split; [now apply Z.eqb_eq|].
    split; [exact S|]. split; [exact Hdir|].
    exists t1, t2. auto.
  - apply wruns_bind in Hb.
    destruct Hb as [(t1 & c & t2 & Hc & Hrest & ->)|(msg' & _ & Hc)].
    + assert (K1 : Forall (wallowed keeps_source) t1).
      { revert Hc. apply wuses_only_runs, checkSum_keeps. }
      destruct c as [equal [e|]]; cbn [fst snd] in Hrest.
      { left. rewrite !Forall_app. split; auto.
        revert Hrest. apply wuses_only_runs. repeat kstep. }
      destruct equal.
      2:{ left. rewrite !Forall_app. split; auto.
          revert Hrest. apply wuses_only_runs. repeat kstep. }
      destruct (DeleteSrc config) eqn:S.
      2:{ left. rewrite !Forall_app. split; auto.
          revert Hrest. apply wuses_only_runs. repeat kstep. }
      destruct (IsDir (withoutSize obj)) eqn:Hdir.
      { left. rewrite !Forall_app. split; auto.
        revert Hrest. apply wuses_only_runs. repeat kstep. }
      right. right.
      split; [exact D|]. split; [now apply Z.eqb_eq|].
      split; [exact S|]. split; [exact Hdir|].
      exists t1, t2. auto.
    + left. revert Hc. apply wuses_only_runs, checkSum_keeps.
Qed.

End Stores.

(** X18. What the worker does to the source store. The only change a
    task ever makes to the source is to delete the key of the task. It
    makes none at all unless the run is not dry and the task is either a
    delete-source task, or a checksum task with [DeleteSrc] set on an
    object that is no directory, after the [checkSum] of the task
    returned equal without error: a copy, a permission task, a failed or
    unequal check never touch the source. *)
Theorem source_changed_only_by_verified_delete
  (src_symlink dst_symlink dst_filesystem dst_mtime : bool)
  (is_File : Obj -> bool) (time_String : Z -> string)
  (config : Config) (obj : Object) (tr : list wevent) (r : ending (list string)) :
  wruns (worker_task src_symlink dst_symlink dst_filesystem dst_mtime is_File
           time_String config obj) tr r ->
  Forall (wallowed (deletes_at_most (ObjectKey obj))) tr
  /\ (Forall (wallowed keeps_source) tr
      \/ (Dry config = false /\ ObjectSize obj = markDeleteSrc)
      \/ verified_delete src_symlink dst_symlink config obj tr).
Proof.
  intros H. split.
  - revert H. apply wuses_only_runs, worker_task_at_most.
  - revert H. apply worker_task_source.
Qed.

Definition move_config : Config :=
  mkConfig "" "" false false false false true false false false false false 0
           false false false 1 0 "" [].

(** A checksum task of a run that deletes what it has copied. *)
Definition verified_move : list wevent :=
  map OnStore
    [Ev Aborted false;
     Ev (Get Src "k" 0 3) (inr three_bytes);
     Ev (Get Dst "k" 0 3) (inr three_bytes);
     Ev (Incr "checked" 1) tt;
     Ev (Incr "checkedBytes" 3) tt;
     Ev (Delete Src "k") None;
     Ev (Incr "deleted" 1) tt;
     Ev (Incr "handled" 1) tt].

Lemma source_changed_only_by_verified_delete_witness :
  Forall (wallowed (deletes_at_most "k")) verified_move
  /\ (Forall (wallowed keeps_source) verified_move
      \/ (false = false /\ markChecksum = markDeleteSrc)
      \/ verified_delete false false move_config (Sized some_file markChecksum)
           verified_move).
Proof.
  apply (source_changed_only_by_verified_delete false false false false
           (fun _ => false) (fun _ => ""%string) move_config
           (Sized some_file markChecksum) verified_move (Returned [])).
  repeat (simpl; eexists; eexists; split; [reflexivity|]).
  simpl. split; reflexivity.
Defined.

(** *** What is counted as copied *)


Definition counted (counter : string) : wevent := OnStore (Ev (Incr counter 1) tt).



Section Outcome.

Variable src_symlink : bool.
Variable dst_symlink : bool.
Variable dst_filesystem : bool.
Variable dst_mtime : bool.
Variable is_File : Obj -> bool.
Variable time_String : Z -> string.




End Outcome.


Definition link_config : Config :=
  mkConfig "" "" false false false false false false false false false true 0
           true false false 1 0 "" [].

Definition some_link : Obj := mkObj "k" 6 0 false true 511 "root" "root".

(** A symbolic link that is made again at the destination and that the
    check after it reads back. *)
Definition checked_link : list wevent :=
  [OnFiles (Readlink Src "k") (inr "target"%string);
   OnStore (Ev (Delete Dst "k") None);
   OnFiles (Symlink "target" "k") None;
   OnFiles (Readlink Src "k") (inr "target"%string);
   OnFiles (Readlink Dst "k") (inr "target"%string);
   OnStore (Ev (Incr "checked" 1) tt);
   OnStore (Ev (Incr "checkedBytes" 6) tt)].


(** *** The keys a task names *)

(** Every call a program of the worker can make is one that [P] allows on
    a store, or that [Q] allows on the files of a store. *)
Fixpoint wcalls {A : Type} (P : forall X, op X -> Prop)
  (Q : forall X, fs_op X -> Prop) (p : wprog A) : Prop :=
  match p with
  | WRet _ => True
  | WPanic _ => True
  | WStore o k => P _ o /\ forall x, wcalls P Q (k x)
  | WFiles o k => Q _ o /\ forall x, wcalls P Q (k x)
  end.

Definition wcalled (P : forall X, op X -> Prop) (Q : forall X, fs_op X -> Prop)
  (e : wevent) : Prop :=
  match e with
  | OnStore e => allowed P e
  | OnFiles o _ => Q _ o
  end.

Lemma wcalls_runs {A} (P : forall X, op X -> Prop) (Q : forall X, fs_op X -> Prop)
  (p : wprog A) :
  wcalls P Q p -> forall tr r, wruns p tr r -> Forall (wcalled P Q) tr.
Proof.
  induction p as [a|msg|X o k IH|X o k IH]; simpl.
  - intros _ tr r [-> _]. constructor.
  - intros _ tr r [-> _]. constructor.
  - intros [Ho Hk] tr r (x & tr' & -> & H). constructor; [exact Ho|].
    eapply IH; eauto.
  - intros [Ho Hk] tr r (x & tr' & -> & H). constructor; [exact Ho|].
    eapply IH; eauto.
Qed.

Lemma wcalls_bind {A B} (P : forall X, op X -> Prop) (Q : forall X, fs_op X -> Prop)
  (p : wprog A) (f : A -> wprog B) :
  wcalls P Q p -> (forall a, wcalls P Q (f a)) -> wcalls P Q (wbind p f).
Proof.
  induction p as [a|msg|X o k IH|X o k IH]; simpl; intros Hp Hf.
  - apply Hf.
  - exact I.
  - destruct Hp as [Ho Hk]. split; [exact Ho|]. intros x. apply IH; auto.
  - destruct Hp as [Ho Hk]. split; [exact Ho|]. intros x. apply IH; auto.
Qed.

Lemma wcalls_lift {A} (P : forall X, op X -> Prop) (Q : forall X, fs_op X -> Prop)
  (p : prog A) : uses_only P p -> wcalls P Q (lift p).
Proof.
  induction p as [a|X o k IH]; simpl; [auto|].
  intros [Ho Hk]. split; [exact Ho|]. intros x. apply IH, Hk.
Qed.

Lemma wcalls_wtry {V} (P : forall X, op X -> Prop) (Q : forall X, fs_op X -> Prop)
  (n : Z) (f : V -> wprog (V * option error)) (v : V) :
  (forall nanoseconds, P _ (Sleep nanoseconds)) ->
  (forall v, wcalls P Q (f v)) -> wcalls P Q (wtry n f v).
Proof.
  intros Hs Hf. unfold wtry. generalize (Z.to_nat n) 0 v (@None error).
  induction n0 as [|k IH]; intros i v0 err; simpl; [exact I|].
  apply wcalls_bind; [apply Hf|]. intros r.
  destruct (negb (shouldRetry (snd r))); simpl; [exact I|].
  split; [apply Hs|]. intros _. apply IH.
Qed.

(** The call on a store names no key but [key] and the temporary keys
    [key.partN], and is no listing. *)
Definition names_key (key : string) (X : Type) (o : op X) : Prop :=
  match o with
  | Head _ k | Get _ k _ _ | Put _ k _ | Delete _ k | CreateMultipartUpload _ k
  | UploadPart _ k _ _ _ | CompleteUpload _ k _ _ | AbortUpload _ k _ =>
      k = key \/ part_key key k
  | UploadPartCopy _ k _ _ srcKey _ _ => k = key /\ part_key key srcKey
  | ParallelDownload k _ => k = key
  | List _ _ _ _ _ _ _ => False
  | StoreListAll _ _ _ _ => False
  | ListAllWithDelimiter _ _ _ _ _ => False
  | _ => True
  end.

(** The call on the files of a store is about [key]. *)
Definition files_key (key : string) (X : Type) (o : fs_op X) : Prop :=
  match o with
  | Readlink _ k => k = key
  | Symlink _ newName => newName = key
  | Chown k _ _ => k = key
  | Chmod k _ => k = key
  | Chtimes k _ => k = key
  end.

Lemma copy_call_names key X (o : op X) : copy_call key X o -> names_key key X o.
Proof. destruct o; simpl; tauto. Qed.

Lemma check_call_names key X (o : op X) : check_call key X o -> names_key key X o.
Proof. destruct o; simpl; tauto. Qed.

Lemma delete_call_names s key X (o : op X) :
  delete_call s key X o -> names_key key X o.
Proof. destruct o; simpl; tauto. Qed.

Ltac cstep :=
  match goal with
  | |- wcalls _ _ (WRet _) => exact I
  | |- wcalls _ _ (WPanic _) => exact I
  | |- wcalls _ _ (files _) => split; [reflexivity|intros; exact I]
  | |- wcalls _ _ (count _ _) => split; [exact I|intros; exact I]
  | |- wcalls _ _ (lift (call _)) => split; [simpl; auto|intros; exact I]
  | |- wcalls _ _ (lift (DelayDel.deleteObj ?s ?key _)) =>
      apply wcalls_lift;
      eapply uses_only_weaken; [apply (delete_call_names s key)|];
      apply deleteObj_calls
  | |- wcalls _ _ (lift (CopyData ?key _ _)) =>
      apply wcalls_lift;
      eapply uses_only_weaken; [apply (copy_call_names key)|];
      apply CopyData_calls
  | |- wcalls _ _ (lift (calObjChksum _ ?key _)) =>
      apply wcalls_lift;
      eapply uses_only_weaken; [apply (check_call_names key)|];
      apply calObjChksum_calls
  | |- wcalls _ _ (lift (compObjBinary ?key _)) =>
      apply wcalls_lift;
      eapply uses_only_weaken; [apply (check_call_names key)|];
      apply compObjBinary_calls
  | |- wcalls _ _ (wbind _ _) => apply wcalls_bind; [|intros]
  | |- wcalls _ _ (wtry _ _ _) => apply wcalls_wtry; [intros; exact I|intros]
  | |- wcalls _ _ (if ?b then _ else _) => destruct b
  | |- wcalls _ _ (match ?x with _ => _ end) => destruct x
  end.

Section Names.

Variable src_symlink : bool.
Variable dst_symlink : bool.
Variable dst_filesystem : bool.
Variable dst_mtime : bool.
Variable is_File : Obj -> bool.
Variable time_String : Z -> string.

Lemma copyPerms_names obj config :
  wcalls (names_key (Key obj)) (files_key (Key obj))
    (copyPerms dst_filesystem is_File obj config).
Proof. unfold copyPerms. cbv zeta. repeat cstep. Qed.

Lemma needCopyPerms_names key o1 o2 :
  wcalls (names_key key) (files_key key) (needCopyPerms is_File o1 o2).
Proof. unfold needCopyPerms. repeat cstep. Qed.

Lemma doCheckSum_names key srcChksum obj config equal :
  wcalls (names_key key) (files_key key)
    (doCheckSum src_symlink dst_symlink key srcChksum obj config equal).
Proof. unfold doCheckSum. repeat cstep. Qed.

Lemma checkSum_names key srcChksum obj config :
  wcalls (names_key key) (files_key key)
    (checkSum src_symlink dst_symlink key srcChksum obj config).
Proof.
  unfold checkSum. apply wcalls_bind.
  - apply wcalls_wtry; [intros; exact I|]. intros v. apply doCheckSum_names.
  - intros r. repeat cstep.
Qed.

Lemma checkChange_names obj key config :
  wcalls (names_key key) (files_key key) (checkChange time_String obj key config).
Proof. unfold checkChange. cbv zeta. repeat cstep. Qed.

Lemma copyLink_names key :
  wcalls (names_key key) (files_key key) (copyLink src_symlink dst_symlink key).
Proof. unfold copyLink. repeat cstep. Qed.

Ltac known_names :=
  match goal with
  | |- wcalls _ _ (copyPerms _ _ _ _) => apply copyPerms_names
  | |- wcalls _ _ (needCopyPerms _ _ _) => apply needCopyPerms_names
  | |- wcalls _ _ (checkSum _ _ _ _ _ _) => apply checkSum_names
  | |- wcalls _ _ (checkChange _ _ _ _) => apply checkChange_names
  | |- wcalls _ _ (copyLink _ _ _) => apply copyLink_names
  end.

Lemma copy_object_names obj config :
  wcalls (names_key (ObjectKey obj)) (files_key (ObjectKey obj))
    (copy_object src_symlink dst_symlink dst_filesystem dst_mtime is_File
       time_String obj config).
Proof.
  unfold copy_object. cbv zeta.
  destruct (Dry config); [repeat cstep|].
  apply wcalls_bind.
  - destruct (Links config && IsSymlink (withoutSize obj));
      repeat first [known_names | cstep].
  - intros r. apply wcalls_bind.
    + destruct (snd r) as [e|].
      * destruct (is_extlink e); exact I.
      * destruct (CheckChange config); [apply checkChange_names|exact I].
    + intros err. apply wcalls_bind.
      * destruct err; [exact I|].
        destruct (CheckAll config || CheckNew config); [|exact I].
        apply wcalls_bind; [apply checkSum_names|]. intros c. repeat cstep.
      * intros err'. destruct err' as [e|]; [repeat cstep|].
        apply wcalls_bind; [repeat cstep|]. intros _.
        apply wcalls_bind;
          [destruct (Perms config); [apply copyPerms_names|exact I]|].
        intros _. repeat cstep.
Qed.

Lemma worker_task_names config obj :
  wcalls (names_key (ObjectKey obj)) (files_key (ObjectKey obj))
    (worker_task src_symlink dst_symlink dst_filesystem dst_mtime is_File
       time_String config obj).
Proof.
  unfold worker_task. cbv zeta.
  repeat first
    [ known_names
    | match goal with
      | |- wcalls _ _ (copy_object _ _ _ _ _ _ (Plain (withoutSize ?o)) _) =>
          apply (copy_object_names (Plain (withoutSize o)))
      | |- wcalls _ _ (copy_object _ _ _ _ _ _ _ _) => apply copy_object_names
      end
    | cstep ].
Qed.

End Names.

(** X20. A task is about its key only. Whatever the task and the
    configuration, every call of the worker that names a key names the
    key of the task, or one of the temporary keys [key.partN] of its
    copy: on both stores, and in [Readlink], [Symlink], [Chown], [Chmod]
    and [Chtimes]. No task lists a store. *)
Theorem task_names_its_key_only
  (src_symlink dst_symlink dst_filesystem dst_mtime : bool)
  (is_File : Obj -> bool) (time_String : Z -> string)
  (config : Config) (obj : Object) (tr : list wevent) (r : ending (list string)) :
  wruns (worker_task src_symlink dst_symlink dst_filesystem dst_mtime is_File
           time_String config obj) tr r ->
  Forall (wcalled (names_key (ObjectKey obj)) (files_key (ObjectKey obj))) tr.
Proof. apply wcalls_runs, worker_task_names. Qed.

Lemma task_names_its_key_only_witness :
  Forall (wcalled (names_key "k") (files_key "k"))
         (checked_link ++ [counted "copied"; counted "handled"]).
Proof.
  apply (task_names_its_key_only true true false false (fun _ => false)
           (fun _ => ""%string) link_config (Plain some_link)
           (checked_link ++ [counted "copied"; counted "handled"]) (Returned [])).
  repeat (simpl; eexists; eexists; split; [reflexivity|]).
  simpl. split; reflexivity.
Defined.

(** *** What an equal verdict stands for *)




Section Verdict.

Variable src_symlink : bool.
Variable dst_symlink : bool.





End Verdict.



End WorkerFacts.
